(** * Mel-spectrogram front end: audio_processing.h / audio_processing.cpp

    A shallow embedding of the audio-to-feature transform and the proofs of
    its specification.

    Numbers.  The C [float] is modelled by the real numbers [R] of the
    Standard Library: every operation is taken exact, rounding is not
    modelled.  The C [int] is modelled by [Z] (or by [nat] for sizes, loop
    counters and array positions); every integer the program computes is far
    below 2^31, so no wrap-around is written out.

    Arrays.  A C array is a [list R] read with stdpp's total lookup
    [a !!! i] and written with [<[i:=v]> a].  A read or write outside the
    list is undefined in C; here the read yields 0 and the write does
    nothing.  The two pointer arguments of [audioToMelSpectrogram] live in a
    flat memory of floats, so that the function is modelled with the
    aliasing C permits. *)

From Stdlib Require Import Reals Lra Lia ZArith List.
From stdpp Require Import list.

Open Scope R_scope.

#[global] Instance R_inhabited : Inhabited R := populate 0.

(** ** Configuration (audio_processing.h) *)

Definition SAMPLE_RATE : Z := 16000.
Definition FFT_SIZE : Z := 512.
Definition NUM_MELS : Z := 40.
Definition NUM_FRAMES : Z := 49.
Definition HOP_LENGTH : Z := 160.
Definition BUFFER_SIZE : Z := NUM_FRAMES * HOP_LENGTH + FFT_SIZE.
Definition MIN_FREQ : Z := 20.
Definition MAX_FREQ : Z := 8000.

(** ** Loops

    [for (int i = lo; i < lo + n; i++) body] as a left fold over the values
    of the counter. *)

Definition for_range {St : Type} (lo n : nat) (body : nat -> St -> St) (s : St) : St :=
  fold_left (fun acc i => body i acc) (seq lo n) s.

(** The values [lo, lo+1, ..., hi-1] of an [int] counter; empty when
    [hi <= lo]. *)
Definition zrange (lo hi : Z) : list Z :=
  map (fun i => (lo + Z.of_nat i)%Z) (seq 0 (Z.to_nat (hi - lo))).

Definition for_z {St : Type} (lo hi : Z) (body : Z -> St -> St) (s : St) : St :=
  fold_left (fun acc i => body i acc) (zrange lo hi) s.

(** Reading an array at an [int] index. *)
Definition rdZ (a : list R) (j : Z) : R :=
  if (j <? 0)%Z then 0 else a !!! Z.to_nat j.

(** ** applyHannWindow *)

Definition hann (size i : nat) : R :=
  0.5 * (1 - cos (2 * PI * INR i / IZR (Z.of_nat size - 1))).

Definition applyHannWindow (buffer : list R) (size : nat) : list R :=
  for_range 0 size (fun i buf => <[i := buf !!! i * hann size i]> buf) buffer.

(** ** computeFFT *)

Record fft_state := { real : list R; imag : list R }.

(** One pass of the innermost loop body on the two arrays (lines 33-39). *)
Definition butterfly (m k j : nat) (w_real w_imag : R) (s : fft_state) : fft_state :=
  let hi := (k + j + m / 2)%nat in
  let lo := (k + j)%nat in
  let t_real := w_real * real s !!! hi - w_imag * imag s !!! hi in
  let t_imag := w_real * imag s !!! hi + w_imag * real s !!! hi in
  let real1 := <[hi := real s !!! lo - t_real]> (real s) in
  let imag1 := <[hi := imag s !!! lo - t_imag]> (imag s) in
  {| real := <[lo := real1 !!! lo + t_real]> real1;
     imag := <[lo := imag1 !!! lo + t_imag]> imag1 |}.

(** The loop over [j] carries the twiddle factor [(w_real, w_imag)] along
    with the arrays (lines 32-45). *)
Definition fft_inner (m k : nat) (wm_real wm_imag : R) (s : fft_state) : fft_state :=
  snd (for_range 0 (m / 2)
         (fun j '(w_real, w_imag, st) =>
            let st' := butterfly m k j w_real w_imag st in
            let w_next_real := w_real * wm_real - w_imag * wm_imag in
            let w_next_imag := w_real * wm_imag + w_imag * wm_real in
            (w_next_real, w_next_imag, st'))
         (1, 0, s)).

(** [for (k = 0; k < size; k += m)]: [k] takes the multiples of [m] below
    [size], of which there are [ceil (size / m)]. *)
Definition fft_blocks (size m : nat) (wm_real wm_imag : R) (s : fft_state) : fft_state :=
  for_range 0 ((size + m - 1) / m)
    (fun b st => fft_inner m (b * m) wm_real wm_imag st) s.

Definition fft_stage (size stage : nat) (s : fft_state) : fft_state :=
  let m := (2 ^ stage)%nat in
  let wm_real := cos (2 * PI / INR m) in
  let wm_imag := - sin (2 * PI / INR m) in
  fft_blocks size m wm_real wm_imag s.

(** [stage] is an integer, so [stage <= log2(size)] holds for
    [stage = 1 .. floor (log2 size)]. *)
Definition fft_stages (size : nat) (s : fft_state) : fft_state :=
  for_range 1 (Nat.log2 size) (fun stage st => fft_stage size stage st) s.

Definition fft_init (buffer : list R) (size : nat) : fft_state :=
  {| real := map (fun i => buffer !!! i) (seq 0 size);
     imag := replicate size 0 |}.

Definition fft_magnitudes (buffer : list R) (size : nat) (s : fft_state) : list R :=
  for_range 0 (size / 2)
    (fun i buf =>
       <[i := sqrt (real s !!! i * real s !!! i + imag s !!! i * imag s !!! i)]> buf)
    buffer.

Definition computeFFT (buffer : list R) (size : nat) : list R :=
  fft_magnitudes buffer size (fft_stages size (fft_init buffer size)).

(** ** hzToMel, melToHz *)

Definition log10f (x : R) : R := ln x / ln 10.
Definition powf (b e : R) : R := Rpower b e.

(** [roundf]: to the nearest integer, halves away from zero. *)
Definition roundf (x : R) : Z :=
  if Rle_dec 0 x then Int_part (x + / 2) else (- Int_part (- x + / 2))%Z.

Definition hzToMel (hz : R) : R := 2595 * log10f (1 + hz / 700).
Definition melToHz (mel : R) : R := 700 * (powf 10 (mel / 2595) - 1).

(** ** computeMelFilterbank *)

(** Lines 67-87: the [NUM_MELS + 2] bin indices. *)
Definition mel_min : R := hzToMel (IZR MIN_FREQ).
Definition mel_max : R := hzToMel (IZR MAX_FREQ).
Definition mel_step : R := (mel_max - mel_min) / IZR (NUM_MELS + 1).

Definition mel_points : list R :=
  map (fun i => mel_min + INR i * mel_step) (seq 0 (Z.to_nat (NUM_MELS + 2))).
Definition freq_points : list R := map melToHz mel_points.
Definition fft_indices : list Z :=
  map (fun f => roundf (f * IZR FFT_SIZE / IZR SAMPLE_RATE)) freq_points.

(** Lines 94-99: the weight of bin [j] in filter [i]. *)
Definition mel_weight (idx : list Z) (i : nat) (j : Z) : R :=
  if (j <? idx !!! (i + 1)%nat)%Z
  then IZR (j - idx !!! i) / IZR (idx !!! (i + 1)%nat - idx !!! i)
  else IZR (idx !!! (i + 2)%nat - j) / IZR (idx !!! (i + 2)%nat - idx !!! (i + 1)%nat).

(** Lines 91-102: the body of the loop over the filters; the energy is
    accumulated in the cell [mel_energies[i]] itself. *)
Definition mel_accumulate (idx : list Z) (fft_mags : list R) (i : nat)
    (mel_energies : list R) : list R :=
  for_z (idx !!! i) (idx !!! (i + 2)%nat)
    (fun j me =>
       if (j <? FFT_SIZE / 2)%Z
       then <[i := me !!! i + rdZ fft_mags j * mel_weight idx i j]> me
       else me)
    (<[i := 0]> mel_energies).

(** Lines 89-103, for any table of bin indices. *)
Definition applyMelFilters (idx : list Z) (fft_mags mel_energies : list R) : list R :=
  for_range 0 (Z.to_nat NUM_MELS) (mel_accumulate idx fft_mags) mel_energies.

Definition computeMelFilterbank (fft_mags mel_energies : list R) : list R :=
  applyMelFilters fft_indices fft_mags mel_energies.

(** The same loops with the two divisions checked: [None] as soon as a
    weight is computed with a zero denominator. *)
Definition mel_weight_checked (idx : list Z) (i : nat) (j : Z) : option R :=
  if (j <? idx !!! (i + 1)%nat)%Z
  then if (idx !!! (i + 1)%nat - idx !!! i =? 0)%Z then None
       else Some (IZR (j - idx !!! i) / IZR (idx !!! (i + 1)%nat - idx !!! i))
  else if (idx !!! (i + 2)%nat - idx !!! (i + 1)%nat =? 0)%Z then None
       else Some (IZR (idx !!! (i + 2)%nat - j)
                  / IZR (idx !!! (i + 2)%nat - idx !!! (i + 1)%nat)).

Definition mel_accumulate_checked (idx : list Z) (fft_mags : list R) (i : nat)
    (mel_energies : option (list R)) : option (list R) :=
  for_z (idx !!! i) (idx !!! (i + 2)%nat)
    (fun j ome =>
       me ← ome;
       if (j <? FFT_SIZE / 2)%Z
       then w ← mel_weight_checked idx i j;
            Some (<[i := me !!! i + rdZ fft_mags j * w]> me)
       else Some me)
    (me ← mel_energies; Some (<[i := 0]> me)).

Definition applyMelFilters_checked (idx : list Z) (fft_mags mel_energies : list R)
    : option (list R) :=
  for_range 0 (Z.to_nat NUM_MELS) (mel_accumulate_checked idx fft_mags)
    (Some mel_energies).

(** The sum of a list of reals. *)
Definition Rsum (l : list R) : R := fold_right Rplus 0 l.

(** The band energy as the specification words it: the sum, over the bins
    [left <= j < right] with [j < N/2], of magnitude times weight, the
    rising weight below the centre bin and the falling weight from the
    centre bin on. *)
Definition weight_spec (left center right j : Z) : R :=
  if (j <? center)%Z
  then IZR (j - left) / IZR (center - left)
  else IZR (right - j) / IZR (right - center).

Definition band_energy_spec (left center right : Z) (magnitude : list R) : R :=
  Rsum (map (fun j => rdZ magnitude j * weight_spec left center right j)
          (List.filter (fun j => (j <? FFT_SIZE / 2)%Z) (zrange left right))).

(** The two halves of a triangle: the bins below the centre and the bins
    from the centre on. *)
Definition rising_part (left center right : Z) (magnitude : list R) : R :=
  Rsum (map (fun j => rdZ magnitude j * weight_spec left center right j)
          (List.filter (fun j => (j <? FFT_SIZE / 2)%Z) (zrange left center))).

Definition falling_part (left center right : Z) (magnitude : list R) : R :=
  Rsum (map (fun j => rdZ magnitude j * weight_spec left center right j)
          (List.filter (fun j => (j <? FFT_SIZE / 2)%Z) (zrange center right))).

(** ** normalizeSpectrogram *)

Definition max_scan (spectrogram : list R) (size : nat) : R :=
  for_range 0 size
    (fun i max_val =>
       if Rgt_dec (spectrogram !!! i) max_val then spectrogram !!! i else max_val)
    0.

Definition normalizeSpectrogram (spectrogram : list R) (size : nat) : list R :=
  let max_val := max_scan spectrogram size in
  if Rgt_dec max_val 0
  then for_range 0 size (fun i sp => <[i := sp !!! i / max_val]> sp) spectrogram
  else spectrogram.

(** ** audioToMelSpectrogram

    [audio] and [spectrogram] are pointers into one memory of floats,
    addressed in units of a float. *)

Definition mem : Type := Z -> R.

Definition store (m : mem) (a : Z) (v : R) : mem :=
  fun x => if (x =? a)%Z then v else m x.

Definition load_array (m : mem) (p : Z) (n : nat) : list R :=
  map (fun i => m (p + Z.of_nat i)%Z) (seq 0 n).

Definition store_array (m : mem) (p : Z) (a : list R) : mem :=
  for_range 0 (length a) (fun i m' => store m' (p + Z.of_nat i)%Z (a !!! i)) m.

(** Lines 129-132: the copy of one frame into the local [fft_buffer]. *)
Definition extract_frame (m : mem) (audio : Z) (frame : nat) (fft_buffer : list R)
    : list R :=
  for_range 0 (Z.to_nat FFT_SIZE)
    (fun i buf =>
       let idx := (Z.of_nat frame * HOP_LENGTH + Z.of_nat i)%Z in
       <[i := if (idx <? BUFFER_SIZE)%Z then m (audio + idx)%Z else 0]> buf)
    fft_buffer.

(** Lines 142-144: the copy of the energies into the output array. *)
Definition write_column (spectrogram : Z) (frame : nat) (mel_energies : list R)
    (m : mem) : mem :=
  for_range 0 (Z.to_nat NUM_MELS)
    (fun mel m' =>
       store m' (spectrogram + (Z.of_nat mel * NUM_FRAMES + Z.of_nat frame))%Z
         (mel_energies !!! mel))
    m.

(** The body of the loop over the frames.  The two local arrays are kept
    from one frame to the next, as in the source. *)
Definition frame_step (audio spectrogram : Z) (frame : nat)
    (s : mem * list R * list R) : mem * list R * list R :=
  let '(m, fft_buffer, mel_energies) := s in
  let fft_buffer := extract_frame m audio frame fft_buffer in
  let fft_buffer := applyHannWindow fft_buffer (Z.to_nat FFT_SIZE) in
  let fft_buffer := computeFFT fft_buffer (Z.to_nat FFT_SIZE) in
  let mel_energies := computeMelFilterbank fft_buffer mel_energies in
  (write_column spectrogram frame mel_energies m, fft_buffer, mel_energies).

(** [normalizeSpectrogram] called on the memory at [spectrogram]: the
    array there is read, normalised and written back. *)
Definition normalize_at (m : mem) (spectrogram : Z) (size : nat) : mem :=
  store_array m spectrogram (normalizeSpectrogram (load_array m spectrogram size) size).

(** The two local arrays are not initialised in the source: what they hold
    when the function is entered is given by [fft_buffer] and
    [mel_energies]. *)
Definition audioToMelSpectrogram (fft_buffer mel_energies : list R)
    (audio spectrogram : Z) (m : mem) : mem :=
  let '(m', _, _) :=
    for_range 0 (Z.to_nat NUM_FRAMES) (frame_step audio spectrogram)
      (m, fft_buffer, mel_energies) in
  normalize_at m' spectrogram (Z.to_nat (NUM_MELS * NUM_FRAMES)).

(** The caller's two arrays do not overlap: [BUFFER_SIZE] floats at [audio],
    [NUM_MELS * NUM_FRAMES] floats at [spectrogram]. *)
Definition separate (audio spectrogram : Z) : Prop :=
  (audio + BUFFER_SIZE <= spectrogram)%Z \/
  (spectrogram + NUM_MELS * NUM_FRAMES <= audio)%Z.

(** The address lies in the output array. *)
Definition in_spectrogram (spectrogram a : Z) : Prop :=
  (spectrogram <= a < spectrogram + NUM_MELS * NUM_FRAMES)%Z.

(** The energies of the mel bands of frame [f] of the audio at [audio]. *)
Definition frame_energies (m : mem) (audio : Z) (f : nat) : list R :=
  let n := Z.to_nat FFT_SIZE in
  computeMelFilterbank
    (computeFFT (applyHannWindow (extract_frame m audio f (replicate n 0)) n) n)
    (replicate (Z.to_nat NUM_MELS) 0).

(** The feature matrix before normalisation, band-major. *)
Definition raw_spectrogram (m : mem) (audio : Z) : list R :=
  map (fun i => frame_energies m audio (i mod Z.to_nat NUM_FRAMES)
                  !!! (i / Z.to_nat NUM_FRAMES)%nat)
    (seq 0 (Z.to_nat (NUM_MELS * NUM_FRAMES))).

(** ** The discrete Fourier transform, as the specification writes it *)

Definition dft_re (x : list R) (N k : nat) : R :=
  Rsum (map (fun n => x !!! n * cos (2 * PI * INR k * INR n / INR N)) (seq 0 N)).
Definition dft_im (x : list R) (N k : nat) : R :=
  Rsum (map (fun n => - (x !!! n * sin (2 * PI * INR k * INR n / INR N))) (seq 0 N)).
Definition dft_magnitude (x : list R) (N k : nat) : R :=
  sqrt (dft_re x N k * dft_re x N k + dft_im x N k * dft_im x N k).

(** The impulse of length [N]: [x[0] = 1], every other sample 0. *)
Definition impulse (N : nat) : list R :=
  map (fun i => if (i =? 0)%nat then 1 else 0) (seq 0 N).

(** The input on which [computeFFT] and the transform part ways: two unit
    samples followed by zeros. *)
Definition two_pulses (N : nat) : list R := 1 :: 1 :: replicate (N - 2) 0.

(** ** Predicates used in the proofs *)

(** Both work arrays of [computeFFT] have [N] elements. *)
Definition fft_lengths (N : nat) (s : fft_state) : Prop :=
  length (real s) = N /\ length (imag s) = N.

(** Both work arrays are zero from position [h] on. *)
Definition vanishes_from (h : nat) (s : fft_state) : Prop :=
  forall i, (h <= i)%nat -> real s !!! i = 0 /\ imag s !!! i = 0.

(** ** main.cpp: the computations of [loop]

    The capture ([i2s_read]), the interpreter and the serial output are
    outside the model; what [loop] computes between them is embedded
    here.  [int16_t] samples are integers of [Z] in the 16-bit range. *)

Definition SPECTROGRAM_SIZE : Z := 1960.

(** An [int] or [int32_t] result, reduced to 32 bits, two's complement. *)
Definition wrap32 (z : Z) : Z := ((z + 2 ^ 31) mod 2 ^ 32 - 2 ^ 31)%Z.

(** The sample is an [int16_t]. *)
Definition int16 (s : Z) : Prop := (- 32768 <= s <= 32767)%Z.

(** Lines 232-242: the diagnostics of the sample buffer. *)
Record audio_diag := {
  max_sample : Z;
  min_sample : Z;
  sample_sum : Z;
  non_zero_count : Z
}.

Definition diag_step (sampleBuffer : list Z) (i : nat) (d : audio_diag) : audio_diag :=
  let s := sampleBuffer !!! i in
  {| max_sample := if (s >? max_sample d)%Z then s else max_sample d;
     min_sample := if (s <? min_sample d)%Z then s else min_sample d;
     sample_sum := wrap32 (sample_sum d + s);
     non_zero_count :=
       if (s =? 0)%Z then non_zero_count d else wrap32 (non_zero_count d + 1) |}.

Definition audio_diagnostics (sampleBuffer : list Z) : audio_diag :=
  for_range 0 (Z.to_nat BUFFER_SIZE) (diag_step sampleBuffer)
    {| max_sample := 0; min_sample := 0; sample_sum := 0; non_zero_count := 0 |}.

(** Line 244. *)
Definition average (d : audio_diag) : R := IZR (sample_sum d) / IZR BUFFER_SIZE.

(** Line 256. *)
Definition data_varies (d : audio_diag) : bool :=
  negb (max_sample d =? min_sample d)%Z && (non_zero_count d >? BUFFER_SIZE / 10)%Z.

(** Lines 269-271: the samples as floats, written to [audioBuffer]. *)
Definition to_audio_buffer (sampleBuffer : list Z) (audioBuffer : list R) : list R :=
  for_range 0 (Z.to_nat BUFFER_SIZE)
    (fun i buf => <[i := IZR (sampleBuffer !!! i) / 32768]> buf) audioBuffer.

(** Lines 277-286: the analysis of the spectrogram. *)
Record spec_diag := {
  min_spec : R;
  max_spec : R;
  spec_sum : R;
  non_zero_spec : Z
}.

Definition spec_step (spectrogram : list R) (i : nat) (d : spec_diag) : spec_diag :=
  let x := spectrogram !!! i in
  {| min_spec := if Rlt_dec x (min_spec d) then x else min_spec d;
     max_spec := if Rgt_dec x (max_spec d) then x else max_spec d;
     spec_sum := spec_sum d + x;
     non_zero_spec :=
       if Rgt_dec x 0.001 then wrap32 (non_zero_spec d + 1) else non_zero_spec d |}.

Definition spec_analysis (spectrogram : list R) : spec_diag :=
  for_range 0 (Z.to_nat SPECTROGRAM_SIZE) (spec_step spectrogram)
    {| min_spec := 1000; max_spec := -1000; spec_sum := 0; non_zero_spec := 0 |}.

(** Lines 316-326: the class with the highest score, among the three. *)
Definition best_score (output : list R) : R * nat :=
  for_range 0 3
    (fun i '(max_score, max_index) =>
       if Rgt_dec (output !!! i) max_score then (output !!! i, i)
       else (max_score, max_index))
    (-1000, 0%nat).

(** Lines 342-348: the three bands of confidence. *)
Inductive confidence := VeryLow | Low | High.

Definition confidence_of (max_score : R) : confidence :=
  if Rlt_dec max_score 0.3 then VeryLow
  else if Rlt_dec max_score 0.6 then Low
  else High.

(** The data path of [loop] from the sample buffer to the input of the
    interpreter: [None] when the function returns at the check of line
    259, otherwise the [SPECTROGRAM_SIZE] floats copied to the input
    tensor (line 300, for an input tensor of type float32).  [audioBuffer]
    and [spectrogram] are the addresses of the two global arrays. *)
Definition loop_features (fft_buffer mel_energies : list R)
    (audioBuffer spectrogram : Z) (sampleBuffer : list Z) (m : mem) : option (list R) :=
  if negb (data_varies (audio_diagnostics sampleBuffer)) then None
  else
    let n := Z.to_nat BUFFER_SIZE in
    let m1 := store_array m audioBuffer
                (to_audio_buffer sampleBuffer (load_array m audioBuffer n)) in
    let m2 := audioToMelSpectrogram fft_buffer mel_energies audioBuffer spectrogram m1 in
    Some (load_array m2 spectrogram (Z.to_nat SPECTROGRAM_SIZE)).

(** ** More predicates used in the proofs *)

(** The second state is the first multiplied by [c], element by element. *)
Definition fft_scaled (c : R) (s s' : fft_state) : Prop :=
  length (real s') = length (real s) /\ length (imag s') = length (imag s) /\
  forall i, real s' !!! i = c * real s !!! i /\ imag s' !!! i = c * imag s !!! i.

Definition list_scaled (c : R) (a a' : list R) : Prop :=
  length a' = length a /\ forall i, a' !!! i = c * a !!! i.

(** The sum of [len] elements of [x] from position [start]. *)
Definition block_sum (x : list R) (start len : nat) : R :=
  Rsum (map (fun i => x !!! i) (seq start len)).

(** The number of samples that are not zero. *)
Definition count_nonzero (l : list Z) : Z :=
  Z.of_nat (length (List.filter (fun s => negb (s =? 0)%Z) l)).

(** The sum of the samples, in [Z]. *)
Definition Zsum (l : list Z) : Z := fold_right Z.add 0%Z l.

(** The memory that holds, at [audioBuffer], the samples as floats. *)
Definition samples_mem (sampleBuffer : list Z) (audioBuffer : Z) : mem :=
  fun a => IZR (sampleBuffer !!! Z.to_nat (a - audioBuffer)) / 32768.

(** The positions of [real] and [imag] that the butterflies of [computeFFT]
    read and write, in the order of the three loops: [k + j] and
    [k + j + m/2]. *)
Definition fft_positions (size : nat) : list nat :=
  flat_map
    (fun stage =>
       let m := (2 ^ stage)%nat in
       flat_map
         (fun b =>
            flat_map (fun j => [(b * m + j)%nat; (b * m + j + m / 2)%nat])
              (seq 0 (m / 2)))
         (seq 0 ((size + m - 1) / m)))
    (seq 1 (Nat.log2 size)).

(** * Proofs *)

#[local] Arguments Nat.div : simpl never.
#[local] Arguments Nat.modulo : simpl never.
#[local] Arguments Nat.pow : simpl never.
#[local] Arguments Nat.mul : simpl never.
#[local] Arguments Z.mul : simpl never.
#[local] Arguments Z.div : simpl never.
#[local] Arguments Z.add : simpl never.
#[local] Arguments Z.sub : simpl never.
#[local] Arguments Z.to_nat : simpl never.
#[local] Arguments Z.of_nat : simpl never.

(** ** Loops and arrays *)

Section Loops.
Context {St : Type}.
Implicit Types (body : nat -> St -> St) (s : St).

Lemma for_range_0 lo body s : for_range lo 0 body s = s.
Proof. reflexivity. Qed.

Lemma for_range_S lo n body s :
  for_range lo (S n) body s = body (lo + n)%nat (for_range lo n body s).
Proof.
  unfold for_range. rewrite seq_S, fold_left_app. reflexivity.
Qed.

Lemma for_range_cons lo n body s :
  for_range lo (S n) body s = for_range (S lo) n body (body lo s).
Proof. reflexivity. Qed.

(** An invariant that the body keeps holds after the loop. *)
Lemma for_range_inv (P : nat -> St -> Prop) lo n body s :
  P 0%nat s ->
  (forall c st, (c < n)%nat -> P c st -> P (S c) (body (lo + c)%nat st)) ->
  P n (for_range lo n body s).
Proof.
  intros H0 Hstep. induction n as [|n IH].
  - exact H0.
  - rewrite for_range_S. apply Hstep; [lia|].
    apply IH. intros c st Hc. apply Hstep. lia.
Qed.
End Loops.

Lemma insert_lookup_total_id (a : list R) (i : nat) : <[i := a !!! i]> a = a.
Proof.
  destruct (decide (i < length a)%nat) as [Hi|Hi].
  - apply list_insert_id. apply list_lookup_lookup_total_lt. exact Hi.
  - apply list_insert_ge. lia.
Qed.

Lemma lookup_total_ge (a : list R) (i : nat) : (length a <= i)%nat -> a !!! i = 0.
Proof.
  intros Hi. rewrite list_lookup_total_alt, (lookup_ge_None_2 a i Hi). reflexivity.
Qed.

Lemma lookup_total_insert_R (a : list R) (i j : nat) (v : R) :
  (i < length a)%nat ->
  <[i := v]> a !!! j = if decide (i = j) then v else a !!! j.
Proof.
  intros Hi. destruct (decide (i = j)) as [->|Hne].
  - apply list_lookup_total_insert_eq. exact Hi.
  - apply list_lookup_total_insert_ne. exact Hne.
Qed.

Lemma list_total_ext (a b : list R) :
  length a = length b -> (forall i, (i < length a)%nat -> a !!! i = b !!! i) -> a = b.
Proof.
  intros Hlen Hext. apply list_eq_same_length with (length a); [symmetry; exact Hlen|reflexivity|].
  intros i x y Hi Ha Hb.
  specialize (Hext i Hi).
  rewrite (list_lookup_total_correct _ _ _ Ha), (list_lookup_total_correct _ _ _ Hb) in Hext.
  exact Hext.
Qed.

Lemma lookup_total_map_seq (f : nat -> R) (n i : nat) :
  (i < n)%nat -> map f (seq 0 n) !!! i = f i.
Proof.
  intros Hi. apply list_lookup_total_correct.
  change (map f (seq 0 n)) with (f <$> seq 0 n).
  rewrite list_lookup_fmap, lookup_seq_lt by exact Hi. reflexivity.
Qed.

Lemma lookup_total_replicate_R (x : R) (n i : nat) :
  (i < n)%nat -> replicate n x !!! i = x.
Proof.
  intros Hi. apply list_lookup_total_correct. apply lookup_replicate_2. exact Hi.
Qed.

(** A loop that writes [f i] to cell [i] for [i < n]. *)
Lemma for_range_fill (f : nat -> list R -> R) (n : nat) (a : list R) :
  (forall i b b', (forall k, (i <= k)%nat -> b !!! k = b' !!! k) -> f i b = f i b') ->
  (n <= length a)%nat ->
  let a' := for_range 0 n (fun i buf => <[i := f i buf]> buf) a in
  length a' = length a /\
  forall i, a' !!! i = if decide (i < n)%nat then f i a else a !!! i.
Proof.
  intros Hloc Hn.
  induction n as [|n IH]; simpl.
  - split; [reflexivity|]. intros i. destruct (decide (i < 0)%nat); [lia|reflexivity].
  - rewrite for_range_S. simpl.
    destruct IH as [IHlen IHval]; [lia|].
    split; [rewrite length_insert; exact IHlen|].
    intros i. rewrite lookup_total_insert_R by lia.
    destruct (decide (n = i)) as [->|Hne].
    + destruct (decide (i < S i)%nat); [|lia].
      apply Hloc. intros k Hk. rewrite IHval.
      destruct (decide (k < i)%nat); [lia|reflexivity].
    + rewrite IHval.
      destruct (decide (i < n)%nat), (decide (i < S n)%nat); try lia; reflexivity.
Qed.

(** ** computeFFT on arrays that vanish beyond the half block *)

(** When the upper element of a butterfly is zero, the butterfly copies the
    lower element onto it, whatever the twiddle factor. *)
Lemma butterfly_zero (m k j : nat) (w_real w_imag : R) (s : fft_state) :
  real s !!! (k + j + m / 2)%nat = 0 ->
  imag s !!! (k + j + m / 2)%nat = 0 ->
  (1 <= m / 2)%nat ->
  butterfly m k j w_real w_imag s =
  {| real := <[(k + j + m / 2)%nat := real s !!! (k + j)%nat]> (real s);
     imag := <[(k + j + m / 2)%nat := imag s !!! (k + j)%nat]> (imag s) |}.
Proof.
  intros Hre Him Hh. unfold butterfly. cbv zeta. rewrite Hre, Him.
  replace (w_real * 0 - w_imag * 0) with 0 by ring.
  replace (w_real * 0 + w_imag * 0) with 0 by ring.
  rewrite !Rminus_0_r, !Rplus_0_r.
  rewrite !insert_lookup_total_id. reflexivity.
Qed.

Lemma fft_inner_copy (N m k : nat) (wm_real wm_imag : R) (s : fft_state) :
  fft_lengths N s -> (1 <= m / 2)%nat -> (k + 2 * (m / 2) <= N)%nat ->
  (forall i, (k + m / 2 <= i < k + 2 * (m / 2))%nat ->
             real s !!! i = 0 /\ imag s !!! i = 0) ->
  let s' := fft_inner m k wm_real wm_imag s in
  fft_lengths N s' /\
  forall i,
    real s' !!! i =
      (if decide (k + m / 2 <= i < k + 2 * (m / 2))%nat
       then real s !!! (i - m / 2)%nat else real s !!! i) /\
    imag s' !!! i =
      (if decide (k + m / 2 <= i < k + 2 * (m / 2))%nat
       then imag s !!! (i - m / 2)%nat else imag s !!! i).
Proof.
  intros [Hlr Hli] Hh Hk Hz. unfold fft_inner. set (h := (m / 2)%nat) in *.
  match goal with |- context [for_range 0 h ?b ?i] => set (body := b); set (init := i) end.
  pose (P := fun (c : nat) (ws : R * R * fft_state) =>
    fft_lengths N (snd ws) /\
    forall i,
      real (snd ws) !!! i =
        (if decide (k + h <= i < k + h + c)%nat
         then real s !!! (i - h)%nat else real s !!! i) /\
      imag (snd ws) !!! i =
        (if decide (k + h <= i < k + h + c)%nat
         then imag s !!! (i - h)%nat else imag s !!! i)).
  assert (HP : P h (for_range 0 h body init)).
  { apply for_range_inv.
    - split; [split; assumption|]. intros i. simpl.
      destruct (decide (k + h <= i < k + h + 0)%nat); [lia|]. split; reflexivity.
    - intros c [[w_real w_imag] st] Hc [[Hlr' Hli'] Hval]. simpl in *.
      destruct (Hval (k + c + h)%nat) as [Hr0 Hi0].
      destruct (decide (k + h <= k + c + h < k + h + c)%nat); [lia|].
      destruct (Hz (k + c + h)%nat) as [Hzr Hzi]; [lia|].
      rewrite Hzr in Hr0. rewrite Hzi in Hi0.
      subst body. cbv beta iota. simpl snd.
      rewrite butterfly_zero by (fold h; assumption). fold h. simpl.
      split; [split; cbn [snd real imag]; rewrite length_insert; assumption|].
      intros i. cbn [snd real imag]. rewrite !lookup_total_insert_R by lia.
      destruct (Hval i) as [Hri Hii]. destruct (Hval (k + c)%nat) as [Hrc Hic].
      destruct (decide (k + h <= k + c < k + h + c)%nat); [lia|].
      destruct (decide (k + c + h = i)%nat) as [<-|Hne].
      + destruct (decide (k + h <= k + c + h < k + h + S c)%nat); [|lia].
        replace (k + c + h - h)%nat with (k + c)%nat by lia.
        split; assumption.
      + rewrite Hri, Hii.
        destruct (decide (k + h <= i < k + h + c)%nat),
                 (decide (k + h <= i < k + h + S c)%nat);
          try lia; split; reflexivity. }
  destruct HP as [Hlen Hval]. split; [exact Hlen|].
  intros i. destruct (Hval i) as [Hri Hii].
  replace (k + 2 * h)%nat with (k + h + h)%nat by lia. split; assumption.
Qed.

(** A block in which both arrays vanish is left as it is. *)
Lemma fft_inner_idle (N m k : nat) (wm_real wm_imag : R) (s : fft_state) :
  fft_lengths N s -> (1 <= m / 2)%nat -> (k + 2 * (m / 2) <= N)%nat ->
  (forall i, (k <= i)%nat -> real s !!! i = 0 /\ imag s !!! i = 0) ->
  fft_inner m k wm_real wm_imag s = s.
Proof.
  intros Hlen Hh Hk Hz.
  destruct (fft_inner_copy N m k wm_real wm_imag s Hlen Hh Hk) as [[Hlr Hli] Hval].
  { intros i Hi. apply Hz. lia. }
  destruct Hlen as [Hlr0 Hli0].
  destruct (fft_inner m k wm_real wm_imag s) as [re im] eqn:E. destruct s as [re0 im0].
  simpl in *. f_equal.
  - apply list_total_ext; [congruence|]. intros i _. destruct (Hval i) as [-> _].
    destruct (decide (k + m / 2 <= i < k + 2 * (m / 2))%nat) as [Hi|]; [|reflexivity].
    destruct (Hz (i - m / 2)%nat) as [-> _]; [lia|].
    destruct (Hz i) as [-> _]; [lia|]. reflexivity.
  - apply list_total_ext; [congruence|]. intros i _. destruct (Hval i) as [_ ->].
    destruct (decide (k + m / 2 <= i < k + 2 * (m / 2))%nat) as [Hi|]; [|reflexivity].
    destruct (Hz (i - m / 2)%nat) as [_ ->]; [lia|].
    destruct (Hz i) as [_ ->]; [lia|]. reflexivity.
Qed.

(** The blocks after the first are idle when the arrays vanish from [m]
    on. *)
Lemma fft_blocks_idle (N m c : nat) (wm_real wm_imag : R) (s : fft_state) :
  fft_lengths N s -> (1 <= m / 2)%nat -> m = (2 * (m / 2))%nat ->
  (S c * m <= N)%nat -> vanishes_from m s ->
  for_range 1 c (fun b st => fft_inner m (b * m) wm_real wm_imag st) s = s.
Proof.
  intros Hlen Hh Hm Hc Hz.
  apply (for_range_inv (fun _ st => st = s)); [reflexivity|].
  intros b st Hb ->. apply (fft_inner_idle N); try assumption.
  - rewrite <- Hm. nia.
  - intros i Hi. apply Hz. nia.
Qed.

Lemma trip_count (c m : nat) : (1 <= m)%nat -> ((c * m + m - 1) / m = c)%nat.
Proof.
  intros Hm. symmetry. apply Nat.div_unique with (m - 1)%nat; lia.
Qed.

(** One stage on arrays that vanish from [m/2] on: the first half block is
    copied onto the second, the rest still vanishes. *)
Lemma fft_blocks_double (m c : nat) (wm_real wm_imag : R) (s : fft_state) :
  let N := (S c * m)%nat in
  fft_lengths N s -> (1 <= m / 2)%nat -> m = (2 * (m / 2))%nat ->
  vanishes_from (m / 2) s ->
  let s' := fft_blocks N m wm_real wm_imag s in
  fft_lengths N s' /\ vanishes_from m s' /\
  forall i, (i < m)%nat ->
    real s' !!! i = real s !!! (i mod (m / 2))%nat /\
    imag s' !!! i = imag s !!! (i mod (m / 2))%nat.
Proof.
  intros N Hlen Hh Hm Hz. unfold fft_blocks.
  replace ((N + m - 1) / m)%nat with (S c) by (symmetry; apply trip_count; lia).
  rewrite for_range_cons. cbv beta. change (0 * m)%nat with 0%nat.
  destruct (fft_inner_copy N m 0 wm_real wm_imag s Hlen Hh) as [Hlen1 Hval1].
  { subst N. lia. }
  { intros i Hi. apply Hz. lia. }
  set (s1 := fft_inner m 0 wm_real wm_imag s) in *.
  assert (Hz1 : vanishes_from m s1).
  { intros i Hi. destruct (Hval1 i) as [-> ->].
    destruct (decide (0 + m / 2 <= i < 0 + 2 * (m / 2))%nat); [lia|]. apply Hz. lia. }
  rewrite (fft_blocks_idle N) by (try assumption; subst N; lia).
  split; [exact Hlen1|]. split; [exact Hz1|].
  intros i Hi. destruct (Hval1 i) as [-> ->].
  destruct (decide (0 + m / 2 <= i < 0 + 2 * (m / 2))%nat) as [Hi2|Hi2].
  - replace (i mod (m / 2))%nat with (i - m / 2)%nat; [split; reflexivity|].
    apply Nat.mod_unique with 1%nat; lia.
  - rewrite Nat.mod_small by lia. split; reflexivity.
Qed.

Lemma mod_mod_mul (a b c : nat) : ((a mod (b * c)) mod b = a mod b)%nat.
Proof.
  rewrite Nat.Div0.mod_mul_r, (Nat.mul_comm b), Nat.Div0.mod_add, Nat.Div0.mod_mod.
  reflexivity.
Qed.

Lemma pow2_half (st : nat) : (2 ^ S st / 2 = 2 ^ st)%nat.
Proof.
  rewrite Nat.pow_succ_r', Nat.mul_comm, Nat.div_mul by lia. reflexivity.
Qed.

Lemma pow2_pos (n : nat) : (1 <= 2 ^ n)%nat.
Proof. pose proof (Nat.pow_nonzero 2 n). lia. Qed.

Lemma pow2_split (n st : nat) :
  (st <= n)%nat -> exists c, (2 ^ n = S c * 2 ^ st)%nat.
Proof.
  intros Hst. exists (2 ^ (n - st) - 1)%nat.
  pose proof (pow2_pos (n - st)).
  replace (S (2 ^ (n - st) - 1)) with (2 ^ (n - st))%nat by lia.
  rewrite <- Nat.pow_add_r. f_equal. lia.
Qed.

Lemma fft_stage_double (n st : nat) (s : fft_state) :
  (st < n)%nat -> fft_lengths (2 ^ n) s -> vanishes_from (2 ^ st) s ->
  let s' := fft_stage (2 ^ n) (S st) s in
  fft_lengths (2 ^ n) s' /\ vanishes_from (2 ^ S st) s' /\
  forall i, (i < 2 ^ S st)%nat ->
    real s' !!! i = real s !!! (i mod 2 ^ st)%nat /\
    imag s' !!! i = imag s !!! (i mod 2 ^ st)%nat.
Proof.
  intros Hst Hlen Hz. unfold fft_stage. cbv zeta.
  destruct (pow2_split n (S st)) as [c Hc]; [lia|].
  rewrite Hc in *. rewrite <- (pow2_half st).
  apply fft_blocks_double.
  - exact Hlen.
  - rewrite pow2_half. apply pow2_pos.
  - rewrite pow2_half, Nat.pow_succ_r'. reflexivity.
  - rewrite pow2_half. exact Hz.
Qed.

(** Stages [p+1 .. p+d] on arrays that vanish from [2^p] on: the first
    [2^p] elements are repeated over the first [2^(p+d)] positions. *)
Lemma fft_stages_periodic (n p d : nat) (s : fft_state) :
  (p + d <= n)%nat -> fft_lengths (2 ^ n) s -> vanishes_from (2 ^ p) s ->
  let s' := for_range (S p) d (fun stage st => fft_stage (2 ^ n) stage st) s in
  fft_lengths (2 ^ n) s' /\ vanishes_from (2 ^ (p + d)) s' /\
  forall i, (i < 2 ^ (p + d))%nat ->
    real s' !!! i = real s !!! (i mod 2 ^ p)%nat /\
    imag s' !!! i = imag s !!! (i mod 2 ^ p)%nat.
Proof.
  intros Hd Hlen Hz. induction d as [|d IH]; cbv zeta.
  - rewrite for_range_0, Nat.add_0_r. split; [exact Hlen|]. split; [exact Hz|].
    intros i Hi. rewrite Nat.mod_small by exact Hi. split; reflexivity.
  - rewrite for_range_S.
    destruct IH as [Hlen' [Hz' Hval']]; [lia|].
    set (sd := for_range (S p) d _ s) in *.
    replace (S p + d)%nat with (S (p + d)) by lia.
    replace (p + S d)%nat with (S (p + d)) by lia.
    destruct (fft_stage_double n (p + d) sd) as [Hlen2 [Hz2 Hval2]];
      [lia|exact Hlen'|exact Hz'|].
    split; [exact Hlen2|]. split; [exact Hz2|].
    intros i Hi. destruct (Hval2 i Hi) as [-> ->].
    assert (Hlt : (i mod 2 ^ (p + d) < 2 ^ (p + d))%nat).
    { apply Nat.mod_upper_bound. pose proof (pow2_pos (p + d)). lia. }
    destruct (Hval' _ Hlt) as [-> ->].
    rewrite Nat.pow_add_r, mod_mod_mul. split; reflexivity.
Qed.

Lemma fft_magnitudes_lookup (buffer : list R) (size : nat) (s : fft_state) (i : nat) :
  (size / 2 <= length buffer)%nat ->
  fft_magnitudes buffer size s !!! i =
    if decide (i < size / 2)%nat
    then sqrt (real s !!! i * real s !!! i + imag s !!! i * imag s !!! i)
    else buffer !!! i.
Proof.
  intros Hlen. unfold fft_magnitudes.
  apply (for_range_fill
           (fun i _ => sqrt (real s !!! i * real s !!! i + imag s !!! i * imag s !!! i)));
    [reflexivity|exact Hlen].
Qed.

(** ** computeFFT on the impulse *)

Lemma fft_init_lengths (buffer : list R) (size : nat) :
  fft_lengths size (fft_init buffer size).
Proof.
  split; simpl.
  - rewrite length_map, length_seq. reflexivity.
  - apply length_replicate.
Qed.

Lemma fft_init_real (buffer : list R) (size i : nat) :
  real (fft_init buffer size) !!! i = if decide (i < size)%nat then buffer !!! i else 0.
Proof.
  simpl. destruct (decide (i < size)%nat) as [Hi|Hi].
  - apply lookup_total_map_seq. exact Hi.
  - apply lookup_total_ge. rewrite length_map, length_seq. lia.
Qed.

Lemma fft_init_imag (buffer : list R) (size i : nat) :
  imag (fft_init buffer size) !!! i = 0.
Proof.
  simpl. destruct (decide (i < size)%nat) as [Hi|Hi].
  - apply lookup_total_replicate_R. exact Hi.
  - apply lookup_total_ge. rewrite length_replicate. lia.
Qed.

Lemma impulse_length (N : nat) : length (impulse N) = N.
Proof. unfold impulse. rewrite length_map, length_seq. reflexivity. Qed.

Lemma impulse_lookup (N i : nat) :
  impulse N !!! i = if decide (i = 0%nat /\ (0 < N)%nat) then 1 else 0.
Proof.
  destruct (decide (i < N)%nat) as [Hi|Hi].
  - unfold impulse. rewrite lookup_total_map_seq by exact Hi.
    destruct i; simpl.
    + destruct (decide (0%nat = 0%nat /\ (0 < N)%nat)); [reflexivity|lia].
    + destruct (decide (S i = 0%nat /\ (0 < N)%nat)); [lia|reflexivity].
  - rewrite lookup_total_ge by (rewrite impulse_length; lia).
    destruct (decide (i = 0%nat /\ (0 < N)%nat)); [lia|reflexivity].
Qed.

Lemma fft_stages_pow2 (n : nat) (s : fft_state) :
  fft_stages (2 ^ n) s =
  for_range 1 n (fun stage st => fft_stage (2 ^ n) stage st) s.
Proof. unfold fft_stages. rewrite Nat.log2_pow2 by lia. reflexivity. Qed.

(** After all the stages the arrays of the impulse hold 1 and 0
    throughout. *)
Lemma fft_stages_impulse (n i : nat) :
  (i < 2 ^ n)%nat ->
  let s := fft_stages (2 ^ n) (fft_init (impulse (2 ^ n)) (2 ^ n)) in
  real s !!! i = 1 /\ imag s !!! i = 0.
Proof.
  intros Hi. cbv zeta. rewrite fft_stages_pow2.
  destruct (fft_stages_periodic n 0 n (fft_init (impulse (2 ^ n)) (2 ^ n)))
    as [_ [_ Hval]].
  - lia.
  - apply fft_init_lengths.
  - intros j Hj. rewrite fft_init_real, fft_init_imag, impulse_lookup.
    change (2 ^ 0)%nat with 1%nat in Hj.
    destruct (decide (j < 2 ^ n)%nat); [|split; reflexivity].
    destruct (decide (j = 0%nat /\ (0 < 2 ^ n)%nat)); [lia|split; reflexivity].
  - destruct (Hval i Hi) as [-> ->].
    change (2 ^ 0)%nat with 1%nat. rewrite Nat.mod_1_r.
    rewrite fft_init_real, fft_init_imag, impulse_lookup.
    pose proof (pow2_pos n).
    destruct (decide (0 < 2 ^ n)%nat); [|lia].
    destruct (decide (0%nat = 0%nat /\ (0 < 2 ^ n)%nat)); [|lia].
    split; reflexivity.
Qed.

(** C2.  For every power of two [N = 2^n], [computeFFT] on the impulse
    ([x[0] = 1], every other sample 0) leaves the same value in each of the
    [N/2] output bins; that value is 1. *)
Theorem computeFFT_impulse_constant (n k1 k2 : nat) :
  (k1 < 2 ^ n / 2)%nat -> (k2 < 2 ^ n / 2)%nat ->
  computeFFT (impulse (2 ^ n)) (2 ^ n) !!! k1 =
    computeFFT (impulse (2 ^ n)) (2 ^ n) !!! k2 /\
  computeFFT (impulse (2 ^ n)) (2 ^ n) !!! k1 = 1.
Proof.
  assert (Hone : forall k, (k < 2 ^ n / 2)%nat ->
                           computeFFT (impulse (2 ^ n)) (2 ^ n) !!! k = 1).
  { intros k Hk. unfold computeFFT.
    assert (Hhalf : (2 ^ n / 2 <= 2 ^ n)%nat) by (apply Nat.Div0.div_le_upper_bound; lia).
    rewrite fft_magnitudes_lookup by (rewrite impulse_length; exact Hhalf).
    destruct (decide (k < 2 ^ n / 2)%nat); [|lia].
    destruct (fft_stages_impulse n k) as [-> ->]; [lia|].
    replace (1 * 1 + 0 * 0) with 1 by ring. apply sqrt_1. }
  intros H1 H2. rewrite (Hone k1 H1), (Hone k2 H2). split; reflexivity.
Qed.

(** The statement at [N = 8], bins 1 and 3. *)
Lemma computeFFT_impulse_constant_witness :
  computeFFT (impulse (2 ^ 3)) (2 ^ 3) !!! 1%nat =
    computeFFT (impulse (2 ^ 3)) (2 ^ 3) !!! 3%nat /\
  computeFFT (impulse (2 ^ 3)) (2 ^ 3) !!! 1%nat = 1.
Proof.
  apply (computeFFT_impulse_constant 3 1 3); vm_compute; lia.
Defined.

(** ** computeFFT against the discrete Fourier transform *)

(** The first stage on arrays that vanish from position 2 on: one butterfly
    with twiddle factor 1 on the elements 0 and 1, nothing else. *)
Lemma fft_stage_first (n : nat) (s : fft_state) :
  (1 <= n)%nat -> fft_lengths (2 ^ n) s -> vanishes_from 2 s ->
  let s' := fft_stage (2 ^ n) 1 s in
  fft_lengths (2 ^ n) s' /\ vanishes_from 2 s' /\
  real s' !!! 0%nat = real s !!! 0%nat + real s !!! 1%nat /\
  real s' !!! 1%nat = real s !!! 0%nat - real s !!! 1%nat /\
  imag s' !!! 0%nat = imag s !!! 0%nat + imag s !!! 1%nat /\
  imag s' !!! 1%nat = imag s !!! 0%nat - imag s !!! 1%nat.
Proof.
  intros Hn [Hlr Hli] Hz. unfold fft_stage. cbv zeta.
  change (2 ^ 1)%nat with 2%nat.
  destruct (pow2_split n 1 Hn) as [c Hc]. change (2 ^ 1)%nat with 2%nat in Hc.
  unfold fft_blocks.
  replace ((2 ^ n + 2 - 1) / 2)%nat with (S c)
    by (rewrite Hc; symmetry; apply trip_count; lia).
  rewrite for_range_cons. cbv beta. change (0 * 2)%nat with 0%nat.
  set (wr := cos (2 * PI / INR 2)). set (wi := - sin (2 * PI / INR 2)).
  assert (Hb : fft_inner 2 0 wr wi s = butterfly 2 0 0 1 0 s) by reflexivity.
  rewrite Hb. clear Hb.
  set (s1 := butterfly 2 0 0 1 0 s).
  assert (Hlen1 : fft_lengths (2 ^ n) s1).
  { split; unfold s1, butterfly; cbn [real imag]; rewrite !length_insert; assumption. }
  assert (Hval : forall i,
    real s1 !!! i =
      (if decide (i = 0%nat) then real s !!! 0%nat + real s !!! 1%nat
       else if decide (i = 1%nat) then real s !!! 0%nat - real s !!! 1%nat
       else real s !!! i) /\
    imag s1 !!! i =
      (if decide (i = 0%nat) then imag s !!! 0%nat + imag s !!! 1%nat
       else if decide (i = 1%nat) then imag s !!! 0%nat - imag s !!! 1%nat
       else imag s !!! i)).
  { intros i. unfold s1, butterfly. cbn [real imag].
    change (0 + 0 + 2 / 2)%nat with 1%nat. change (0 + 0)%nat with 0%nat.
    rewrite !lookup_total_insert_R by (rewrite ?length_insert; lia).
    destruct (decide (0%nat = i)) as [<-|H0].
    - destruct (decide (0%nat = 0%nat)); [|lia].
      destruct (decide (1%nat = 0%nat)); [lia|]. split; ring.
    - destruct (decide (i = 0%nat)); [lia|].
      destruct (decide (1%nat = i)) as [<-|H1].
      + destruct (decide (1%nat = 1%nat)); [|lia]. split; ring.
      + destruct (decide (i = 1%nat)); [lia|]. split; reflexivity. }
  assert (Hz1 : vanishes_from 2 s1).
  { intros i Hi. destruct (Hval i) as [-> ->].
    destruct (decide (i = 0%nat)); [lia|]. destruct (decide (i = 1%nat)); [lia|].
    apply Hz. exact Hi. }
  rewrite (fft_blocks_idle (2 ^ n)); try assumption; try reflexivity; try lia.
  split; [exact Hlen1|]. split; [exact Hz1|].
  destruct (Hval 0%nat) as [-> ->]. destruct (Hval 1%nat) as [-> ->].
  repeat split; reflexivity.
Qed.

Lemma two_pulses_length (N : nat) : (2 <= N)%nat -> length (two_pulses N) = N.
Proof. intros HN. unfold two_pulses. simpl. rewrite length_replicate. lia. Qed.

Lemma two_pulses_lookup (N i : nat) :
  two_pulses N !!! i = if decide (i < 2)%nat then 1 else 0.
Proof.
  unfold two_pulses. destruct i as [|[|i]]; try reflexivity.
  destruct (decide (S (S i) < 2)%nat); [lia|].
  change ((1 :: 1 :: replicate (N - 2) 0) !!! S (S i)) with (replicate (N - 2) 0 !!! i).
  destruct (decide (i < N - 2)%nat).
  - apply lookup_total_replicate_R. assumption.
  - apply lookup_total_ge. rewrite length_replicate. lia.
Qed.

(** What [computeFFT] leaves in bin 1 for the two pulses: nothing. *)
Lemma computeFFT_two_pulses (n : nat) :
  (2 <= n)%nat -> computeFFT (two_pulses (2 ^ n)) (2 ^ n) !!! 1%nat = 0.
Proof.
  intros Hn. unfold computeFFT.
  assert (H4 : (4 <= 2 ^ n)%nat).
  { change 4%nat with (2 ^ 2)%nat. apply Nat.pow_le_mono_r; lia. }
  assert (Hh : (2 <= 2 ^ n / 2)%nat).
  { apply Nat.div_le_lower_bound; lia. }
  rewrite fft_magnitudes_lookup
    by (rewrite two_pulses_length by lia; apply Nat.Div0.div_le_upper_bound; lia).
  destruct (decide (1 < 2 ^ n / 2)%nat); [|lia].
  rewrite fft_stages_pow2.
  set (s0 := fft_init (two_pulses (2 ^ n)) (2 ^ n)).
  destruct n as [|n]; [lia|]. rewrite for_range_cons.
  destruct (fft_stage_first (S n) s0) as [Hlen1 [Hz1 [_ [Hr1 [_ Hi1]]]]].
  { lia. }
  { apply fft_init_lengths. }
  { intros i Hi. unfold s0. rewrite fft_init_real, fft_init_imag, two_pulses_lookup.
    destruct (decide (i < 2)%nat); [lia|].
    destruct (decide (i < 2 ^ S n)%nat); split; reflexivity. }
  set (s1 := fft_stage (2 ^ S n) 1 s0) in *.
  destruct (fft_stages_periodic (S n) 1 n s1) as [_ [_ Hval]]; [lia|exact Hlen1|exact Hz1|].
  destruct (Hval 1%nat) as [-> ->].
  { replace (1 + n)%nat with (S n) by lia. lia. }
  change (1 mod 2 ^ 1)%nat with 1%nat.
  rewrite Hr1, Hi1. unfold s0.
  rewrite !fft_init_real, !fft_init_imag, !two_pulses_lookup.
  destruct (decide (0 < 2 ^ S n)%nat); [|lia].
  destruct (decide (1 < 2 ^ S n)%nat); [|lia].
  destruct (decide (0 < 2)%nat); [|lia]. destruct (decide (1 < 2)%nat); [|lia].
  replace ((1 - 1) * (1 - 1) + (0 - 0) * (0 - 0)) with 0 by ring.
  apply sqrt_0.
Qed.

Lemma Rsum_map_zero {A : Type} (f : A -> R) (l : list A) :
  (forall x, In x l -> f x = 0) -> Rsum (map f l) = 0.
Proof.
  induction l as [|x l IH]; intros Hf; simpl; [reflexivity|].
  rewrite (Hf x) by (left; reflexivity).
  rewrite IH by (intros y Hy; apply Hf; right; exact Hy). ring.
Qed.

(** The real part of bin 1 of the transform of the two pulses. *)
Lemma dft_re_two_pulses (N : nat) :
  (2 <= N)%nat ->
  dft_re (two_pulses N) N 1 = 1 + cos (2 * PI / INR N).
Proof.
  intros HN. unfold dft_re.
  assert (Hseq : seq 0 N = 0%nat :: 1%nat :: seq 2 (N - 2)).
  { replace N with (S (S (N - 2))) at 1 by lia. reflexivity. }
  rewrite Hseq. cbn [map]. unfold Rsum. cbn [fold_right].
  change (fold_right Rplus 0) with Rsum.
  rewrite Rsum_map_zero.
  - rewrite !two_pulses_lookup.
    destruct (decide (0 < 2)%nat); [|lia]. destruct (decide (1 < 2)%nat); [|lia].
    change (INR 0) with 0. change (INR 1) with 1.
    replace (2 * PI * 1 * 0 / INR N) with 0 by (unfold Rdiv; ring).
    replace (2 * PI * 1 * 1 / INR N) with (2 * PI / INR N) by (unfold Rdiv; ring).
    rewrite cos_0. ring.
  - intros i Hi. apply in_seq in Hi. rewrite two_pulses_lookup.
    destruct (decide (i < 2)%nat); [lia|]. ring.
Qed.

Lemma dft_im_two_pulses (N : nat) :
  (2 <= N)%nat ->
  dft_im (two_pulses N) N 1 = - sin (2 * PI / INR N).
Proof.
  intros HN. unfold dft_im.
  assert (Hseq : seq 0 N = 0%nat :: 1%nat :: seq 2 (N - 2)).
  { replace N with (S (S (N - 2))) at 1 by lia. reflexivity. }
  rewrite Hseq. cbn [map]. unfold Rsum. cbn [fold_right].
  change (fold_right Rplus 0) with Rsum.
  rewrite Rsum_map_zero.
  - rewrite !two_pulses_lookup.
    destruct (decide (0 < 2)%nat); [|lia]. destruct (decide (1 < 2)%nat); [|lia].
    change (INR 0) with 0. change (INR 1) with 1.
    replace (2 * PI * 1 * 0 / INR N) with 0 by (unfold Rdiv; ring).
    replace (2 * PI * 1 * 1 / INR N) with (2 * PI / INR N) by (unfold Rdiv; ring).
    rewrite sin_0. ring.
  - intros i Hi. apply in_seq in Hi. rewrite two_pulses_lookup.
    destruct (decide (i < 2)%nat); [lia|]. ring.
Qed.

(** On four points the transform of the two pulses has magnitude [sqrt 2]
    at bin 1, where [computeFFT] leaves 0. *)
Example dft_two_pulses_4 : dft_magnitude [1; 1; 0; 0] 4 1 = sqrt 2.
Proof.
  change [1; 1; 0; 0] with (two_pulses 4). unfold dft_magnitude.
  rewrite (dft_re_two_pulses 4), (dft_im_two_pulses 4) by lia.
  replace (2 * PI / INR 4) with (PI / 2) by (simpl; field).
  rewrite cos_PI2, sin_PI2. f_equal. ring.
Qed.

(** The transform of the impulse has magnitude 1 in every bin. *)
Lemma dft_magnitude_impulse (N k : nat) :
  (1 <= N)%nat -> dft_magnitude (impulse N) N k = 1.
Proof.
  intros HN.
  assert (Hseq : seq 0 N = 0%nat :: seq 1 (N - 1)).
  { replace N with (S (N - 1)) at 1 by lia. reflexivity. }
  assert (Hre : dft_re (impulse N) N k = 1).
  { unfold dft_re. rewrite Hseq. cbn [map]. unfold Rsum. cbn [fold_right].
    change (fold_right Rplus 0) with Rsum. rewrite Rsum_map_zero.
    - rewrite impulse_lookup.
      destruct (decide (0%nat = 0%nat /\ (0 < N)%nat)); [|lia].
      change (INR 0) with 0.
      replace (2 * PI * INR k * 0 / INR N) with 0 by (unfold Rdiv; ring).
      rewrite cos_0. ring.
    - intros i Hi. apply in_seq in Hi. rewrite impulse_lookup.
      destruct (decide (i = 0%nat /\ (0 < N)%nat)); [lia|]. ring. }
  assert (Him : dft_im (impulse N) N k = 0).
  { unfold dft_im. rewrite Hseq. cbn [map]. unfold Rsum. cbn [fold_right].
    change (fold_right Rplus 0) with Rsum. rewrite Rsum_map_zero.
    - rewrite impulse_lookup.
      destruct (decide (0%nat = 0%nat /\ (0 < N)%nat)); [|lia].
      change (INR 0) with 0.
      replace (2 * PI * INR k * 0 / INR N) with 0 by (unfold Rdiv; ring).
      rewrite sin_0. ring.
    - intros i Hi. apply in_seq in Hi. rewrite impulse_lookup.
      destruct (decide (i = 0%nat /\ (0 < N)%nat)); [lia|]. ring. }
  unfold dft_magnitude. rewrite Hre, Him.
  replace (1 * 1 + 0 * 0) with 1 by ring. apply sqrt_1.
Qed.

(** C1.  On the configured size [N = 512], for the input [1, 1, 0, ..., 0],
    [computeFFT] leaves 0 in slot 1 of the buffer, while the magnitude of
    the discrete Fourier transform at bin 1 is strictly positive (it is
    [2 cos (PI/512)]): slot 1 does not hold the transform's magnitude. *)
Theorem computeFFT_differs_from_dft :
  let N := Z.to_nat FFT_SIZE in
  computeFFT (two_pulses N) N !!! 1%nat = 0 /\
  0 < dft_magnitude (two_pulses N) N 1 /\
  computeFFT (two_pulses N) N !!! 1%nat <> dft_magnitude (two_pulses N) N 1.
Proof.
  cbv zeta. change (Z.to_nat FFT_SIZE) with (2 ^ 9)%nat.
  assert (Hcode : computeFFT (two_pulses (2 ^ 9)) (2 ^ 9) !!! 1%nat = 0)
    by (apply computeFFT_two_pulses; lia).
  assert (Hdft : 0 < dft_magnitude (two_pulses (2 ^ 9)) (2 ^ 9) 1).
  { unfold dft_magnitude. apply sqrt_lt_R0.
    rewrite dft_re_two_pulses by (change (2 ^ 9)%nat with 512%nat; lia).
    assert (Hc : 0 < cos (2 * PI / INR (2 ^ 9))).
    { pose proof PI_RGT_0 as Hpi.
      change (2 ^ 9)%nat with 512%nat. replace (INR 512) with 512 by (simpl; lra).
      apply cos_gt_0; lra. }
    set (c := cos (2 * PI / INR (2 ^ 9))) in *.
    set (y := dft_im _ _ _). nra. }
  split; [exact Hcode|]. split; [exact Hdft|]. rewrite Hcode. lra.
Qed.

(** ** computeMelFilterbank *)

Lemma zrange_In (lo hi j : Z) : In j (zrange lo hi) <-> (lo <= j < hi)%Z.
Proof.
  unfold zrange. rewrite in_map_iff. split.
  - intros [i [<- Hi]]. apply in_seq in Hi. lia.
  - intros Hj. exists (Z.to_nat (j - lo)). split; [lia|]. apply in_seq. lia.
Qed.

Lemma zrange_empty (lo hi : Z) : (hi <= lo)%Z -> zrange lo hi = [].
Proof.
  intros H. unfold zrange. replace (Z.to_nat (hi - lo)) with 0%nat by lia. reflexivity.
Qed.

Lemma zrange_app (lo mid hi : Z) :
  (lo <= mid <= hi)%Z -> zrange lo hi = zrange lo mid ++ zrange mid hi.
Proof.
  intros H. unfold zrange.
  replace (Z.to_nat (hi - lo)) with (Z.to_nat (mid - lo) + Z.to_nat (hi - mid))%nat by lia.
  rewrite seq_app, map_app. f_equal.
  rewrite Nat.add_0_l, <- (Nat.add_0_r (Z.to_nat (mid - lo))) at 1.
  rewrite <- (fmap_add_seq (Z.to_nat (mid - lo)) 0).
  change (map ?f (?g <$> ?l)) with (map f (map g l)). rewrite map_map.
  apply map_ext. intros i. lia.
Qed.

(** A guarded accumulation is the sum over the elements that pass the
    guard. *)
Lemma fold_left_guarded_sum {A : Type} (p : A -> bool) (f : A -> R) (l : list A) (a : R) :
  fold_left (fun e j => if p j then e + f j else e) l a =
  a + Rsum (map f (List.filter p l)).
Proof.
  revert a. induction l as [|x l IH]; intros a; simpl.
  - ring.
  - rewrite IH. destruct (p x); simpl; ring.
Qed.

Lemma Rsum_nonneg (l : list R) : (forall x, In x l -> 0 <= x) -> 0 <= Rsum l.
Proof.
  induction l as [|x l IH]; intros H; simpl; [lra|].
  assert (0 <= x) by (apply H; left; reflexivity).
  assert (0 <= Rsum l) by (apply IH; intros y Hy; apply H; right; exact Hy).
  lra.
Qed.

(** The loop over [j] only touches cell [i], where it accumulates. *)
Lemma fold_left_cell (g : Z -> bool) (f : Z -> R) (i : nat) (l : list Z) (me : list R) :
  (i < length me)%nat ->
  let me' := fold_left (fun me j => if g j then <[i := me !!! i + f j]> me else me) l me in
  length me' = length me /\
  me' !!! i = fold_left (fun e j => if g j then e + f j else e) l (me !!! i) /\
  forall k, k <> i -> me' !!! k = me !!! k.
Proof.
  revert me. induction l as [|j l IH]; intros me Hi; cbn [fold_left].
  - repeat split; reflexivity.
  - destruct (g j).
    + destruct (IH (<[i := me !!! i + f j]> me)) as [Hl [Hc Ho]].
      { rewrite length_insert. exact Hi. }
      rewrite length_insert in Hl.
      rewrite list_lookup_total_insert_eq in Hc by exact Hi.
      split; [exact Hl|]. split; [exact Hc|].
      intros k Hk. rewrite Ho by exact Hk. apply list_lookup_total_insert_ne. lia.
    + apply IH. exact Hi.
Qed.

Lemma mel_weight_spec (idx : list Z) (i : nat) (j : Z) :
  mel_weight idx i j =
  weight_spec (idx !!! i) (idx !!! (i + 1)%nat) (idx !!! (i + 2)%nat) j.
Proof. reflexivity. Qed.

Lemma mel_accumulate_cell (idx : list Z) (mags : list R) (i : nat) (me : list R) :
  (i < length me)%nat ->
  let me' := mel_accumulate idx mags i me in
  length me' = length me /\
  me' !!! i =
    band_energy_spec (idx !!! i) (idx !!! (i + 1)%nat) (idx !!! (i + 2)%nat) mags /\
  forall k, k <> i -> me' !!! k = me !!! k.
Proof.
  intros Hi. unfold mel_accumulate, for_z.
  destruct (fold_left_cell (fun j => (j <? FFT_SIZE / 2)%Z)
              (fun j => rdZ mags j * mel_weight idx i j) i
              (zrange (idx !!! i) (idx !!! (i + 2)%nat)) (<[i := 0]> me))
    as [Hl [Hc Ho]].
  { rewrite length_insert. exact Hi. }
  rewrite length_insert in Hl.
  rewrite list_lookup_total_insert_eq in Hc by exact Hi.
  split; [exact Hl|]. split.
  - rewrite Hc, fold_left_guarded_sum. unfold band_energy_spec.
    rewrite Rplus_0_l. reflexivity.
  - intros k Hk. rewrite Ho by exact Hk. apply list_lookup_total_insert_ne. lia.
Qed.

(** After the loop over the filters, cell [i] holds the energy of band
    [i]. *)
Lemma applyMelFilters_lookup (idx : list Z) (mags me : list R) (i : nat) :
  (i < Z.to_nat NUM_MELS)%nat -> (Z.to_nat NUM_MELS <= length me)%nat ->
  applyMelFilters idx mags me !!! i =
  band_energy_spec (idx !!! i) (idx !!! (i + 1)%nat) (idx !!! (i + 2)%nat) mags.
Proof.
  intros Hi Hlen. unfold applyMelFilters.
  set (n := Z.to_nat NUM_MELS) in *.
  assert (HP : let me' := for_range 0 n (mel_accumulate idx mags) me in
               length me' = length me /\
               forall k, (k < n)%nat ->
                 me' !!! k = band_energy_spec (idx !!! k) (idx !!! (k + 1)%nat)
                               (idx !!! (k + 2)%nat) mags).
  { apply (for_range_inv
             (fun c me' => length me' = length me /\
                forall k, (k < c)%nat ->
                  me' !!! k = band_energy_spec (idx !!! k) (idx !!! (k + 1)%nat)
                                (idx !!! (k + 2)%nat) mags)).
    - split; [reflexivity|]. intros k Hk. lia.
    - intros c st Hc [Hl Hv]. rewrite Nat.add_0_l.
      destruct (mel_accumulate_cell idx mags c st) as [Hl' [Hc' Ho']]; [lia|].
      split; [congruence|]. intros k Hk.
      destruct (decide (k = c)) as [->|Hne]; [exact Hc'|].
      rewrite Ho' by exact Hne. apply Hv. lia. }
  destruct HP as [_ Hv]. apply Hv. exact Hi.
Qed.

Lemma mel_accumulate_length (idx : list Z) (mags : list R) (i : nat) (me : list R) :
  length (mel_accumulate idx mags i me) = length me.
Proof.
  unfold mel_accumulate, for_z.
  transitivity (length (<[i := 0]> me)); [|apply length_insert].
  generalize (<[i := 0]> me).
  induction (zrange (idx !!! i) (idx !!! (i + 2)%nat)) as [|j l IH]; intros a; simpl.
  - reflexivity.
  - destruct (j <? FFT_SIZE / 2)%Z; rewrite IH; [apply length_insert|reflexivity].
Qed.

Lemma applyMelFilters_length (idx : list Z) (mags me : list R) :
  length (applyMelFilters idx mags me) = length me.
Proof.
  unfold applyMelFilters.
  apply (for_range_inv (fun _ me' => length me' = length me)); [reflexivity|].
  intros c st _ Hl. rewrite mel_accumulate_length. exact Hl.
Qed.

Lemma rdZ_nonneg (mags : list R) (j : Z) :
  (forall x, In x mags -> 0 <= x) -> 0 <= rdZ mags j.
Proof.
  intros H. unfold rdZ. destruct (j <? 0)%Z; [lra|].
  destruct (decide (Z.to_nat j < length mags)%nat) as [Hj|Hj].
  - apply H. apply list_elem_of_In. apply list_elem_of_lookup_total_2. exact Hj.
  - rewrite lookup_total_ge by lia. lra.
Qed.

(** In the bins that the loop visits, both weights are non-negative. *)
Lemma weight_spec_nonneg (l c r j : Z) : (l <= j < r)%Z -> 0 <= weight_spec l c r j.
Proof.
  intros Hj. unfold weight_spec. destruct (Z.ltb_spec j c) as [Hc|Hc].
  - apply Rmult_le_pos.
    + apply IZR_le. lia.
    + apply Rlt_le, Rinv_0_lt_compat. apply IZR_lt. lia.
  - apply Rmult_le_pos.
    + apply IZR_le. lia.
    + apply Rlt_le, Rinv_0_lt_compat. apply IZR_lt. lia.
Qed.

Lemma band_energy_spec_nonneg (l c r : Z) (mags : list R) :
  (forall x, In x mags -> 0 <= x) -> 0 <= band_energy_spec l c r mags.
Proof.
  intros Hm. unfold band_energy_spec. apply Rsum_nonneg.
  intros x Hx. apply in_map_iff in Hx. destruct Hx as [j [<- Hj]].
  apply filter_In in Hj. destruct Hj as [Hj _]. apply zrange_In in Hj.
  apply Rmult_le_pos; [apply rdZ_nonneg; exact Hm|apply weight_spec_nonneg; exact Hj].
Qed.

(** C4.  For every table of bin indices, every magnitude spectrum and every
    filter [i], the energy that the loops leave in [mel_energies[i]] is the
    sum, over the bins [left <= j < right] with [j < N/2], of
    [magnitude[j] * weight(j)], where [weight(j) = (j-left)/(center-left)]
    for [j < center] and [(right-j)/(right-center)] for [j >= center] (so
    the bin [j = center] takes the falling weight); and for a spectrum of
    non-negative magnitudes this energy is non-negative. *)
Theorem mel_band_energy (idx : list Z) (magnitude mel_energies : list R) (i : nat) :
  (i < Z.to_nat NUM_MELS)%nat ->
  length mel_energies = Z.to_nat NUM_MELS ->
  let left := idx !!! i in
  let center := idx !!! (i + 1)%nat in
  let right := idx !!! (i + 2)%nat in
  let energy := applyMelFilters idx magnitude mel_energies !!! i in
  energy =
    Rsum (map (fun j => rdZ magnitude j *
                        (if (j <? center)%Z
                         then IZR (j - left) / IZR (center - left)
                         else IZR (right - j) / IZR (right - center)))
            (List.filter (fun j => (j <? FFT_SIZE / 2)%Z) (zrange left right))) /\
  mel_weight idx i center = IZR (right - center) / IZR (right - center) /\
  ((forall x, In x magnitude -> 0 <= x) -> 0 <= energy).
Proof.
  intros Hi Hlen. cbv zeta.
  rewrite applyMelFilters_lookup by lia.
  split; [reflexivity|]. split.
  - unfold mel_weight. rewrite Z.ltb_irrefl. reflexivity.
  - apply band_energy_spec_nonneg.
Qed.

(** The statement for filter 0 of the table [2, 4, 6, ...] on a flat
    spectrum. *)
Lemma mel_band_energy_witness :
  let idx := map (fun i => (2 * Z.of_nat i + 2)%Z) (seq 0 42) in
  let energy := applyMelFilters idx (replicate 256 1) (replicate 40 0) !!! 0%nat in
  energy =
    Rsum (map (fun j => rdZ (replicate 256 1) j *
                        (if (j <? 4)%Z
                         then IZR (j - 2) / IZR (4 - 2)
                         else IZR (6 - j) / IZR (6 - 4)))
            (List.filter (fun j => (j <? FFT_SIZE / 2)%Z) (zrange 2 6))) /\
  mel_weight idx 0 4 = IZR (6 - 4) / IZR (6 - 4) /\
  ((forall x, In x (replicate 256 1) -> 0 <= x) -> 0 <= energy).
Proof.
  apply (mel_band_energy (map (fun i => (2 * Z.of_nat i + 2)%Z) (seq 0 42))
           (replicate 256 1) (replicate 40 0) 0); vm_compute; [lia|reflexivity].
Defined.

(** ** No division by zero in the filterbank *)

(** Inside the loop bounds the checked weight is the weight: the branch
    taken has a denominator that is not zero. *)
Lemma mel_weight_checked_some (idx : list Z) (i : nat) (j : Z) :
  (idx !!! i <= j < idx !!! (i + 2)%nat)%Z ->
  mel_weight_checked idx i j = Some (mel_weight idx i j).
Proof.
  intros Hj. unfold mel_weight_checked, mel_weight.
  destruct (Z.ltb_spec j (idx !!! (i + 1)%nat)) as [Hc|Hc].
  - destruct (Z.eqb_spec (idx !!! (i + 1)%nat - idx !!! i) 0); [lia|reflexivity].
  - destruct (Z.eqb_spec (idx !!! (i + 2)%nat - idx !!! (i + 1)%nat) 0); [lia|reflexivity].
Qed.

Lemma fold_left_checked {A St : Type} (body : A -> St -> St)
    (cbody : A -> option St -> option St) (l : list A) (s : St) :
  (forall j st, In j l -> cbody j (Some st) = Some (body j st)) ->
  fold_left (fun acc j => cbody j acc) l (Some s) =
  Some (fold_left (fun acc j => body j acc) l s).
Proof.
  revert s. induction l as [|j l IH]; intros s H; cbn [fold_left]; [reflexivity|].
  rewrite H by (left; reflexivity).
  apply IH. intros k st Hk. apply H. right. exact Hk.
Qed.

Lemma mel_accumulate_checked_some (idx : list Z) (mags : list R) (i : nat) (me : list R) :
  mel_accumulate_checked idx mags i (Some me) = Some (mel_accumulate idx mags i me).
Proof.
  unfold mel_accumulate_checked, mel_accumulate, for_z. cbn [mbind option_bind].
  apply (fold_left_checked
           (fun j me => if (j <? FFT_SIZE / 2)%Z
                        then <[i := me !!! i + rdZ mags j * mel_weight idx i j]> me
                        else me)).
  intros j st Hj. apply zrange_In in Hj. cbn [mbind option_bind].
  destruct (j <? FFT_SIZE / 2)%Z; [|reflexivity].
  rewrite mel_weight_checked_some by exact Hj. reflexivity.
Qed.

Lemma applyMelFilters_checked_some (idx : list Z) (mags me : list R) :
  applyMelFilters_checked idx mags me = Some (applyMelFilters idx mags me).
Proof.
  unfold applyMelFilters_checked, applyMelFilters, for_range.
  apply (fold_left_checked (mel_accumulate idx mags)).
  intros i st _. apply mel_accumulate_checked_some.
Qed.

Lemma Rsum_app (l1 l2 : list R) : Rsum (l1 ++ l2) = Rsum l1 + Rsum l2.
Proof.
  induction l1 as [|x l1 IH]; simpl; [ring|]. rewrite IH. ring.
Qed.

Lemma band_energy_split (l c r : Z) (mags : list R) :
  (l <= c <= r)%Z ->
  band_energy_spec l c r mags = rising_part l c r mags + falling_part l c r mags.
Proof.
  intros H. unfold band_energy_spec, rising_part, falling_part.
  rewrite (zrange_app l c r H), List.filter_app, map_app, Rsum_app. reflexivity.
Qed.

(** C3.  For every table of bin indices in which each filter has
    [left <= center <= right], degenerate triples included, the filterbank
    loops never compute a weight with a zero denominator (the checked loops
    return the result of the loops); the band energy is the contribution of
    the rising bins plus that of the falling bins, and a sub-range of zero
    width contributes zero. *)
Theorem mel_filterbank_no_zero_division (idx : list Z) (fft_mags mel_energies : list R) :
  (forall i, (i < Z.to_nat NUM_MELS)%nat ->
     (idx !!! i <= idx !!! (i + 1)%nat <= idx !!! (i + 2)%nat)%Z) ->
  length mel_energies = Z.to_nat NUM_MELS ->
  applyMelFilters_checked idx fft_mags mel_energies =
    Some (applyMelFilters idx fft_mags mel_energies) /\
  forall i, (i < Z.to_nat NUM_MELS)%nat ->
    let left := idx !!! i in
    let center := idx !!! (i + 1)%nat in
    let right := idx !!! (i + 2)%nat in
    (forall j, (left <= j < right)%Z ->
       if (j <? center)%Z then (center - left)%Z <> 0%Z else (right - center)%Z <> 0%Z) /\
    applyMelFilters idx fft_mags mel_energies !!! i =
      rising_part left center right fft_mags + falling_part left center right fft_mags /\
    (center = left -> rising_part left center right fft_mags = 0) /\
    (right = center -> falling_part left center right fft_mags = 0).
Proof.
  intros Hord Hlen. split; [apply applyMelFilters_checked_some|].
  intros i Hi. cbv zeta. specialize (Hord i Hi). repeat split.
  - intros j Hj. destruct (Z.ltb_spec j (idx !!! (i + 1)%nat)); lia.
  - rewrite applyMelFilters_lookup by lia. apply band_energy_split. exact Hord.
  - intros Heq. unfold rising_part. rewrite zrange_empty by lia. reflexivity.
  - intros Heq. unfold falling_part. rewrite zrange_empty by lia. reflexivity.
Qed.

(** The statement on a table in which every filter is degenerate, on the
    right and on the left in turn: 3, 5, 5, 7, 7, 9, 9, ... *)
Lemma mel_filterbank_no_zero_division_witness :
  let idx := map (fun i => (2 * Z.of_nat ((i + 1) / 2) + 3)%Z) (seq 0 42) in
  let mags := replicate 256 1 in
  let me := replicate 40 0 in
  applyMelFilters_checked idx mags me = Some (applyMelFilters idx mags me) /\
  forall i, (i < Z.to_nat NUM_MELS)%nat ->
    let left := idx !!! i in
    let center := idx !!! (i + 1)%nat in
    let right := idx !!! (i + 2)%nat in
    (forall j, (left <= j < right)%Z ->
       if (j <? center)%Z then (center - left)%Z <> 0%Z else (right - center)%Z <> 0%Z) /\
    applyMelFilters idx mags me !!! i =
      rising_part left center right mags + falling_part left center right mags /\
    (center = left -> rising_part left center right mags = 0) /\
    (right = center -> falling_part left center right mags = 0).
Proof.
  apply (mel_filterbank_no_zero_division
           (map (fun i => (2 * Z.of_nat ((i + 1) / 2) + 3)%Z) (seq 0 42))
           (replicate 256 1) (replicate 40 0)).
  - intros i Hi.
    assert (Hi' : (i < 40)%nat) by (vm_compute in Hi; lia).
    do 40 (destruct i as [|i]; [vm_compute; split; discriminate|]). lia.
  - reflexivity.
Defined.

(** ** normalizeSpectrogram *)

(** What the scan for the maximum returns: a bound of the first [size]
    elements that is 0 or one of them. *)
Lemma max_scan_spec (a : list R) (size : nat) :
  let mx := max_scan a size in
  0 <= mx /\
  (forall i, (i < size)%nat -> a !!! i <= mx) /\
  (mx = 0 \/ exists i, (i < size)%nat /\ a !!! i = mx).
Proof.
  unfold max_scan.
  apply (for_range_inv
           (fun c mx => 0 <= mx /\ (forall i, (i < c)%nat -> a !!! i <= mx) /\
                        (mx = 0 \/ exists i, (i < c)%nat /\ a !!! i = mx))).
  - split; [lra|]. split; [intros i Hi; lia|]. left. reflexivity.
  - intros c mx Hc [H0 [Hub Hat]]. rewrite Nat.add_0_l.
    destruct (Rgt_dec (a !!! c) mx) as [Hgt|Hle].
    + split; [lra|]. split.
      * intros i Hi. destruct (decide (i = c)) as [->|Hne]; [lra|].
        assert (a !!! i <= mx) by (apply Hub; lia). lra.
      * right. exists c. split; [lia|reflexivity].
    + split; [exact H0|]. split.
      * intros i Hi. destruct (decide (i = c)) as [->|Hne]; [lra|]. apply Hub. lia.
      * destruct Hat as [Hz|[i [Hi Hv]]]; [left; exact Hz|].
        right. exists i. split; [lia|exact Hv].
Qed.

(** The scan only reads the first [size] elements. *)
Lemma max_scan_ext (a b : list R) (size : nat) :
  (forall i, (i < size)%nat -> a !!! i = b !!! i) -> max_scan a size = max_scan b size.
Proof.
  intros H. unfold max_scan. induction size as [|n IH]; [reflexivity|].
  rewrite !for_range_S, Nat.add_0_l, IH by (intros i Hi; apply H; lia).
  rewrite (H n) by lia. reflexivity.
Qed.

Lemma max_scan_unique (a : list R) (size : nat) (v : R) :
  (forall i, (i < size)%nat -> a !!! i <= v) ->
  (exists i, (i < size)%nat /\ a !!! i = v) ->
  0 < v -> max_scan a size = v.
Proof.
  intros Hub [i [Hi Hv]] Hpos.
  destruct (max_scan_spec a size) as [H0 [Hub' Hat]].
  specialize (Hub' i Hi). rewrite Hv in Hub'.
  destruct Hat as [Hz|[k [Hk Hk']]]; [lra|].
  specialize (Hub k Hk). lra.
Qed.

(** The division loop, with any divisor. *)
Lemma divide_all_lookup (a : list R) (size : nat) (d : R) :
  (size <= length a)%nat ->
  let a' := for_range 0 size (fun i sp => <[i := sp !!! i / d]> sp) a in
  length a' = length a /\
  forall i, a' !!! i = if decide (i < size)%nat then a !!! i / d else a !!! i.
Proof.
  intros Hs. apply (for_range_fill (fun i buf => buf !!! i / d)); [|exact Hs].
  intros i b b' Hb. rewrite (Hb i) by lia. reflexivity.
Qed.

Lemma normalizeSpectrogram_pos (a : list R) (size : nat) :
  (size <= length a)%nat -> 0 < max_scan a size ->
  length (normalizeSpectrogram a size) = length a /\
  forall i, normalizeSpectrogram a size !!! i =
            if decide (i < size)%nat then a !!! i / max_scan a size else a !!! i.
Proof.
  intros Hs Hpos. unfold normalizeSpectrogram. cbv zeta.
  destruct (Rgt_dec (max_scan a size) 0) as [_|Hn]; [|lra].
  apply divide_all_lookup. exact Hs.
Qed.

Lemma normalizeSpectrogram_zero (a : list R) (size : nat) :
  max_scan a size = 0 -> normalizeSpectrogram a size = a.
Proof.
  intros Hz. unfold normalizeSpectrogram. cbv zeta. rewrite Hz.
  destruct (Rgt_dec 0 0) as [H|_]; [lra|reflexivity].
Qed.

Lemma In_lookup_total (a : list R) (x : R) :
  In x a <-> exists i, (i < length a)%nat /\ a !!! i = x.
Proof.
  rewrite <- list_elem_of_In, list_elem_of_lookup. split.
  - intros [i Hi]. exists i. split; [eapply lookup_lt_Some; exact Hi|].
    apply list_lookup_total_correct. exact Hi.
  - intros [i [Hi <-]]. exists i. apply list_lookup_lookup_total_lt. exact Hi.
Qed.

(** After a normalisation by a positive maximum the maximum is 1. *)
Lemma max_scan_normalized (a : list R) :
  0 < max_scan a (length a) ->
  max_scan (normalizeSpectrogram a (length a)) (length a) = 1.
Proof.
  intros Hpos.
  destruct (max_scan_spec a (length a)) as [_ [Hub Hat]].
  destruct (normalizeSpectrogram_pos a (length a)) as [_ Hval]; [lia|exact Hpos|].
  set (mx := max_scan a (length a)) in *.
  apply max_scan_unique; [| |lra].
  - intros i Hi. rewrite Hval. destruct (decide (i < length a)%nat); [|lia].
    specialize (Hub i Hi). apply (Rmult_le_reg_r mx); [exact Hpos|].
    unfold Rdiv. rewrite Rmult_assoc, Rinv_l by lra. lra.
  - destruct Hat as [Hz|[i [Hi Hv]]]; [lra|].
    exists i. split; [exact Hi|]. rewrite Hval.
    destruct (decide (i < length a)%nat); [|lia].
    rewrite Hv. unfold Rdiv. apply Rinv_r. lra.
Qed.

(** C5.  For every matrix of [M*F] non-negative values (and for every
    other size), [normalizeSpectrogram] finds the maximum element; when
    that maximum is strictly positive every element is divided by it, so
    that every element of the result lies in [0, 1] and the maximum of the
    result is exactly 1; when the maximum is zero the matrix is left as it
    is. *)
Theorem normalizeSpectrogram_spec (spectrogram : list R) (size : nat) :
  length spectrogram = size -> (1 <= size)%nat ->
  (forall x, In x spectrogram -> 0 <= x) ->
  let max_val := max_scan spectrogram size in
  let out := normalizeSpectrogram spectrogram size in
  (In max_val spectrogram /\ forall x, In x spectrogram -> x <= max_val) /\
  (0 < max_val ->
     length out = size /\
     (forall i, (i < size)%nat -> out !!! i = spectrogram !!! i / max_val) /\
     (forall x, In x out -> 0 <= x <= 1) /\
     In 1 out) /\
  (max_val = 0 -> out = spectrogram).
Proof.
  intros Hlen Hsize Hnn. cbv zeta. subst size.
  destruct (max_scan_spec spectrogram (length spectrogram)) as [H0 [Hub Hat]].
  set (mx := max_scan spectrogram (length spectrogram)) in *.
  assert (Hle : forall x, In x spectrogram -> x <= mx).
  { intros x Hx. apply In_lookup_total in Hx. destruct Hx as [i [Hi <-]].
    apply Hub. exact Hi. }
  split; [split; [|exact Hle]|split].
  - destruct Hat as [Hz|[i [Hi Hv]]].
    + apply In_lookup_total. exists 0%nat. split; [lia|].
      assert (Hx : In (spectrogram !!! 0%nat) spectrogram).
      { apply In_lookup_total. exists 0%nat. split; [lia|reflexivity]. }
      pose proof (Hnn _ Hx). pose proof (Hle _ Hx). lra.
    + apply In_lookup_total. exists i. split; assumption.
  - intros Hpos.
    destruct (normalizeSpectrogram_pos spectrogram (length spectrogram))
      as [Hl Hval]; [lia|exact Hpos|].
    fold mx in Hval.
    split; [exact Hl|]. split; [|split].
    + intros i Hi. rewrite Hval. destruct (decide (i < length spectrogram)%nat); [|lia].
      reflexivity.
    + intros x Hx. apply In_lookup_total in Hx. destruct Hx as [i [Hi <-]].
      rewrite Hl in Hi. rewrite Hval.
      destruct (decide (i < length spectrogram)%nat); [|lia].
      assert (Hx : In (spectrogram !!! i) spectrogram).
      { apply In_lookup_total. exists i. split; [exact Hi|reflexivity]. }
      pose proof (Hnn _ Hx) as Hge. pose proof (Hle _ Hx) as Hub'.
      assert (Hinv : 0 < / mx) by (apply Rinv_0_lt_compat; exact Hpos).
      split.
      * unfold Rdiv. apply Rmult_le_pos; lra.
      * apply (Rmult_le_reg_r mx); [exact Hpos|].
        unfold Rdiv. rewrite Rmult_assoc, Rinv_l by lra. lra.
    + destruct Hat as [Hz|[i [Hi Hv]]]; [lra|].
      apply In_lookup_total. exists i. split; [rewrite Hl; exact Hi|].
      rewrite Hval. destruct (decide (i < length spectrogram)%nat); [|lia].
      rewrite Hv. unfold Rdiv. apply Rinv_r. lra.
  - apply normalizeSpectrogram_zero.
Qed.

(** The statement on a matrix of [M*F] values, all equal to 2. *)
Lemma normalizeSpectrogram_spec_witness :
  let size := Z.to_nat (NUM_MELS * NUM_FRAMES) in
  let spectrogram := replicate size 2 in
  let max_val := max_scan spectrogram size in
  let out := normalizeSpectrogram spectrogram size in
  (In max_val spectrogram /\ forall x, In x spectrogram -> x <= max_val) /\
  (0 < max_val ->
     length out = size /\
     (forall i, (i < size)%nat -> out !!! i = spectrogram !!! i / max_val) /\
     (forall x, In x out -> 0 <= x <= 1) /\
     In 1 out) /\
  (max_val = 0 -> out = spectrogram).
Proof.
  apply (normalizeSpectrogram_spec
           (replicate (Z.to_nat (NUM_MELS * NUM_FRAMES)) 2)
           (Z.to_nat (NUM_MELS * NUM_FRAMES))).
  - apply length_replicate.
  - vm_compute. lia.
  - intros x Hx. apply list_elem_of_In, elem_of_replicate in Hx.
    destruct Hx as [-> _]. lra.
Defined.

(** C6.  [normalizeSpectrogram] is idempotent: a second application returns
    the matrix that the first returned, because the maximum after the first
    application is 1 or 0. *)
Theorem normalizeSpectrogram_idempotent (spectrogram : list R) :
  let size := length spectrogram in
  let once := normalizeSpectrogram spectrogram size in
  normalizeSpectrogram once size = once /\
  (max_scan once size = 1 \/ max_scan once size = 0).
Proof.
  cbv zeta.
  destruct (max_scan_spec spectrogram (length spectrogram)) as [H0 _].
  destruct (Rle_lt_or_eq_dec _ _ H0) as [Hpos|Hz].
  - pose proof (max_scan_normalized spectrogram Hpos) as H1.
    destruct (normalizeSpectrogram_pos spectrogram (length spectrogram))
      as [Hl Hval]; [lia|exact Hpos|].
    split; [|left; exact H1].
    set (once := normalizeSpectrogram spectrogram (length spectrogram)) in *.
    destruct (normalizeSpectrogram_pos once (length spectrogram)) as [Hl2 Hval2];
      [lia|rewrite H1; lra|].
    apply list_total_ext; [exact Hl2|].
    intros i _. rewrite Hval2, H1.
    destruct (decide (i < length spectrogram)%nat); [|reflexivity].
    unfold Rdiv. rewrite Rinv_1, Rmult_1_r. reflexivity.
  - symmetry in Hz. rewrite (normalizeSpectrogram_zero _ _ Hz).
    split; [apply normalizeSpectrogram_zero; exact Hz|right; exact Hz].
Qed.

(** ** The bin indices of the filterbank *)

Lemma Int_part_le (x y : R) : x <= y -> (Int_part x <= Int_part y)%Z.
Proof.
  intros Hxy.
  destruct (base_Int_part x) as [Hx _]. destruct (base_Int_part y) as [_ Hy].
  assert (H : (Int_part x < Int_part y + 1)%Z).
  { apply lt_IZR. rewrite plus_IZR. lra. }
  lia.
Qed.

Lemma Int_part_nonneg (x : R) : 0 <= x -> (0 <= Int_part x)%Z.
Proof.
  intros Hx. replace 0%Z with (Int_part 0).
  - apply Int_part_le. exact Hx.
  - symmetry. apply Int_part_spec. simpl. lra.
Qed.

Lemma roundf_le (x y : R) : x <= y -> (roundf x <= roundf y)%Z.
Proof.
  intros Hxy. unfold roundf.
  destruct (Rle_dec 0 x) as [Hx|Hx], (Rle_dec 0 y) as [Hy|Hy].
  - apply Int_part_le. lra.
  - lra.
  - assert (0 <= Int_part (- x + / 2))%Z by (apply Int_part_nonneg; lra).
    assert (0 <= Int_part (y + / 2))%Z by (apply Int_part_nonneg; lra).
    lia.
  - assert (Int_part (- y + / 2) <= Int_part (- x + / 2))%Z
      by (apply Int_part_le; lra).
    lia.
Qed.

Lemma ln_10_pos : 0 < ln 10.
Proof. rewrite <- ln_1. apply ln_increasing; lra. Qed.

Lemma melToHz_le (a b : R) : a <= b -> melToHz a <= melToHz b.
Proof.
  intros Hab. unfold melToHz, powf.
  assert (Rpower 10 (a / 2595) <= Rpower 10 (b / 2595)).
  { apply Rle_Rpower; [lra|]. unfold Rdiv. apply Rmult_le_compat_r; lra. }
  lra.
Qed.

Lemma mel_step_nonneg : 0 <= mel_step.
Proof.
  unfold mel_step, mel_max, mel_min, hzToMel, log10f.
  change (IZR MIN_FREQ) with 20. change (IZR MAX_FREQ) with 8000.
  change (IZR (NUM_MELS + 1)) with 41.
  pose proof ln_10_pos as H10.
  assert (Hln : ln (1 + 20 / 700) < ln (1 + 8000 / 700)) by (apply ln_increasing; lra).
  assert (Hinv : 0 < / ln 10) by (apply Rinv_0_lt_compat; exact H10).
  unfold Rdiv. apply Rmult_le_pos; [|lra].
  rewrite <- Rmult_minus_distr_l. apply Rmult_le_pos; [lra|].
  rewrite <- Rmult_minus_distr_r. apply Rmult_le_pos; lra.
Qed.

Lemma fft_indices_length : length fft_indices = Z.to_nat (NUM_MELS + 2).
Proof.
  unfold fft_indices, freq_points, mel_points.
  rewrite !length_map, length_seq. reflexivity.
Qed.

Lemma fft_indices_lookup (i : nat) :
  (i < Z.to_nat (NUM_MELS + 2))%nat ->
  fft_indices !!! i =
  roundf (melToHz (mel_min + INR i * mel_step) * IZR FFT_SIZE / IZR SAMPLE_RATE).
Proof.
  intros Hi. unfold fft_indices, freq_points, mel_points.
  rewrite !map_map. apply list_lookup_total_correct.
  change (map ?f ?l) with (f <$> l).
  rewrite list_lookup_fmap, lookup_seq_lt by exact Hi. reflexivity.
Qed.

(** C9.  Under the default configuration (sample rate 16000, N = 512,
    M = 40, 20 Hz to 8000 Hz) the M+2 bin indices are non-decreasing, so
    that every filter has [leftBin <= centerBin <= rightBin]. *)
Theorem fft_indices_monotone (i j : nat) :
  (i <= j)%nat -> (j < Z.to_nat (NUM_MELS + 2))%nat ->
  (fft_indices !!! i <= fft_indices !!! j)%Z /\
  ((i < Z.to_nat NUM_MELS)%nat ->
   (fft_indices !!! i <= fft_indices !!! (i + 1)%nat <= fft_indices !!! (i + 2)%nat)%Z).
Proof.
  assert (Hmono : forall a b, (a <= b)%nat -> (b < Z.to_nat (NUM_MELS + 2))%nat ->
                              (fft_indices !!! a <= fft_indices !!! b)%Z).
  { intros a b Hab Hb. rewrite !fft_indices_lookup by lia.
    apply roundf_le.
    change (IZR FFT_SIZE) with 512. change (IZR SAMPLE_RATE) with 16000.
    assert (Hm : melToHz (mel_min + INR a * mel_step)
                 <= melToHz (mel_min + INR b * mel_step)).
    { apply melToHz_le. apply Rplus_le_compat_l.
      apply Rmult_le_compat_r; [apply mel_step_nonneg|]. apply le_INR. exact Hab. }
    lra. }
  intros Hij Hj. split; [apply Hmono; assumption|].
  intros Hi. unfold NUM_MELS in *. split; apply Hmono; lia.
Qed.

(** The statement for the last filter, 39, and the last point, 41. *)
Lemma fft_indices_monotone_witness :
  (fft_indices !!! 39%nat <= fft_indices !!! 41%nat)%Z /\
  ((39 < Z.to_nat NUM_MELS)%nat ->
   (fft_indices !!! 39%nat <= fft_indices !!! (39 + 1)%nat
    <= fft_indices !!! (39 + 2)%nat)%Z).
Proof.
  apply (fft_indices_monotone 39 41); vm_compute; lia.
Defined.

(** ** Frame extraction *)

Lemma extract_frame_lookup (m : mem) (audio : Z) (frame : nat) (buf : list R) (i : nat) :
  (Z.to_nat FFT_SIZE <= length buf)%nat ->
  extract_frame m audio frame buf !!! i =
    if decide (i < Z.to_nat FFT_SIZE)%nat
    then let idx := (Z.of_nat frame * HOP_LENGTH + Z.of_nat i)%Z in
         if (idx <? BUFFER_SIZE)%Z then m (audio + idx)%Z else 0
    else buf !!! i.
Proof.
  intros Hlen. unfold extract_frame.
  apply (for_range_fill
           (fun i _ => let idx := (Z.of_nat frame * HOP_LENGTH + Z.of_nat i)%Z in
                       if (idx <? BUFFER_SIZE)%Z then m (audio + idx)%Z else 0));
    [reflexivity|exact Hlen].
Qed.

Lemma extract_frame_length (m : mem) (audio : Z) (frame : nat) (buf : list R) :
  (Z.to_nat FFT_SIZE <= length buf)%nat ->
  length (extract_frame m audio frame buf) = length buf.
Proof.
  intros Hlen. unfold extract_frame.
  apply (for_range_fill
           (fun i _ => let idx := (Z.of_nat frame * HOP_LENGTH + Z.of_nat i)%Z in
                       if (idx <? BUFFER_SIZE)%Z then m (audio + idx)%Z else 0));
    [reflexivity|exact Hlen].
Qed.

(** C8.  Frame extraction is total and in bounds.  For every frame index,
    sample [i] of the extracted frame is [audio[f*H + i]] when
    [f*H + i < BUFFER_SIZE] and 0 otherwise.  With the configured sizes,
    where [BUFFER_SIZE = F*H + N], every index read for a frame [f < F]
    and [i < N] lies in [0, BUFFER_SIZE): the zero-fill branch is not taken
    and nothing is read outside the buffer. *)
Theorem extract_frame_in_bounds (m : mem) (audio : Z) (f : nat) (fft_buffer : list R)
    (i : nat) :
  length fft_buffer = Z.to_nat FFT_SIZE -> (i < Z.to_nat FFT_SIZE)%nat ->
  let idx := (Z.of_nat f * HOP_LENGTH + Z.of_nat i)%Z in
  let frame := extract_frame m audio f fft_buffer in
  length frame = Z.to_nat FFT_SIZE /\
  frame !!! i = (if (idx <? BUFFER_SIZE)%Z then m (audio + idx)%Z else 0) /\
  BUFFER_SIZE = (NUM_FRAMES * HOP_LENGTH + FFT_SIZE)%Z /\
  ((f < Z.to_nat NUM_FRAMES)%nat ->
     (0 <= idx < BUFFER_SIZE)%Z /\ frame !!! i = m (audio + idx)%Z).
Proof.
  intros Hlen Hi. cbv zeta.
  split; [rewrite extract_frame_length by lia; exact Hlen|].
  assert (Hval : extract_frame m audio f fft_buffer !!! i =
                 if (Z.of_nat f * HOP_LENGTH + Z.of_nat i <? BUFFER_SIZE)%Z
                 then m (audio + (Z.of_nat f * HOP_LENGTH + Z.of_nat i))%Z else 0).
  { rewrite extract_frame_lookup by lia.
    destruct (decide (i < Z.to_nat FFT_SIZE)%nat); [reflexivity|lia]. }
  split; [exact Hval|]. split; [reflexivity|].
  intros Hf.
  assert (Hb : (0 <= Z.of_nat f * HOP_LENGTH + Z.of_nat i < BUFFER_SIZE)%Z).
  { unfold BUFFER_SIZE, NUM_FRAMES, HOP_LENGTH, FFT_SIZE in *. lia. }
  split; [exact Hb|]. rewrite Hval.
  destruct (Z.ltb_spec (Z.of_nat f * HOP_LENGTH + Z.of_nat i) BUFFER_SIZE); [reflexivity|lia].
Qed.

(** The statement for the last sample of the last frame, with the audio at
    address 0 of a memory that holds [a] at address [a]. *)
Lemma extract_frame_in_bounds_witness :
  let m : mem := IZR in
  let fft_buffer := replicate (Z.to_nat FFT_SIZE) 0 in
  let idx := (Z.of_nat 48 * HOP_LENGTH + Z.of_nat 511)%Z in
  let frame := extract_frame m 0 48 fft_buffer in
  length frame = Z.to_nat FFT_SIZE /\
  frame !!! 511%nat = (if (idx <? BUFFER_SIZE)%Z then m (0 + idx)%Z else 0) /\
  BUFFER_SIZE = (NUM_FRAMES * HOP_LENGTH + FFT_SIZE)%Z /\
  ((48 < Z.to_nat NUM_FRAMES)%nat ->
     (0 <= idx < BUFFER_SIZE)%Z /\ frame !!! 511%nat = m (0 + idx)%Z).
Proof.
  apply (extract_frame_in_bounds IZR 0 48 (replicate (Z.to_nat FFT_SIZE) 0) 511).
  - apply length_replicate.
  - unfold FFT_SIZE. lia.
Defined.

(** ** The frame loop and the memory *)

Lemma store_eq (m : mem) (a : Z) (v : R) : store m a v a = v.
Proof. unfold store. rewrite Z.eqb_refl. reflexivity. Qed.

Lemma store_ne (m : mem) (a b : Z) (v : R) : b <> a -> store m a v b = m b.
Proof.
  intros H. unfold store. destruct (Z.eqb_spec b a); [contradiction|reflexivity].
Qed.

Lemma applyHannWindow_length (buffer : list R) (size : nat) :
  (size <= length buffer)%nat -> length (applyHannWindow buffer size) = length buffer.
Proof.
  intros H. unfold applyHannWindow.
  apply (for_range_fill (fun i buf => buf !!! i * hann size i)); [|exact H].
  intros i b b' Hb. rewrite (Hb i) by lia. reflexivity.
Qed.

Lemma computeFFT_length (buffer : list R) (size : nat) :
  (size <= length buffer)%nat -> length (computeFFT buffer size) = length buffer.
Proof.
  intros H. unfold computeFFT, fft_magnitudes.
  set (s := fft_stages size (fft_init buffer size)).
  apply (for_range_fill
           (fun i _ => sqrt (real s !!! i * real s !!! i + imag s !!! i * imag s !!! i)));
    [reflexivity|].
  pose proof (Nat.Div0.div_le_upper_bound size 2 size). lia.
Qed.

(** The frame copied into the local buffer does not depend on what the
    buffer held. *)
Lemma extract_frame_fresh (m : mem) (audio : Z) (frame : nat) (buf buf' : list R) :
  length buf = Z.to_nat FFT_SIZE -> length buf' = Z.to_nat FFT_SIZE ->
  extract_frame m audio frame buf = extract_frame m audio frame buf'.
Proof.
  intros H H'. apply list_total_ext.
  - rewrite !extract_frame_length by lia. congruence.
  - intros i Hi. rewrite extract_frame_length in Hi by lia.
    rewrite !extract_frame_lookup by lia.
    destruct (decide (i < Z.to_nat FFT_SIZE)%nat); [reflexivity|lia].
Qed.

(** The frame only reads the audio array. *)
Lemma extract_frame_ext (m m' : mem) (audio : Z) (frame : nat) (buf : list R) :
  length buf = Z.to_nat FFT_SIZE ->
  (forall idx, (0 <= idx < BUFFER_SIZE)%Z -> m (audio + idx)%Z = m' (audio + idx)%Z) ->
  extract_frame m audio frame buf = extract_frame m' audio frame buf.
Proof.
  intros H Hm. apply list_total_ext.
  - rewrite !extract_frame_length by lia. reflexivity.
  - intros i Hi. rewrite !extract_frame_lookup by lia.
    destruct (decide (i < Z.to_nat FFT_SIZE)%nat); [|reflexivity]. cbv zeta.
    destruct (Z.ltb_spec (Z.of_nat frame * HOP_LENGTH + Z.of_nat i) BUFFER_SIZE);
      [|reflexivity].
    apply Hm. unfold HOP_LENGTH in *. lia.
Qed.

(** The energies do not depend on what the local array held. *)
Lemma computeMelFilterbank_fresh (mags me me' : list R) :
  length me = Z.to_nat NUM_MELS -> length me' = Z.to_nat NUM_MELS ->
  computeMelFilterbank mags me = computeMelFilterbank mags me'.
Proof.
  intros H H'. unfold computeMelFilterbank. apply list_total_ext.
  - rewrite !applyMelFilters_length. congruence.
  - intros i Hi. rewrite applyMelFilters_length in Hi.
    rewrite !applyMelFilters_lookup by lia. reflexivity.
Qed.

(** The column of one frame: cell [mel * NUM_FRAMES + frame] for each
    band. *)
Lemma write_column_spec (spectrogram : Z) (frame : nat) (me : list R) (m : mem) :
  let m' := write_column spectrogram frame me m in
  (forall mel, (mel < Z.to_nat NUM_MELS)%nat ->
     m' (spectrogram + (Z.of_nat mel * NUM_FRAMES + Z.of_nat frame))%Z = me !!! mel) /\
  (forall a, (forall mel, (mel < Z.to_nat NUM_MELS)%nat ->
                a <> (spectrogram + (Z.of_nat mel * NUM_FRAMES + Z.of_nat frame))%Z) ->
     m' a = m a).
Proof.
  unfold write_column.
  apply (for_range_inv
    (fun c m' =>
       (forall mel, (mel < c)%nat ->
          m' (spectrogram + (Z.of_nat mel * NUM_FRAMES + Z.of_nat frame))%Z = me !!! mel) /\
       (forall a, (forall mel, (mel < c)%nat ->
                     a <> (spectrogram + (Z.of_nat mel * NUM_FRAMES + Z.of_nat frame))%Z) ->
          m' a = m a))).
  - split; [intros mel Hmel; lia|]. intros a _. reflexivity.
  - intros c st Hc [Hin Hout]. rewrite Nat.add_0_l. split.
    + intros mel Hmel. destruct (decide (mel = c)) as [->|Hne].
      * apply store_eq.
      * rewrite store_ne by (unfold NUM_FRAMES; lia). apply Hin. lia.
    + intros a Ha. rewrite store_ne by (apply Ha; lia).
      apply Hout. intros mel Hmel. apply Ha. lia.
Qed.

(** The state of the frame loop after [c] frames. *)
Lemma frame_loop_spec (fb0 me0 : list R) (audio spectrogram : Z) (m : mem) (c : nat) :
  length fb0 = Z.to_nat FFT_SIZE -> length me0 = Z.to_nat NUM_MELS ->
  separate audio spectrogram -> (c <= Z.to_nat NUM_FRAMES)%nat ->
  let '(m', fb, me) :=
    for_range 0 c (frame_step audio spectrogram) (m, fb0, me0) in
  length fb = Z.to_nat FFT_SIZE /\ length me = Z.to_nat NUM_MELS /\
  (forall a, ~ in_spectrogram spectrogram a -> m' a = m a) /\
  (forall b f, (b < Z.to_nat NUM_MELS)%nat -> (f < c)%nat ->
     m' (spectrogram + (Z.of_nat b * NUM_FRAMES + Z.of_nat f))%Z =
     frame_energies m audio f !!! b).
Proof.
  intros Hfb Hme Hsep Hc.
  induction c as [|c IH].
  - rewrite for_range_0. split; [exact Hfb|]. split; [exact Hme|].
    split; [reflexivity|]. intros b f _ Hf. lia.
  - rewrite for_range_S, Nat.add_0_l.
    destruct (for_range 0 c (frame_step audio spectrogram) (m, fb0, me0))
      as [[mc fb] me].
    destruct IH as [Hfb' [Hme' [Hout Hin]]]; [lia|].
    unfold frame_step.
    set (n := Z.to_nat FFT_SIZE) in *.
    assert (Haudio : forall idx, (0 <= idx < BUFFER_SIZE)%Z ->
                                 mc (audio + idx)%Z = m (audio + idx)%Z).
    { intros idx Hidx. apply Hout. unfold in_spectrogram.
      destruct Hsep as [Hs|Hs]; lia. }
    assert (HE : computeMelFilterbank
                   (computeFFT (applyHannWindow (extract_frame mc audio c fb) n) n) me
                 = frame_energies m audio c).
    { unfold frame_energies. fold n.
      rewrite (extract_frame_fresh mc audio c fb (replicate n 0))
        by (try exact Hfb'; apply length_replicate).
      rewrite (extract_frame_ext mc m audio c (replicate n 0))
        by (try apply length_replicate; exact Haudio).
      apply computeMelFilterbank_fresh; [exact Hme'|apply length_replicate]. }
    rewrite HE.
    destruct (write_column_spec spectrogram c (frame_energies m audio c) mc)
      as [Hcol Hrest].
    split.
    { assert (H1 : length (extract_frame mc audio c fb) = n)
        by (rewrite extract_frame_length; unfold n in *; lia).
      assert (H2 : length (applyHannWindow (extract_frame mc audio c fb) n) = n)
        by (rewrite applyHannWindow_length; lia).
      rewrite computeFFT_length; lia. }
    split.
    { unfold frame_energies, computeMelFilterbank.
      rewrite applyMelFilters_length. apply length_replicate. }
    split.
    + intros a Ha. rewrite Hrest; [apply Hout; exact Ha|].
      intros mel Hmel Heq. apply Ha. unfold in_spectrogram.
      unfold NUM_MELS, NUM_FRAMES in *. lia.
    + intros b f Hb Hf. destruct (decide (f = c)) as [->|Hne].
      * apply Hcol. exact Hb.
      * rewrite Hrest; [apply Hin; lia|].
        intros mel Hmel. unfold NUM_MELS, NUM_FRAMES in *. lia.
Qed.

(** The frame loop writes nowhere but in the output array, whatever the
    two arrays and the local buffers are. *)
Lemma frame_loop_writes (fb0 me0 : list R) (audio spectrogram : Z) (m : mem) (c : nat) :
  (c <= Z.to_nat NUM_FRAMES)%nat ->
  forall a, ~ in_spectrogram spectrogram a ->
    fst (fst (for_range 0 c (frame_step audio spectrogram) (m, fb0, me0))) a = m a.
Proof.
  intros Hc a Ha. induction c as [|c IH]; [reflexivity|].
  rewrite for_range_S, Nat.add_0_l.
  destruct (for_range 0 c (frame_step audio spectrogram) (m, fb0, me0))
    as [[mc fb] me].
  cbn [fst] in IH. unfold frame_step. cbn [fst].
  match goal with |- write_column _ _ ?E _ _ = _ =>
    destruct (write_column_spec spectrogram c E mc) as [_ Hrest] end.
  rewrite Hrest; [apply IH; lia|].
  intros mel Hmel Heq. apply Ha. unfold in_spectrogram.
  unfold NUM_MELS, NUM_FRAMES in *. lia.
Qed.

Lemma load_array_length (m : mem) (p : Z) (n : nat) : length (load_array m p n) = n.
Proof. unfold load_array. rewrite length_map, length_seq. reflexivity. Qed.

Lemma load_array_lookup (m : mem) (p : Z) (n i : nat) :
  (i < n)%nat -> load_array m p n !!! i = m (p + Z.of_nat i)%Z.
Proof.
  intros Hi. unfold load_array.
  apply (lookup_total_map_seq (fun i => m (p + Z.of_nat i)%Z)). exact Hi.
Qed.

Lemma store_array_spec (m : mem) (p : Z) (a : list R) :
  let m' := store_array m p a in
  (forall i, (i < length a)%nat -> m' (p + Z.of_nat i)%Z = a !!! i) /\
  (forall x, ~ (p <= x < p + Z.of_nat (length a))%Z -> m' x = m x).
Proof.
  unfold store_array.
  apply (for_range_inv
    (fun c m' =>
       (forall i, (i < c)%nat -> m' (p + Z.of_nat i)%Z = a !!! i) /\
       (forall x, ~ (p <= x < p + Z.of_nat c)%Z -> m' x = m x))).
  - split; [intros i Hi; lia|]. intros x _. reflexivity.
  - intros c st Hc [Hin Hout]. rewrite Nat.add_0_l. split.
    + intros i Hi. destruct (decide (i = c)) as [->|Hne].
      * apply store_eq.
      * rewrite store_ne by lia. apply Hin. lia.
    + intros x Hx. rewrite store_ne by lia. apply Hout. lia.
Qed.

Lemma normalizeSpectrogram_length (a : list R) (size : nat) :
  (size <= length a)%nat -> length (normalizeSpectrogram a size) = length a.
Proof.
  intros Hs. unfold normalizeSpectrogram. cbv zeta.
  destruct (Rgt_dec (max_scan a size) 0); [|reflexivity].
  apply divide_all_lookup. exact Hs.
Qed.

Lemma normalizeSpectrogram_lookup (a : list R) (size i : nat) :
  (i < size)%nat -> (size <= length a)%nat ->
  normalizeSpectrogram a size !!! i =
  if Rgt_dec (max_scan a size) 0 then a !!! i / max_scan a size else a !!! i.
Proof.
  intros Hi Hs. unfold normalizeSpectrogram. cbv zeta.
  destruct (Rgt_dec (max_scan a size) 0); [|reflexivity].
  destruct (divide_all_lookup a size (max_scan a size) Hs) as [_ Hval].
  rewrite Hval. destruct (decide (i < size)%nat); [reflexivity|lia].
Qed.

Lemma raw_spectrogram_length (m : mem) (audio : Z) :
  length (raw_spectrogram m audio) = Z.to_nat (NUM_MELS * NUM_FRAMES).
Proof. unfold raw_spectrogram. rewrite length_map, length_seq. reflexivity. Qed.

Lemma raw_spectrogram_lookup (m : mem) (audio : Z) (b f : nat) :
  (b < Z.to_nat NUM_MELS)%nat -> (f < Z.to_nat NUM_FRAMES)%nat ->
  raw_spectrogram m audio !!! (b * Z.to_nat NUM_FRAMES + f)%nat =
  frame_energies m audio f !!! b.
Proof.
  intros Hb Hf. unfold raw_spectrogram.
  rewrite (lookup_total_map_seq
             (fun i => frame_energies m audio (i mod Z.to_nat NUM_FRAMES)
                         !!! (i / Z.to_nat NUM_FRAMES)%nat)).
  - rewrite Nat.add_comm, Nat.Div0.mod_add, Nat.div_add by (unfold NUM_FRAMES; lia).
    rewrite Nat.mod_small, Nat.div_small by exact Hf. reflexivity.
  - unfold NUM_MELS, NUM_FRAMES in *. nia.
Qed.

(** The memory that [audioToMelSpectrogram] returns. *)
Lemma audioToMelSpectrogram_spec (fb0 me0 : list R) (audio spectrogram : Z) (m : mem) :
  length fb0 = Z.to_nat FFT_SIZE -> length me0 = Z.to_nat NUM_MELS ->
  separate audio spectrogram ->
  let size := Z.to_nat (NUM_MELS * NUM_FRAMES) in
  let out := audioToMelSpectrogram fb0 me0 audio spectrogram m in
  (forall a, ~ in_spectrogram spectrogram a -> out a = m a) /\
  (forall i, (i < size)%nat ->
     out (spectrogram + Z.of_nat i)%Z =
     normalizeSpectrogram (raw_spectrogram m audio) size !!! i).
Proof.
  intros Hfb Hme Hsep. cbv zeta. unfold audioToMelSpectrogram.
  pose proof (frame_loop_spec fb0 me0 audio spectrogram m (Z.to_nat NUM_FRAMES)
                Hfb Hme Hsep (Nat.le_refl _)) as Hloop.
  destruct (for_range 0 (Z.to_nat NUM_FRAMES) (frame_step audio spectrogram) (m, fb0, me0))
    as [[m1 fb] me].
  destruct Hloop as [_ [_ [Hout Hin]]].
  set (size := Z.to_nat (NUM_MELS * NUM_FRAMES)).
  assert (Hraw : load_array m1 spectrogram size = raw_spectrogram m audio).
  { apply list_total_ext.
    - rewrite load_array_length, raw_spectrogram_length. reflexivity.
    - intros i Hi. rewrite load_array_length in Hi.
      rewrite load_array_lookup by exact Hi.
      assert (HF : (Z.to_nat NUM_FRAMES <> 0)%nat) by (unfold NUM_FRAMES; lia).
      pose proof (Nat.div_mod_eq i (Z.to_nat NUM_FRAMES)) as Hdm.
      pose proof (Nat.mod_upper_bound i (Z.to_nat NUM_FRAMES) HF) as Hmod.
      assert (Hdiv : (i / Z.to_nat NUM_FRAMES < Z.to_nat NUM_MELS)%nat).
      { apply Nat.Div0.div_lt_upper_bound. unfold size, NUM_MELS, NUM_FRAMES in *. lia. }
      rewrite Hdm at 2.
      rewrite (Nat.mul_comm (Z.to_nat NUM_FRAMES)), raw_spectrogram_lookup by assumption.
      rewrite <- (Hin (i / Z.to_nat NUM_FRAMES)%nat (i mod Z.to_nat NUM_FRAMES)%nat)
        by assumption.
      f_equal. unfold NUM_FRAMES in *. lia. }
  unfold normalize_at. fold size. rewrite Hraw.
  destruct (store_array_spec m1 spectrogram
              (normalizeSpectrogram (raw_spectrogram m audio) size)) as [Hs_in Hs_out].
  rewrite normalizeSpectrogram_length in Hs_in, Hs_out
    by (rewrite raw_spectrogram_length; reflexivity).
  rewrite raw_spectrogram_length in Hs_in, Hs_out. fold size in Hs_in, Hs_out.
  split.
  - intros a Ha. rewrite Hs_out; [apply Hout; exact Ha|].
    unfold in_spectrogram, size, NUM_MELS, NUM_FRAMES in *. lia.
  - intros i Hi. apply Hs_in. exact Hi.
Qed.

(** C7.  The output of [audioToMelSpectrogram] is a flat sequence of [M*F]
    values, the normalised feature matrix, in which the energy of mel band
    [b] of frame [f] (divided by the maximum, when that is positive) is
    stored at flat index [b*F + f].  The audio and the output are two arrays
    of the caller that do not overlap. *)
Theorem spectrogram_layout (fft_buffer mel_energies : list R) (audio spectrogram : Z)
    (m : mem) (b f : nat) :
  length fft_buffer = Z.to_nat FFT_SIZE -> length mel_energies = Z.to_nat NUM_MELS ->
  separate audio spectrogram ->
  (b < Z.to_nat NUM_MELS)%nat -> (f < Z.to_nat NUM_FRAMES)%nat ->
  let size := Z.to_nat (NUM_MELS * NUM_FRAMES) in
  let raw := raw_spectrogram m audio in
  let out := audioToMelSpectrogram fft_buffer mel_energies audio spectrogram m in
  let energy := frame_energies m audio f !!! b in
  load_array out spectrogram size = normalizeSpectrogram raw size /\
  length (load_array out spectrogram size) = size /\
  raw !!! (b * Z.to_nat NUM_FRAMES + f)%nat = energy /\
  out (spectrogram + (Z.of_nat b * NUM_FRAMES + Z.of_nat f))%Z =
    (if Rgt_dec (max_scan raw size) 0 then energy / max_scan raw size else energy).
Proof.
  intros Hfb Hme Hsep Hb Hf. cbv zeta.
  destruct (audioToMelSpectrogram_spec fft_buffer mel_energies audio spectrogram m
              Hfb Hme Hsep) as [_ Hin].
  set (size := Z.to_nat (NUM_MELS * NUM_FRAMES)) in *.
  split; [|split; [apply load_array_length|split]].
  - apply list_total_ext.
    + rewrite load_array_length, normalizeSpectrogram_length, raw_spectrogram_length
        by (rewrite raw_spectrogram_length; reflexivity).
      reflexivity.
    + intros i Hi. rewrite load_array_length in Hi.
      rewrite load_array_lookup by exact Hi. apply Hin. exact Hi.
  - apply raw_spectrogram_lookup; assumption.
  - assert (Hidx : (b * Z.to_nat NUM_FRAMES + f < size)%nat)
      by (unfold size, NUM_MELS, NUM_FRAMES in *; nia).
    replace (Z.of_nat b * NUM_FRAMES + Z.of_nat f)%Z
      with (Z.of_nat (b * Z.to_nat NUM_FRAMES + f)) by (unfold NUM_FRAMES; lia).
    rewrite (Hin _ Hidx).
    rewrite normalizeSpectrogram_lookup
      by (try exact Hidx; rewrite raw_spectrogram_length; reflexivity).
    rewrite raw_spectrogram_lookup by assumption. reflexivity.
Qed.

(** The statement for band 39 of frame 48, with the audio at address 0, the
    output right after it, and a silent memory. *)
Lemma spectrogram_layout_witness :
  let fft_buffer := replicate (Z.to_nat FFT_SIZE) 0 in
  let mel_energies := replicate (Z.to_nat NUM_MELS) 0 in
  let m : mem := fun _ => 0 in
  let size := Z.to_nat (NUM_MELS * NUM_FRAMES) in
  let raw := raw_spectrogram m 0 in
  let out := audioToMelSpectrogram fft_buffer mel_energies 0 BUFFER_SIZE m in
  let energy := frame_energies m 0 48 !!! 39%nat in
  load_array out BUFFER_SIZE size = normalizeSpectrogram raw size /\
  length (load_array out BUFFER_SIZE size) = size /\
  raw !!! (39 * Z.to_nat NUM_FRAMES + 48)%nat = energy /\
  out (BUFFER_SIZE + (Z.of_nat 39 * NUM_FRAMES + Z.of_nat 48))%Z =
    (if Rgt_dec (max_scan raw size) 0 then energy / max_scan raw size else energy).
Proof.
  apply (spectrogram_layout (replicate (Z.to_nat FFT_SIZE) 0)
           (replicate (Z.to_nat NUM_MELS) 0) 0 BUFFER_SIZE (fun _ => 0) 39 48).
  - apply length_replicate.
  - apply length_replicate.
  - left. lia.
  - unfold NUM_MELS. lia.
  - unfold NUM_FRAMES. lia.
Defined.

(** [normalizeSpectrogram] on the output array writes nowhere else. *)
Lemma normalize_at_writes (m : mem) (spectrogram : Z) (a : Z) :
  ~ in_spectrogram spectrogram a ->
  normalize_at m spectrogram (Z.to_nat (NUM_MELS * NUM_FRAMES)) a = m a.
Proof.
  intros Ha. unfold normalize_at.
  set (size := Z.to_nat (NUM_MELS * NUM_FRAMES)).
  destruct (store_array_spec m spectrogram
              (normalizeSpectrogram (load_array m spectrogram size) size)) as [_ Hout].
  apply Hout.
  rewrite normalizeSpectrogram_length, load_array_length
    by (rewrite load_array_length; reflexivity).
  unfold in_spectrogram, size, NUM_MELS, NUM_FRAMES in *. lia.
Qed.

(** C10.  [audioToMelSpectrogram] does not modify the audio buffer.  Only
    the output array is written: every address outside it holds after the
    call the value it held before, whatever the arguments are; so, when the
    audio and the output are two arrays that do not overlap, every element
    of the audio array keeps its value. *)
Theorem audio_buffer_unchanged (fft_buffer mel_energies : list R) (audio spectrogram : Z)
    (m : mem) :
  let out := audioToMelSpectrogram fft_buffer mel_energies audio spectrogram m in
  (forall a, ~ in_spectrogram spectrogram a -> out a = m a) /\
  (separate audio spectrogram ->
   forall idx, (0 <= idx < BUFFER_SIZE)%Z -> out (audio + idx)%Z = m (audio + idx)%Z).
Proof.
  cbv zeta.
  assert (Hout : forall a, ~ in_spectrogram spectrogram a ->
            audioToMelSpectrogram fft_buffer mel_energies audio spectrogram m a = m a).
  { intros a Ha. unfold audioToMelSpectrogram.
    pose proof (frame_loop_writes fft_buffer mel_energies audio spectrogram m
                  (Z.to_nat NUM_FRAMES) (Nat.le_refl _) a Ha) as Hloop.
    destruct (for_range 0 (Z.to_nat NUM_FRAMES) (frame_step audio spectrogram)
                (m, fft_buffer, mel_energies)) as [[m1 fb] me].
    cbn [fst] in Hloop. rewrite normalize_at_writes by exact Ha. exact Hloop. }
  split; [exact Hout|].
  intros Hsep idx Hidx. apply Hout. unfold in_spectrogram.
  destruct Hsep as [Hs|Hs]; lia.
Qed.

(** The statement with the output array at address 0 and the audio at address
    2000, in a memory that holds [a] at address [a]. *)
Lemma audio_buffer_unchanged_witness :
  let fft_buffer := replicate (Z.to_nat FFT_SIZE) 0 in
  let mel_energies := replicate (Z.to_nat NUM_MELS) 0 in
  let out := audioToMelSpectrogram fft_buffer mel_energies 2000 0 IZR in
  (forall a, ~ in_spectrogram 0 a -> out a = IZR a) /\
  (forall idx, (0 <= idx < BUFFER_SIZE)%Z -> out (2000 + idx)%Z = IZR (2000 + idx)).
Proof.
  destruct (audio_buffer_unchanged (replicate (Z.to_nat FFT_SIZE) 0)
              (replicate (Z.to_nat NUM_MELS) 0) 2000 0 IZR) as [Hout Haudio].
  split; [exact Hout|].
  apply Haudio. right. unfold NUM_MELS, NUM_FRAMES. lia.
Defined.

(** ** The code on small inputs *)

Example zrange_3_6 : zrange 3 6 = [3; 4; 5]%Z.
Proof. reflexivity. Qed.

Example mel_weight_rising : mel_weight [2; 4; 8]%Z 0 3 = 1 / 2.
Proof. reflexivity. Qed.

Example mel_weight_center : mel_weight [2; 4; 8]%Z 0 4 = 1.
Proof. change (mel_weight [2; 4; 8]%Z 0 4) with (4 / 4). lra. Qed.

Example mel_weight_falling : mel_weight [2; 4; 8]%Z 0 7 = 1 / 4.
Proof. change (mel_weight [2; 4; 8]%Z 0 7) with (1 / 4). reflexivity. Qed.

Example max_scan_2_4_1 : max_scan [2; 4; 1] 3 = 4.
Proof.
  unfold max_scan, for_range. cbn [seq fold_left].
  change ([2; 4; 1] !!! 0%nat) with 2. change ([2; 4; 1] !!! 1%nat) with 4.
  change ([2; 4; 1] !!! 2%nat) with 1.
  repeat (destruct (Rgt_dec _ _); try lra).
Qed.

Example normalizeSpectrogram_2_4_1 :
  normalizeSpectrogram [2; 4; 1] 3 = [1 / 2; 1; 1 / 4].
Proof.
  unfold normalizeSpectrogram. rewrite max_scan_2_4_1. cbv zeta.
  destruct (Rgt_dec 4 0); [|lra].
  unfold for_range. cbn [seq fold_left].
  match goal with |- ?l = _ => change l with [2 / 4; 4 / 4; 1 / 4] end.
  replace (2 / 4) with (1 / 2) by lra. replace (4 / 4) with 1 by lra. reflexivity.
Qed.

Example roundf_half : roundf (5 / 2) = 3%Z.
Proof.
  unfold roundf. destruct (Rle_dec 0 (5 / 2)); [|lra].
  symmetry. apply Int_part_spec. simpl. lra.
Qed.

Example computeFFT_two_pulses_4 : computeFFT [1; 1; 0; 0] 4 !!! 1%nat = 0.
Proof. exact (computeFFT_two_pulses 2 (Nat.le_refl 2)). Qed.

(** * Further properties of the code *)

(** ** applyHannWindow *)

Lemma lookup_total_insert_any (a : list R) (i j : nat) (v : R) :
  <[i := v]> a !!! j = if decide (i = j /\ (i < length a)%nat) then v else a !!! j.
Proof.
  destruct (decide (i < length a)%nat) as [Hi|Hi].
  - rewrite lookup_total_insert_R by exact Hi.
    destruct (decide (i = j)), (decide (i = j /\ (i < length a)%nat)); try reflexivity; lia.
  - rewrite list_insert_ge by lia.
    destruct (decide (i = j /\ (i < length a)%nat)); [lia|reflexivity].
Qed.

Lemma hann_range (size i : nat) : 0 <= hann size i <= 1.
Proof.
  unfold hann. pose proof (COS_bound (2 * PI * INR i / IZR (Z.of_nat size - 1))). lra.
Qed.

Lemma hann_first (size : nat) : hann size 0 = 0.
Proof.
  unfold hann. change (INR 0) with 0.
  replace (2 * PI * 0 / IZR (Z.of_nat size - 1)) with 0 by (unfold Rdiv; ring).
  rewrite cos_0. lra.
Qed.

Lemma size_minus_1 (size : nat) :
  (1 <= size)%nat -> IZR (Z.of_nat size - 1) = INR (size - 1).
Proof.
  intros H. rewrite INR_IZR_INZ. f_equal. lia.
Qed.

Lemma hann_last (size : nat) : (2 <= size)%nat -> hann size (size - 1) = 0.
Proof.
  intros H. unfold hann. rewrite size_minus_1 by lia.
  assert (Hpos : 0 < INR (size - 1)) by (apply lt_0_INR; lia).
  replace (2 * PI * INR (size - 1) / INR (size - 1)) with (2 * PI) by (field; lra).
  rewrite cos_2PI. lra.
Qed.


Lemma applyHannWindow_lookup (buffer : list R) (size i : nat) :
  (size <= length buffer)%nat ->
  applyHannWindow buffer size !!! i =
  if decide (i < size)%nat then buffer !!! i * hann size i else buffer !!! i.
Proof.
  intros H. unfold applyHannWindow.
  apply (for_range_fill (fun i buf => buf !!! i * hann size i)); [|exact H].
  intros k b b' Hb. rewrite (Hb k) by lia. reflexivity.
Qed.

(** X1.  [applyHannWindow] on a frame of at least two samples: sample [i]
    becomes [buffer[i] * w(i)] with [0 <= w(i) <= 1], so no sample grows in
    absolute value; the first and the last sample of the frame become 0;
    the elements of the buffer beyond the frame and its length are kept. *)
Theorem applyHannWindow_tapers (buffer : list R) (size : nat) :
  (2 <= size)%nat -> (size <= length buffer)%nat ->
  let out := applyHannWindow buffer size in
  length out = length buffer /\
  (forall i, (i < size)%nat ->
     out !!! i = buffer !!! i * hann size i /\ Rabs (out !!! i) <= Rabs (buffer !!! i)) /\
  out !!! 0%nat = 0 /\
  out !!! (size - 1)%nat = 0 /\
  (forall i, (size <= i)%nat -> out !!! i = buffer !!! i).
Proof.
  intros Hs Hlen. cbv zeta.
  split; [apply applyHannWindow_length; exact Hlen|].
  split; [|split; [|split]].
  - intros i Hi. rewrite applyHannWindow_lookup by exact Hlen.
    destruct (decide (i < size)%nat); [|lia]. split; [reflexivity|].
    rewrite Rabs_mult. pose proof (hann_range size i) as Hw.
    rewrite (Rabs_right (hann size i)) by lra.
    pose proof (Rabs_pos (buffer !!! i)). nra.
  - rewrite applyHannWindow_lookup by exact Hlen.
    destruct (decide (0 < size)%nat); [|lia]. rewrite hann_first. ring.
  - rewrite applyHannWindow_lookup by exact Hlen.
    destruct (decide (size - 1 < size)%nat); [|lia]. rewrite hann_last by exact Hs. ring.
  - intros i Hi. rewrite applyHannWindow_lookup by exact Hlen.
    destruct (decide (i < size)%nat); [lia|reflexivity].
Qed.

(** The statement on a frame of four samples. *)
Lemma applyHannWindow_tapers_witness :
  let buffer := [3; -2; 5; 7] in
  let out := applyHannWindow buffer 4 in
  length out = length buffer /\
  (forall i, (i < 4)%nat ->
     out !!! i = buffer !!! i * hann 4 i /\ Rabs (out !!! i) <= Rabs (buffer !!! i)) /\
  out !!! 0%nat = 0 /\
  out !!! (4 - 1)%nat = 0 /\
  (forall i, (4 <= i)%nat -> out !!! i = buffer !!! i).
Proof.
  apply (applyHannWindow_tapers [3; -2; 5; 7] 4); simpl; lia.
Defined.



(** ** computeFFT: shape and scaling *)

Lemma computeFFT_lookup (buffer : list R) (size i : nat) :
  (size <= length buffer)%nat ->
  computeFFT buffer size !!! i =
  let s := fft_stages size (fft_init buffer size) in
  if decide (i < size / 2)%nat
  then sqrt (real s !!! i * real s !!! i + imag s !!! i * imag s !!! i)
  else buffer !!! i.
Proof.
  intros H. unfold computeFFT. apply fft_magnitudes_lookup.
  pose proof (Nat.Div0.div_le_upper_bound size 2 size). lia.
Qed.

(** X3.  [computeFFT] keeps the length of the buffer, leaves a non-negative
    value in each of the first [size/2] slots and does not touch the slots
    from [size/2] on, which still hold the input samples. *)
Theorem computeFFT_shape (buffer : list R) (size : nat) :
  (size <= length buffer)%nat ->
  let out := computeFFT buffer size in
  length out = length buffer /\
  (forall i, (i < size / 2)%nat -> 0 <= out !!! i) /\
  (forall i, (size / 2 <= i)%nat -> out !!! i = buffer !!! i).
Proof.
  intros H. cbv zeta. split; [apply computeFFT_length; exact H|]. split.
  - intros i Hi. rewrite computeFFT_lookup by exact H. cbv zeta.
    destruct (decide (i < size / 2)%nat); [apply sqrt_pos|lia].
  - intros i Hi. rewrite computeFFT_lookup by exact H. cbv zeta.
    destruct (decide (i < size / 2)%nat); [lia|reflexivity].
Qed.

(** The statement on four samples. *)
Lemma computeFFT_shape_witness :
  let buffer := [3; -2; 5; 7] in
  let out := computeFFT buffer 4 in
  length out = length buffer /\
  (forall i, (i < 4 / 2)%nat -> 0 <= out !!! i) /\
  (forall i, (4 / 2 <= i)%nat -> out !!! i = buffer !!! i).
Proof.
  apply (computeFFT_shape [3; -2; 5; 7] 4). simpl. lia.
Defined.

(** Two runs of a loop whose states are related stay related. *)
Lemma for_range_rel {A B : Type} (Rel : A -> B -> Prop) (lo n : nat)
    (f : nat -> A -> A) (g : nat -> B -> B) (a : A) (b : B) :
  Rel a b ->
  (forall i x y, Rel x y -> Rel (f i x) (g i y)) ->
  Rel (for_range lo n f a) (for_range lo n g b).
Proof.
  intros H0 Hstep. induction n as [|n IH]; [exact H0|].
  rewrite !for_range_S. apply Hstep. exact IH.
Qed.

Lemma insert_scaled (c : R) (a a' : list R) (i : nat) (v v' : R) :
  list_scaled c a a' -> v' = c * v -> list_scaled c (<[i := v]> a) (<[i := v']> a').
Proof.
  intros [Hl Hv] ->. split; [rewrite !length_insert; exact Hl|].
  intros j. rewrite !lookup_total_insert_any, Hl.
  destruct (decide (i = j /\ (i < length a)%nat)); [reflexivity|apply Hv].
Qed.

Lemma fft_scaled_lists (c : R) (s s' : fft_state) :
  fft_scaled c s s' <->
  list_scaled c (real s) (real s') /\ list_scaled c (imag s) (imag s').
Proof.
  unfold fft_scaled, list_scaled. split.
  - intros [Hr [Hi Hv]]. repeat split; try assumption; intros i; apply Hv.
  - intros [[Hr Hvr] [Hi Hvi]]. repeat split; try assumption; [apply Hvr|apply Hvi].
Qed.

(** Every butterfly is linear in the two arrays. *)
Lemma butterfly_scaled (c : R) (m k j : nat) (w_real w_imag : R) (s s' : fft_state) :
  fft_scaled c s s' ->
  fft_scaled c (butterfly m k j w_real w_imag s) (butterfly m k j w_real w_imag s').
Proof.
  intros H. apply fft_scaled_lists in H. destruct H as [Hr Hi].
  apply fft_scaled_lists. unfold butterfly. cbv zeta. cbn [real imag].
  pose proof (proj2 Hr) as Hvr. pose proof (proj2 Hi) as Hvi.
  assert (Hr1 : list_scaled c
            (<[(k + j + m / 2)%nat := real s !!! (k + j)%nat
                 - (w_real * real s !!! (k + j + m / 2)%nat
                    - w_imag * imag s !!! (k + j + m / 2)%nat)]> (real s))
            (<[(k + j + m / 2)%nat := real s' !!! (k + j)%nat
                 - (w_real * real s' !!! (k + j + m / 2)%nat
                    - w_imag * imag s' !!! (k + j + m / 2)%nat)]> (real s'))).
  { apply insert_scaled; [exact Hr|]. rewrite !Hvr, !Hvi. ring. }
  assert (Hi1 : list_scaled c
            (<[(k + j + m / 2)%nat := imag s !!! (k + j)%nat
                 - (w_real * imag s !!! (k + j + m / 2)%nat
                    + w_imag * real s !!! (k + j + m / 2)%nat)]> (imag s))
            (<[(k + j + m / 2)%nat := imag s' !!! (k + j)%nat
                 - (w_real * imag s' !!! (k + j + m / 2)%nat
                    + w_imag * real s' !!! (k + j + m / 2)%nat)]> (imag s'))).
  { apply insert_scaled; [exact Hi|]. rewrite !Hvr, !Hvi. ring. }
  split.
  - apply insert_scaled; [exact Hr1|]. rewrite (proj2 Hr1), !Hvr, !Hvi. ring.
  - apply insert_scaled; [exact Hi1|]. rewrite (proj2 Hi1), !Hvr, !Hvi. ring.
Qed.

Lemma fft_inner_scaled (c : R) (m k : nat) (wm_real wm_imag : R) (s s' : fft_state) :
  fft_scaled c s s' ->
  fft_scaled c (fft_inner m k wm_real wm_imag s) (fft_inner m k wm_real wm_imag s').
Proof.
  intros H. unfold fft_inner.
  apply (for_range_rel
           (fun (x y : R * R * fft_state) => fst x = fst y /\ fft_scaled c (snd x) (snd y))).
  - split; [reflexivity|exact H].
  - intros i [[wr wi] st] [[wr' wi'] st'] [Hw Hs]. cbn [fst snd] in *.
    injection Hw as <- <-. split; [reflexivity|]. apply butterfly_scaled. exact Hs.
Qed.

Lemma fft_stages_scaled (c : R) (size : nat) (s s' : fft_state) :
  fft_scaled c s s' -> fft_scaled c (fft_stages size s) (fft_stages size s').
Proof.
  intros H. unfold fft_stages. apply for_range_rel; [exact H|].
  intros stage x y Hxy. unfold fft_stage, fft_blocks. cbv zeta.
  apply for_range_rel; [exact Hxy|].
  intros b x' y' Hxy'. apply fft_inner_scaled. exact Hxy'.
Qed.

Lemma fft_init_scaled (c : R) (buffer buffer' : list R) (size : nat) :
  list_scaled c buffer buffer' ->
  fft_scaled c (fft_init buffer size) (fft_init buffer' size).
Proof.
  intros [Hl Hv]. unfold fft_scaled.
  pose proof (fft_init_lengths buffer size) as [L1 L2].
  pose proof (fft_init_lengths buffer' size) as [L1' L2'].
  split; [congruence|]. split; [congruence|].
  intros i. rewrite !fft_init_real, !fft_init_imag.
  destruct (decide (i < size)%nat); split; try ring. apply Hv.
Qed.

Lemma sqrt_scaled (c a b : R) :
  sqrt (c * a * (c * a) + c * b * (c * b)) = Rabs c * sqrt (a * a + b * b).
Proof.
  replace (c * a * (c * a) + c * b * (c * b)) with (c² * (a * a + b * b))
    by (unfold Rsqr; ring).
  rewrite sqrt_mult; [|apply Rle_0_sqr|nra].
  rewrite sqrt_Rsqr_abs. reflexivity.
Qed.

(** The buffer after [computeFFT] on a scaled input: the magnitudes are
    scaled by [|c|], the slots that are not written by [c]. *)
Lemma computeFFT_scaled (c : R) (buffer buffer' : list R) (size i : nat) :
  (size <= length buffer)%nat -> list_scaled c buffer buffer' ->
  computeFFT buffer' size !!! i =
  (if decide (i < size / 2)%nat then Rabs c else c) * computeFFT buffer size !!! i.
Proof.
  intros Hs Hsc. pose proof Hsc as [Hl Hv].
  rewrite !computeFFT_lookup by lia. cbv zeta.
  destruct (decide (i < size / 2)%nat); [|apply Hv].
  pose proof (fft_stages_scaled c size _ _ (fft_init_scaled c _ _ size Hsc))
    as [_ [_ Hval]].
  destruct (Hval i) as [-> ->]. apply sqrt_scaled.
Qed.

Lemma map_scaled (c : R) (a : list R) : list_scaled c a (map (Rmult c) a).
Proof.
  split; [apply length_map|]. intros i.
  destruct (decide (i < length a)%nat) as [Hi|Hi].
  - apply list_lookup_total_correct. change (map (Rmult c) a) with (Rmult c <$> a).
    rewrite list_lookup_fmap, (list_lookup_lookup_total_lt a i Hi). reflexivity.
  - rewrite !lookup_total_ge by (rewrite ?length_map; lia). ring.
Qed.



(** ** computeFFT: the bin of frequency zero *)

Lemma butterfly_lookup (N m k j : nat) (w_real w_imag : R) (s : fft_state) (i : nat) :
  fft_lengths N s -> (1 <= m / 2)%nat -> (k + j + m / 2 < N)%nat ->
  let lo := (k + j)%nat in
  let hi := (k + j + m / 2)%nat in
  let t_real := w_real * real s !!! hi - w_imag * imag s !!! hi in
  let t_imag := w_real * imag s !!! hi + w_imag * real s !!! hi in
  let s' := butterfly m k j w_real w_imag s in
  fft_lengths N s' /\
  real s' !!! i = (if decide (i = lo) then real s !!! lo + t_real
                   else if decide (i = hi) then real s !!! lo - t_real
                   else real s !!! i) /\
  imag s' !!! i = (if decide (i = lo) then imag s !!! lo + t_imag
                   else if decide (i = hi) then imag s !!! lo - t_imag
                   else imag s !!! i).
Proof.
  intros [Hlr Hli] Hh Hhi. cbv zeta. unfold butterfly. cbv zeta. cbn [real imag].
  split; [split; cbn [real imag]; rewrite !length_insert; assumption|].
  rewrite !lookup_total_insert_R by (rewrite ?length_insert; lia).
  destruct (decide ((k + j)%nat = i)) as [<-|Hlo].
  - destruct (decide ((k + j)%nat = (k + j)%nat)); [|lia].
    destruct (decide ((k + j + m / 2)%nat = (k + j)%nat)); [lia|]. split; reflexivity.
  - destruct (decide (i = (k + j)%nat)); [lia|].
    destruct (decide ((k + j + m / 2)%nat = i)) as [<-|Hhi'].
    + destruct (decide ((k + j + m / 2)%nat = (k + j + m / 2)%nat)); [|lia].
      split; reflexivity.
    + destruct (decide (i = (k + j + m / 2)%nat)); [lia|]. split; reflexivity.
Qed.

(** One block: its first element receives the sum of the first elements of
    its two halves; nothing outside the block changes. *)
Lemma fft_inner_head (N m k : nat) (wm_real wm_imag : R) (s : fft_state) :
  fft_lengths N s -> (1 <= m / 2)%nat -> (k + 2 * (m / 2) <= N)%nat ->
  let s' := fft_inner m k wm_real wm_imag s in
  fft_lengths N s' /\
  real s' !!! k = real s !!! k + real s !!! (k + m / 2)%nat /\
  imag s' !!! k = imag s !!! k + imag s !!! (k + m / 2)%nat /\
  forall i, ~ (k <= i < k + 2 * (m / 2))%nat ->
    real s' !!! i = real s !!! i /\ imag s' !!! i = imag s !!! i.
Proof.
  intros Hlen Hh Hk. unfold fft_inner. set (h := (m / 2)%nat) in *.
  match goal with |- context [for_range 0 h ?b ?i] => set (body := b); set (init := i) end.
  pose (P := fun (c : nat) (ws : R * R * fft_state) =>
    fft_lengths N (snd ws) /\
    (c = 0%nat -> fst ws = (1, 0)) /\
    ((1 <= c)%nat ->
       real (snd ws) !!! k = real s !!! k + real s !!! (k + h)%nat /\
       imag (snd ws) !!! k = imag s !!! k + imag s !!! (k + h)%nat) /\
    forall i, ~ ((k <= i < k + c)%nat \/ (k + h <= i < k + h + c)%nat) ->
      real (snd ws) !!! i = real s !!! i /\ imag (snd ws) !!! i = imag s !!! i).
  assert (HP : P h (for_range 0 h body init)).
  { apply for_range_inv.
    - split; [exact Hlen|]. split; [reflexivity|]. split; [lia|].
      intros i _. split; reflexivity.
    - intros c [[w_real w_imag] st] Hc [Hlen' [Hw [Hhead Hrest]]].
      cbn [fst snd] in *. rewrite Nat.add_0_l. subst body. unfold P.
      cbv beta iota. cbn [fst snd].
      pose proof (fun i => butterfly_lookup N m k c w_real w_imag st i Hlen') as Hb.
      fold h in Hb. cbv zeta in Hb.
      split; [apply (Hb 0%nat); lia|]. split; [lia|]. split.
      + intros _. destruct (Hb k) as [_ [-> ->]]; [lia|lia|].
        destruct (decide (k = (k + c)%nat)) as [Hkc|Hkc].
        * assert (c = 0%nat) by lia. subst c.
          injection (Hw eq_refl) as -> ->.
          rewrite Nat.add_0_r.
          destruct (Hrest k) as [-> ->]; [lia|].
          destruct (Hrest (k + h)%nat) as [-> ->]; [lia|]. split; ring.
        * destruct (decide (k = (k + c + h)%nat)); [lia|]. apply Hhead. lia.
      + intros i Hi. destruct (Hb i) as [_ [-> ->]]; [lia|lia|].
        destruct (decide (i = (k + c)%nat)); [lia|].
        destruct (decide (i = (k + c + h)%nat)); [lia|].
        apply Hrest. lia. }
  destruct HP as [Hlen' [_ [Hhead Hrest]]].
  split; [exact Hlen'|].
  destruct (Hhead Hh) as [Hr Hi]. split; [exact Hr|]. split; [exact Hi|].
  intros i Hi'. apply Hrest. lia.
Qed.

(** One stage: the first element of every block receives the sum of the
    first elements of its two halves. *)
Lemma fft_blocks_heads (N m c : nat) (wm_real wm_imag : R) (s : fft_state) :
  N = (c * m)%nat -> fft_lengths N s -> (1 <= m / 2)%nat -> m = (2 * (m / 2))%nat ->
  let s' := fft_blocks N m wm_real wm_imag s in
  fft_lengths N s' /\
  forall b, (b < c)%nat ->
    real s' !!! (b * m)%nat = real s !!! (b * m)%nat + real s !!! (b * m + m / 2)%nat /\
    imag s' !!! (b * m)%nat = imag s !!! (b * m)%nat + imag s !!! (b * m + m / 2)%nat.
Proof.
  intros HN Hlen Hh Hm. cbv zeta. unfold fft_blocks.
  replace ((N + m - 1) / m)%nat with c by (subst N; symmetry; apply trip_count; lia).
  assert (HP : forall d, (d <= c)%nat ->
    let st := for_range 0 d (fun b st => fft_inner m (b * m) wm_real wm_imag st) s in
    fft_lengths N st /\
    (forall b, (b < d)%nat ->
       real st !!! (b * m)%nat = real s !!! (b * m)%nat + real s !!! (b * m + m / 2)%nat /\
       imag st !!! (b * m)%nat = imag s !!! (b * m)%nat + imag s !!! (b * m + m / 2)%nat) /\
    (forall i, (d * m <= i)%nat -> real st !!! i = real s !!! i /\ imag st !!! i = imag s !!! i)).
  { intros d. induction d as [|d IH]; intros Hd; cbv zeta.
    - rewrite for_range_0. split; [exact Hlen|]. split; [intros b Hb; lia|].
      intros i _. split; reflexivity.
    - rewrite for_range_S, Nat.add_0_l.
      destruct IH as [Hlen' [Hheads Hrest]]; [lia|].
      set (st := for_range 0 d _ s) in *.
      destruct (fft_inner_head N m (d * m) wm_real wm_imag st Hlen' Hh)
        as [Hlen2 [Hr [Hi Hout]]].
      { rewrite <- Hm. subst N. nia. }
      split; [exact Hlen2|]. split.
      + intros b Hb. destruct (decide (b = d)) as [->|Hne].
        * rewrite Hr, Hi.
          destruct (Hrest (d * m)%nat) as [-> ->]; [lia|].
          destruct (Hrest (d * m + m / 2)%nat) as [-> ->]; [lia|]. split; reflexivity.
        * destruct (Hout (b * m)%nat) as [-> ->]; [rewrite <- Hm; nia|].
          apply Hheads. lia.
      + intros i Hi'. destruct (Hout i) as [-> ->]; [rewrite <- Hm; nia|].
        apply Hrest. nia. }
  destruct (HP c (Nat.le_refl c)) as [Hlen' [Hheads _]].
  split; [exact Hlen'|exact Hheads].
Qed.

Lemma block_sum_app (x : list R) (start a b : nat) :
  block_sum x start (a + b) = block_sum x start a + block_sum x (start + a) b.
Proof.
  unfold block_sum. rewrite seq_app, map_app, Rsum_app. reflexivity.
Qed.

(** After [st] stages the first element of each block of [2^st] elements
    holds the sum of the input over the block, with no imaginary part. *)
Lemma fft_stages_block_sums (n st : nat) (s : fft_state) :
  (st <= n)%nat -> fft_lengths (2 ^ n) s -> (forall i, imag s !!! i = 0) ->
  let s' := for_range 1 st (fun stage x => fft_stage (2 ^ n) stage x) s in
  fft_lengths (2 ^ n) s' /\
  forall b, (b < 2 ^ (n - st))%nat ->
    real s' !!! (b * 2 ^ st)%nat = block_sum (real s) (b * 2 ^ st) (2 ^ st) /\
    imag s' !!! (b * 2 ^ st)%nat = 0.
Proof.
  intros Hst Hlen Him. induction st as [|st IH]; cbv zeta.
  - rewrite for_range_0. split; [exact Hlen|]. intros b Hb.
    change (2 ^ 0)%nat with 1%nat. rewrite Nat.mul_1_r.
    unfold block_sum. cbn [seq map Rsum fold_right]. split; [ring|apply Him].
  - rewrite for_range_S.
    destruct IH as [Hlen' Hsum]; [lia|].
    set (sp := for_range 1 st _ s) in *.
    replace (1 + st)%nat with (S st) by lia. unfold fft_stage. cbv zeta.
    destruct (fft_blocks_heads (2 ^ n) (2 ^ S st) (2 ^ (n - S st))
                (cos (2 * PI / INR (2 ^ S st))) (- sin (2 * PI / INR (2 ^ S st))) sp)
      as [Hlen2 Hheads].
    { rewrite <- Nat.pow_add_r. f_equal. lia. }
    { exact Hlen'. }
    { rewrite pow2_half. apply pow2_pos. }
    { rewrite pow2_half, Nat.pow_succ_r'. reflexivity. }
    split; [exact Hlen2|]. intros b Hb.
    destruct (Hheads b Hb) as [-> ->]. rewrite pow2_half.
    assert (Hpow : (2 ^ (n - st) = 2 * 2 ^ (n - S st))%nat).
    { rewrite <- Nat.pow_succ_r'. f_equal. lia. }
    assert (E1 : (b * 2 ^ S st = (2 * b) * 2 ^ st)%nat)
      by (rewrite Nat.pow_succ_r'; lia).
    assert (E2 : (b * 2 ^ S st + 2 ^ st = (2 * b + 1) * 2 ^ st)%nat)
      by (rewrite Nat.pow_succ_r'; lia).
    rewrite E2, E1.
    destruct (Hsum (2 * b)%nat) as [-> ->]; [lia|].
    destruct (Hsum (2 * b + 1)%nat) as [-> ->]; [lia|].
    split; [|ring].
    replace (2 ^ S st)%nat with (2 ^ st + 2 ^ st)%nat by (rewrite Nat.pow_succ_r'; lia).
    rewrite block_sum_app. f_equal. f_equal. lia.
Qed.

Lemma block_sum_ext (x y : list R) (start len : nat) :
  (forall i, (start <= i < start + len)%nat -> x !!! i = y !!! i) ->
  block_sum x start len = block_sum y start len.
Proof.
  intros H. unfold block_sum. f_equal. apply map_ext_in.
  intros i Hi. apply in_seq in Hi. apply H. lia.
Qed.

Lemma dft_bin_zero (x : list R) (N : nat) :
  dft_re x N 0 = block_sum x 0 N /\ dft_im x N 0 = 0.
Proof.
  unfold dft_re, dft_im, block_sum. split.
  - f_equal. apply map_ext. intros n. change (INR 0) with 0.
    replace (2 * PI * 0 * INR n / INR N) with 0 by (unfold Rdiv; ring).
    rewrite cos_0. ring.
  - apply Rsum_map_zero. intros n _. change (INR 0) with 0.
    replace (2 * PI * 0 * INR n / INR N) with 0 by (unfold Rdiv; ring).
    rewrite sin_0. ring.
Qed.

(** X5.  For every input of a size [N = 2^n >= 2], slot 0 of the buffer
    after [computeFFT] holds the absolute value of the sum of the samples,
    which is the magnitude of the discrete Fourier transform at bin 0: the
    missing reordering does not affect the bin of frequency zero. *)
Theorem computeFFT_bin_zero (n : nat) (buffer : list R) :
  (1 <= n)%nat -> length buffer = (2 ^ n)%nat ->
  computeFFT buffer (2 ^ n) !!! 0%nat = Rabs (block_sum buffer 0 (2 ^ n)) /\
  computeFFT buffer (2 ^ n) !!! 0%nat = dft_magnitude buffer (2 ^ n) 0.
Proof.
  intros Hn Hlen.
  assert (Hval : computeFFT buffer (2 ^ n) !!! 0%nat = Rabs (block_sum buffer 0 (2 ^ n))).
  { rewrite computeFFT_lookup by lia. cbv zeta.
    assert (H2 : (2 <= 2 ^ n)%nat).
    { change 2%nat with (2 ^ 1)%nat at 1. apply Nat.pow_le_mono_r; lia. }
    assert (Hh : (1 <= 2 ^ n / 2)%nat) by (apply Nat.div_le_lower_bound; lia).
    destruct (decide (0 < 2 ^ n / 2)%nat); [|lia].
    rewrite fft_stages_pow2.
    destruct (fft_stages_block_sums n n (fft_init buffer (2 ^ n)))
      as [_ Hsum]; [lia|apply fft_init_lengths|apply fft_init_imag|].
    destruct (Hsum 0%nat) as [Hr Hi].
    { rewrite Nat.sub_diag. change (2 ^ 0)%nat with 1%nat. lia. }
    rewrite Nat.mul_0_l in Hr, Hi. rewrite Hr, Hi.
    rewrite (block_sum_ext _ buffer).
    - replace (block_sum buffer 0 (2 ^ n) * block_sum buffer 0 (2 ^ n) + 0 * 0)
        with (block_sum buffer 0 (2 ^ n))² by (unfold Rsqr; ring).
      apply sqrt_Rsqr_abs.
    - intros i Hi'. rewrite fft_init_real.
      destruct (decide (i < 2 ^ n)%nat); [reflexivity|lia]. }
  split; [exact Hval|]. rewrite Hval. unfold dft_magnitude.
  destruct (dft_bin_zero buffer (2 ^ n)) as [-> ->].
  replace (block_sum buffer 0 (2 ^ n) * block_sum buffer 0 (2 ^ n) + 0 * 0)
    with (block_sum buffer 0 (2 ^ n))² by (unfold Rsqr; ring).
  symmetry. apply sqrt_Rsqr_abs.
Qed.

(** The statement on four samples. *)
Lemma computeFFT_bin_zero_witness :
  computeFFT [3; -2; 5; 7] (2 ^ 2) !!! 0%nat = Rabs (block_sum [3; -2; 5; 7] 0 (2 ^ 2)) /\
  computeFFT [3; -2; 5; 7] (2 ^ 2) !!! 0%nat = dft_magnitude [3; -2; 5; 7] (2 ^ 2) 0.
Proof.
  apply (computeFFT_bin_zero 2 [3; -2; 5; 7]); [lia|reflexivity].
Defined.

(** ** hzToMel, melToHz and the bin indices *)

Lemma melToHz_hzToMel (hz : R) : -700 < hz -> melToHz (hzToMel hz) = hz.
Proof.
  intros H. unfold melToHz, hzToMel, powf, log10f, Rpower.
  pose proof ln_10_pos as H10.
  replace (2595 * (ln (1 + hz / 700) / ln 10) / 2595 * ln 10)
    with (ln (1 + hz / 700)) by (field; lra).
  rewrite exp_ln by lra. field.
Qed.

Lemma hzToMel_melToHz (mel : R) : hzToMel (melToHz mel) = mel.
Proof.
  unfold melToHz, hzToMel, powf, log10f, Rpower.
  pose proof ln_10_pos as H10.
  replace (1 + 700 * (exp (mel / 2595 * ln 10) - 1) / 700)
    with (exp (mel / 2595 * ln 10)) by field.
  rewrite ln_exp. field. lra.
Qed.

(** X6.  The two conversions are inverse to each other: [melToHz] undoes
    [hzToMel] on every frequency above -700 Hz (where the logarithm is
    defined), [hzToMel] undoes [melToHz] on every mel value, and 0 Hz is
    0 mel. *)
Theorem mel_scale_round_trip (hz mel : R) :
  -700 < hz ->
  melToHz (hzToMel hz) = hz /\ hzToMel (melToHz mel) = mel /\
  hzToMel 0 = 0 /\ melToHz 0 = 0.
Proof.
  intros H. split; [apply melToHz_hzToMel; exact H|].
  split; [apply hzToMel_melToHz|].
  assert (H0 : melToHz 0 = 0).
  { unfold melToHz, powf, Rpower.
    replace (0 / 2595 * ln 10) with 0 by (unfold Rdiv; ring). rewrite exp_0. ring. }
  split; [|exact H0]. rewrite <- H0 at 1. apply hzToMel_melToHz.
Qed.

(** The statement at 1000 Hz and 1000 mel. *)
Lemma mel_scale_round_trip_witness :
  melToHz (hzToMel 1000) = 1000 /\ hzToMel (melToHz 1000) = 1000 /\
  hzToMel 0 = 0 /\ melToHz 0 = 0.
Proof.
  apply (mel_scale_round_trip 1000 1000). lra.
Defined.

Lemma fft_indices_le (a b : nat) :
  (a <= b)%nat -> (b < Z.to_nat (NUM_MELS + 2))%nat ->
  (fft_indices !!! a <= fft_indices !!! b)%Z.
Proof.
  intros Hab Hb. rewrite !fft_indices_lookup by lia.
  apply roundf_le.
  change (IZR FFT_SIZE) with 512. change (IZR SAMPLE_RATE) with 16000.
  assert (Hm : melToHz (mel_min + INR a * mel_step)
               <= melToHz (mel_min + INR b * mel_step)).
  { apply melToHz_le. apply Rplus_le_compat_l.
    apply Rmult_le_compat_r; [apply mel_step_nonneg|]. apply le_INR. exact Hab. }
  lra.
Qed.

(** The first point is the minimum frequency, that falls in bin 1. *)
Lemma fft_indices_first : fft_indices !!! 0%nat = 1%Z.
Proof.
  rewrite fft_indices_lookup by (vm_compute; lia).
  change (INR 0) with 0. rewrite Rmult_0_l, Rplus_0_r.
  unfold mel_min. change (IZR MIN_FREQ) with 20.
  rewrite melToHz_hzToMel by lra.
  change (IZR FFT_SIZE) with 512. change (IZR SAMPLE_RATE) with 16000.
  unfold roundf. destruct (Rle_dec 0 (20 * 512 / 16000)); [|lra].
  symmetry. apply Int_part_spec. simpl. lra.
Qed.

(** The last point is the maximum frequency, the Nyquist bin 256. *)
Lemma fft_indices_last : fft_indices !!! 41%nat = 256%Z.
Proof.
  rewrite fft_indices_lookup by (vm_compute; lia).
  assert (Hmax : mel_min + INR 41 * mel_step = mel_max).
  { unfold mel_step. change (IZR (NUM_MELS + 1)) with 41.
    replace (INR 41) with 41 by (rewrite INR_IZR_INZ; reflexivity). field. }
  rewrite Hmax. unfold mel_max. change (IZR MAX_FREQ) with 8000.
  rewrite melToHz_hzToMel by lra.
  change (IZR FFT_SIZE) with 512. change (IZR SAMPLE_RATE) with 16000.
  unfold roundf. destruct (Rle_dec 0 (8000 * 512 / 16000)); [|lra].
  symmetry. apply Int_part_spec. simpl. lra.
Qed.

Lemma fft_indices_range (i : nat) :
  (i < Z.to_nat (NUM_MELS + 2))%nat -> (1 <= fft_indices !!! i <= 256)%Z.
Proof.
  intros Hi. assert (Hi' : (i <= 41)%nat) by (unfold NUM_MELS in Hi; lia).
  pose proof (fft_indices_le 0 i) as H0. pose proof (fft_indices_le i 41) as H1.
  rewrite fft_indices_first in H0. rewrite fft_indices_last in H1.
  split; [apply H0; lia|apply H1; [lia|vm_compute; lia]].
Qed.

Lemma filter_all {A : Type} (p : A -> bool) (l : list A) :
  (forall x, In x l -> p x = true) -> List.filter p l = l.
Proof.
  induction l as [|x l IH]; intros H; [reflexivity|]. cbn [List.filter].
  rewrite (H x) by (left; reflexivity). f_equal.
  apply IH. intros y Hy. apply H. right. exact Hy.
Qed.

(** X7.  With the configured frequencies the table of bin indices starts
    at bin 1 and ends at bin 256, so every bin that [computeMelFilterbank]
    reads lies in 1..255: the reads stay inside the magnitude half of the
    buffer, the test [j < FFT_SIZE/2] never fails, bin 0 is never used, and
    each energy is the plain sum over [left <= j < right]. *)
Theorem computeMelFilterbank_reads (fft_mags mel_energies : list R) (i : nat) :
  (i < Z.to_nat NUM_MELS)%nat -> length mel_energies = Z.to_nat NUM_MELS ->
  fft_indices !!! 0%nat = 1%Z /\ fft_indices !!! 41%nat = 256%Z /\
  (forall j, (fft_indices !!! i <= j < fft_indices !!! (i + 2)%nat)%Z ->
             (1 <= j < FFT_SIZE / 2)%Z) /\
  computeMelFilterbank fft_mags mel_energies !!! i =
    Rsum (map (fun j => rdZ fft_mags j * mel_weight fft_indices i j)
            (zrange (fft_indices !!! i) (fft_indices !!! (i + 2)%nat))).
Proof.
  intros Hi Hlen.
  split; [apply fft_indices_first|]. split; [apply fft_indices_last|].
  assert (Hlo : (1 <= fft_indices !!! i)%Z)
    by (apply fft_indices_range; unfold NUM_MELS in *; lia).
  assert (Hhi : (fft_indices !!! (i + 2)%nat <= 256)%Z)
    by (apply fft_indices_range; unfold NUM_MELS in *; lia).
  change (FFT_SIZE / 2)%Z with 256%Z.
  split; [intros j Hj; lia|].
  unfold computeMelFilterbank. rewrite applyMelFilters_lookup by lia.
  unfold band_energy_spec. rewrite filter_all; [reflexivity|].
  intros x Hx. apply zrange_In in Hx. apply Z.ltb_lt.
  change (FFT_SIZE / 2)%Z with 256%Z. lia.
Qed.

(** The statement for the last filter on a flat spectrum. *)
Lemma computeMelFilterbank_reads_witness :
  let fft_mags := replicate 512 1 in
  let mel_energies := replicate 40 0 in
  fft_indices !!! 0%nat = 1%Z /\ fft_indices !!! 41%nat = 256%Z /\
  (forall j, (fft_indices !!! 39%nat <= j < fft_indices !!! (39 + 2)%nat)%Z ->
             (1 <= j < FFT_SIZE / 2)%Z) /\
  computeMelFilterbank fft_mags mel_energies !!! 39%nat =
    Rsum (map (fun j => rdZ fft_mags j * mel_weight fft_indices 39 j)
            (zrange (fft_indices !!! 39%nat) (fft_indices !!! (39 + 2)%nat))).
Proof.
  apply (computeMelFilterbank_reads (replicate 512 1) (replicate 40 0) 39).
  - vm_compute. lia.
  - reflexivity.
Defined.

(** ** The filterbank and the normaliser under scaling *)

(** The energies only use the first [FFT_SIZE/2] magnitudes. *)
Lemma rdZ_half (mags : list R) (j : Z) (P : R -> Prop) :
  P 0 -> (forall k, (k < 256)%nat -> P (mags !!! k)) ->
  (j <? FFT_SIZE / 2)%Z = true -> P (rdZ mags j).
Proof.
  intros H0 H Hj. apply Z.ltb_lt in Hj. change (FFT_SIZE / 2)%Z with 256%Z in Hj.
  unfold rdZ. destruct (Z.ltb_spec j 0); [exact H0|]. apply H. lia.
Qed.

Lemma band_energy_spec_nonneg_half (l c r : Z) (mags : list R) :
  (forall k, (k < 256)%nat -> 0 <= mags !!! k) -> 0 <= band_energy_spec l c r mags.
Proof.
  intros Hm. unfold band_energy_spec. apply Rsum_nonneg.
  intros x Hx. apply in_map_iff in Hx. destruct Hx as [j [<- Hj]].
  apply filter_In in Hj. destruct Hj as [Hj Hg]. apply zrange_In in Hj.
  apply Rmult_le_pos; [|apply weight_spec_nonneg; exact Hj].
  apply (rdZ_half mags j (fun x => 0 <= x)); [lra|exact Hm|exact Hg].
Qed.

Lemma Rsum_map_scaled {A : Type} (c : R) (f g : A -> R) (l : list A) :
  (forall x, In x l -> g x = c * f x) -> Rsum (map g l) = c * Rsum (map f l).
Proof.
  induction l as [|x l IH]; intros H; simpl; [ring|].
  rewrite (H x) by (left; reflexivity).
  rewrite IH by (intros y Hy; apply H; right; exact Hy). ring.
Qed.

Lemma band_energy_spec_scaled (c : R) (l cn r : Z) (mags mags' : list R) :
  (forall k, (k < 256)%nat -> mags' !!! k = c * mags !!! k) ->
  band_energy_spec l cn r mags' = c * band_energy_spec l cn r mags.
Proof.
  intros Hm. unfold band_energy_spec. apply Rsum_map_scaled.
  intros j Hj. apply filter_In in Hj. destruct Hj as [_ Hg].
  pose proof Hg as Hg'. apply Z.ltb_lt in Hg'. change (FFT_SIZE / 2)%Z with 256%Z in Hg'.
  unfold rdZ. destruct (Z.ltb_spec j 0); [ring|].
  rewrite Hm by lia. ring.
Qed.

Lemma max_scan_scaled (c : R) (a a' : list R) (size : nat) :
  0 <= c -> (forall i, (i < size)%nat -> a' !!! i = c * a !!! i) ->
  max_scan a' size = c * max_scan a size.
Proof.
  intros Hc Hv. unfold max_scan. induction size as [|n IH]; [cbn; ring|].
  rewrite !for_range_S, Nat.add_0_l, IH by (intros i Hi; apply Hv; lia).
  rewrite (Hv n) by lia.
  set (mx := for_range 0 n _ 0).
  destruct (Rgt_dec (c * a !!! n) (c * mx)), (Rgt_dec (a !!! n) mx);
    try reflexivity; nra.
Qed.

(** The normalised matrix does not change when a matrix without negative
    values is multiplied by a positive factor. *)
Lemma normalizeSpectrogram_scaled (c : R) (a a' : list R) :
  0 < c -> (forall i, 0 <= a !!! i) -> list_scaled c a a' ->
  normalizeSpectrogram a' (length a) = normalizeSpectrogram a (length a).
Proof.
  intros Hc Hnn [Hl Hv].
  assert (Hmx : max_scan a' (length a) = c * max_scan a (length a))
    by (apply max_scan_scaled; [lra|intros i _; apply Hv]).
  destruct (max_scan_spec a (length a)) as [H0 [Hub _]].
  apply list_total_ext.
  - rewrite !normalizeSpectrogram_length by lia. exact Hl.
  - intros i Hi. rewrite normalizeSpectrogram_length, Hl in Hi by lia.
    rewrite !normalizeSpectrogram_lookup by lia. rewrite Hmx, Hv.
    pose proof (Hub i Hi) as Hle. pose proof (Hnn i) as Hge.
    destruct (Rgt_dec (c * max_scan a (length a)) 0), (Rgt_dec (max_scan a (length a)) 0).
    + field. lra.
    + nra.
    + nra.
    + assert (Hz : a !!! i = 0) by lra. rewrite Hz. ring.
Qed.

(** X8.  [normalizeSpectrogram] removes the scale: a matrix without
    negative values and the same matrix multiplied by any factor [c > 0]
    have the same normalised matrix. *)
Theorem normalizeSpectrogram_scale_invariant (c : R) (spectrogram : list R) :
  0 < c -> (forall x, In x spectrogram -> 0 <= x) ->
  normalizeSpectrogram (map (Rmult c) spectrogram) (length spectrogram) =
  normalizeSpectrogram spectrogram (length spectrogram).
Proof.
  intros Hc Hnn. apply (normalizeSpectrogram_scaled c); [exact Hc| |apply map_scaled].
  intros i. destruct (decide (i < length spectrogram)%nat) as [Hi|Hi].
  - apply Hnn. apply In_lookup_total. exists i. split; [exact Hi|reflexivity].
  - rewrite lookup_total_ge by lia. lra.
Qed.

(** The statement on three values and the factor 5. *)
Lemma normalizeSpectrogram_scale_invariant_witness :
  normalizeSpectrogram (map (Rmult 5) [2; 4; 1]) (length [2; 4; 1]) =
  normalizeSpectrogram [2; 4; 1] (length [2; 4; 1]).
Proof.
  apply (normalizeSpectrogram_scale_invariant 5 [2; 4; 1]); [lra|].
  intros x Hx. simpl in Hx. destruct Hx as [<-|[<-|[<-|[]]]]; lra.
Defined.

(** X9.  A matrix with no positive value is returned as it is, negative
    values included: the scan starts from 0, so the maximum found is 0 and
    nothing is divided. *)
Theorem normalizeSpectrogram_no_positive (spectrogram : list R) (size : nat) :
  (forall i, (i < size)%nat -> spectrogram !!! i <= 0) ->
  max_scan spectrogram size = 0 /\ normalizeSpectrogram spectrogram size = spectrogram.
Proof.
  intros H.
  assert (Hz : max_scan spectrogram size = 0).
  { destruct (max_scan_spec spectrogram size) as [H0 [_ [Hz|[i [Hi Hv]]]]]; [exact Hz|].
    specialize (H i Hi). lra. }
  split; [exact Hz|apply normalizeSpectrogram_zero; exact Hz].
Qed.

(** The statement on three values, none positive. *)
Lemma normalizeSpectrogram_no_positive_witness :
  max_scan [-2; 0; -1] 3 = 0 /\ normalizeSpectrogram [-2; 0; -1] 3 = [-2; 0; -1].
Proof.
  apply (normalizeSpectrogram_no_positive [-2; 0; -1] 3).
  intros i Hi. destruct i as [|[|[|i]]]; [| | |lia].
  - change ([-2; 0; -1] !!! 0%nat) with (-2). lra.
  - change ([-2; 0; -1] !!! 1%nat) with 0. lra.
  - change ([-2; 0; -1] !!! 2%nat) with (-1). lra.
Defined.

(** ** audioToMelSpectrogram: what the output depends on *)

Lemma applyHannWindow_scaled (c : R) (a a' : list R) (size : nat) :
  (size <= length a)%nat -> list_scaled c a a' ->
  list_scaled c (applyHannWindow a size) (applyHannWindow a' size).
Proof.
  intros Hs [Hl Hv]. split.
  - rewrite !applyHannWindow_length by lia. exact Hl.
  - intros i. rewrite !applyHannWindow_lookup by lia. rewrite Hv.
    destruct (decide (i < size)%nat); ring.
Qed.

(** The samples that the frames read: the first [(F-1)*H + N] of the
    buffer. *)
Lemma frame_index_bound (f i : nat) :
  (f < Z.to_nat NUM_FRAMES)%nat -> (i < Z.to_nat FFT_SIZE)%nat ->
  (0 <= Z.of_nat f * HOP_LENGTH + Z.of_nat i < 8192)%Z.
Proof. unfold NUM_FRAMES, FFT_SIZE, HOP_LENGTH. lia. Qed.

Lemma extract_frame_scaled (c : R) (m m' : mem) (audio : Z) (f : nat) (buf : list R) :
  (f < Z.to_nat NUM_FRAMES)%nat -> length buf = Z.to_nat FFT_SIZE ->
  (forall idx, (0 <= idx < 8192)%Z -> m' (audio + idx)%Z = c * m (audio + idx)%Z) ->
  list_scaled c (extract_frame m audio f buf) (extract_frame m' audio f buf).
Proof.
  intros Hf Hlen Hm. split.
  - rewrite !extract_frame_length by lia. reflexivity.
  - intros i. destruct (decide (i < length buf)%nat) as [Hi|Hi].
    + rewrite !extract_frame_lookup by lia.
      destruct (decide (i < Z.to_nat FFT_SIZE)%nat); [|lia]. cbv zeta.
      pose proof (frame_index_bound f i Hf ltac:(lia)) as Hb.
      destruct (Z.ltb_spec (Z.of_nat f * HOP_LENGTH + Z.of_nat i) BUFFER_SIZE).
      * apply Hm. exact Hb.
      * ring.
    + rewrite !lookup_total_ge by (rewrite extract_frame_length; lia). ring.
Qed.

Lemma frame_energies_length (m : mem) (audio : Z) (f : nat) :
  length (frame_energies m audio f) = Z.to_nat NUM_MELS.
Proof.
  unfold frame_energies, computeMelFilterbank.
  rewrite applyMelFilters_length. apply length_replicate.
Qed.

Lemma frame_energies_lookup (m : mem) (audio : Z) (f b : nat) :
  (b < Z.to_nat NUM_MELS)%nat ->
  frame_energies m audio f !!! b =
  band_energy_spec (fft_indices !!! b) (fft_indices !!! (b + 1)%nat)
    (fft_indices !!! (b + 2)%nat)
    (computeFFT
       (applyHannWindow
          (extract_frame m audio f (replicate (Z.to_nat FFT_SIZE) 0)) (Z.to_nat FFT_SIZE))
       (Z.to_nat FFT_SIZE)).
Proof.
  intros Hb. unfold frame_energies, computeMelFilterbank. cbv zeta.
  apply applyMelFilters_lookup; [exact Hb|]. rewrite length_replicate. lia.
Qed.

Lemma frame_buffer_length (m : mem) (audio : Z) (f : nat) :
  length (applyHannWindow
            (extract_frame m audio f (replicate (Z.to_nat FFT_SIZE) 0)) (Z.to_nat FFT_SIZE))
  = Z.to_nat FFT_SIZE.
Proof.
  assert (H : length (extract_frame m audio f (replicate (Z.to_nat FFT_SIZE) 0))
              = Z.to_nat FFT_SIZE).
  { rewrite extract_frame_length; rewrite length_replicate; lia. }
  rewrite applyHannWindow_length; lia.
Qed.

(** The energies of a frame are never negative. *)
Lemma frame_energies_nonneg (m : mem) (audio : Z) (f b : nat) :
  0 <= frame_energies m audio f !!! b.
Proof.
  destruct (decide (b < Z.to_nat NUM_MELS)%nat) as [Hb|Hb].
  - rewrite frame_energies_lookup by exact Hb.
    apply band_energy_spec_nonneg_half. intros k Hk.
    rewrite computeFFT_lookup by (rewrite frame_buffer_length; lia). cbv zeta.
    destruct (decide (k < Z.to_nat FFT_SIZE / 2)%nat) as [_|Hn]; [apply sqrt_pos|].
    exfalso. apply Hn. change (Z.to_nat FFT_SIZE / 2)%nat with 256%nat. exact Hk.
  - rewrite lookup_total_ge by (rewrite frame_energies_length; lia). lra.
Qed.

(** When the samples that the frames read are multiplied by [c >= 0], so
    are the energies. *)
Lemma frame_energies_scaled (c : R) (m m' : mem) (audio : Z) (f b : nat) :
  0 <= c -> (f < Z.to_nat NUM_FRAMES)%nat -> (b < Z.to_nat NUM_MELS)%nat ->
  (forall idx, (0 <= idx < 8192)%Z -> m' (audio + idx)%Z = c * m (audio + idx)%Z) ->
  frame_energies m' audio f !!! b = c * frame_energies m audio f !!! b.
Proof.
  intros Hc Hf Hb Hm. rewrite !frame_energies_lookup by exact Hb.
  apply band_energy_spec_scaled. intros k Hk.
  rewrite (computeFFT_scaled c
             (applyHannWindow
                (extract_frame m audio f (replicate (Z.to_nat FFT_SIZE) 0))
                (Z.to_nat FFT_SIZE))).
  - destruct (decide (k < Z.to_nat FFT_SIZE / 2)%nat) as [_|Hn].
    + rewrite Rabs_right by lra. reflexivity.
    + exfalso. apply Hn. change (Z.to_nat FFT_SIZE / 2)%nat with 256%nat. exact Hk.
  - rewrite frame_buffer_length. lia.
  - apply applyHannWindow_scaled.
    + rewrite extract_frame_length; rewrite length_replicate; lia.
    + apply extract_frame_scaled; [exact Hf|apply length_replicate|exact Hm].
Qed.

Lemma raw_spectrogram_index (m : mem) (audio : Z) (i : nat) :
  (i < Z.to_nat (NUM_MELS * NUM_FRAMES))%nat ->
  raw_spectrogram m audio !!! i =
    frame_energies m audio (i mod Z.to_nat NUM_FRAMES) !!! (i / Z.to_nat NUM_FRAMES)%nat /\
  (i mod Z.to_nat NUM_FRAMES < Z.to_nat NUM_FRAMES)%nat /\
  (i / Z.to_nat NUM_FRAMES < Z.to_nat NUM_MELS)%nat.
Proof.
  intros Hi. split; [|split].
  - unfold raw_spectrogram.
    apply (lookup_total_map_seq
             (fun i => frame_energies m audio (i mod Z.to_nat NUM_FRAMES)
                         !!! (i / Z.to_nat NUM_FRAMES)%nat)). exact Hi.
  - apply Nat.mod_upper_bound. unfold NUM_FRAMES. lia.
  - apply Nat.Div0.div_lt_upper_bound. unfold NUM_MELS, NUM_FRAMES in *. lia.
Qed.

Lemma raw_spectrogram_nonneg (m : mem) (audio : Z) (i : nat) :
  0 <= raw_spectrogram m audio !!! i.
Proof.
  destruct (decide (i < Z.to_nat (NUM_MELS * NUM_FRAMES))%nat) as [Hi|Hi].
  - destruct (raw_spectrogram_index m audio i Hi) as [-> _]. apply frame_energies_nonneg.
  - rewrite lookup_total_ge by (rewrite raw_spectrogram_length; lia). lra.
Qed.

Lemma raw_spectrogram_scaled (c : R) (m m' : mem) (audio : Z) :
  0 <= c ->
  (forall idx, (0 <= idx < 8192)%Z -> m' (audio + idx)%Z = c * m (audio + idx)%Z) ->
  list_scaled c (raw_spectrogram m audio) (raw_spectrogram m' audio).
Proof.
  intros Hc Hm. split; [rewrite !raw_spectrogram_length; reflexivity|].
  intros i. destruct (decide (i < Z.to_nat (NUM_MELS * NUM_FRAMES))%nat) as [Hi|Hi].
  - destruct (raw_spectrogram_index m audio i Hi) as [-> [Hf Hb]].
    destruct (raw_spectrogram_index m' audio i Hi) as [-> _].
    apply frame_energies_scaled; assumption.
  - rewrite !lookup_total_ge by (rewrite raw_spectrogram_length; lia). ring.
Qed.

(** The range of a normalised matrix without negative values. *)
Lemma normalizeSpectrogram_range (a : list R) (i : nat) :
  (forall k, 0 <= a !!! k) -> (i < length a)%nat ->
  0 <= normalizeSpectrogram a (length a) !!! i <= 1.
Proof.
  intros Hnn Hi. rewrite normalizeSpectrogram_lookup by lia.
  destruct (max_scan_spec a (length a)) as [H0 [Hub _]].
  pose proof (Hub i Hi) as Hle. pose proof (Hnn i) as Hge.
  destruct (Rgt_dec (max_scan a (length a)) 0) as [Hpos|Hz]; [|lra].
  assert (Hinv : 0 < / max_scan a (length a)) by (apply Rinv_0_lt_compat; lra).
  split.
  - unfold Rdiv. apply Rmult_le_pos; lra.
  - apply (Rmult_le_reg_r (max_scan a (length a))); [lra|].
    unfold Rdiv. rewrite Rmult_assoc, Rinv_l by lra. lra.
Qed.

(** X10.  Whatever the audio is, every value of the output of
    [audioToMelSpectrogram] lies in [0, 1]; and either all of them are 0
    or one of them is exactly 1.  The audio and the output are two arrays
    that do not overlap. *)
Theorem spectrogram_range (fft_buffer mel_energies : list R) (audio spectrogram : Z)
    (m : mem) :
  length fft_buffer = Z.to_nat FFT_SIZE -> length mel_energies = Z.to_nat NUM_MELS ->
  separate audio spectrogram ->
  let size := Z.to_nat (NUM_MELS * NUM_FRAMES) in
  let out := audioToMelSpectrogram fft_buffer mel_energies audio spectrogram m in
  (forall i, (i < size)%nat -> 0 <= out (spectrogram + Z.of_nat i)%Z <= 1) /\
  ((forall i, (i < size)%nat -> out (spectrogram + Z.of_nat i)%Z = 0) \/
   (exists i, (i < size)%nat /\ out (spectrogram + Z.of_nat i)%Z = 1)).
Proof.
  intros Hfb Hme Hsep. cbv zeta.
  destruct (audioToMelSpectrogram_spec fft_buffer mel_energies audio spectrogram m
              Hfb Hme Hsep) as [_ Hin].
  set (size := Z.to_nat (NUM_MELS * NUM_FRAMES)) in *.
  set (raw := raw_spectrogram m audio) in *.
  assert (Hlen : length raw = size) by apply raw_spectrogram_length.
  assert (Hnn : forall k, 0 <= raw !!! k) by (intros k; apply raw_spectrogram_nonneg).
  split.
  - intros i Hi. rewrite (Hin i Hi), <- Hlen.
    apply normalizeSpectrogram_range; [exact Hnn|lia].
  - destruct (max_scan_spec raw size) as [H0 [Hub Hat]].
    destruct Hat as [Hz|[i [Hi Hv]]].
    + left. intros i Hi. rewrite (Hin i Hi), (normalizeSpectrogram_zero _ _ Hz).
      pose proof (Hub i Hi). pose proof (Hnn i). lra.
    + destruct (Rle_lt_or_eq_dec _ _ H0) as [Hpos|Hz].
      * right. exists i. split; [exact Hi|].
        rewrite (Hin i Hi), normalizeSpectrogram_lookup by lia.
        destruct (Rgt_dec (max_scan raw size) 0); [|lra].
        rewrite Hv. unfold Rdiv. apply Rinv_r. lra.
      * left. intros k Hk. symmetry in Hz.
        rewrite (Hin k Hk), (normalizeSpectrogram_zero _ _ Hz).
        pose proof (Hub k Hk). pose proof (Hnn k). lra.
Qed.

(** The statement with the audio at address 0, the output right after it,
    and a memory that holds [a] at address [a]. *)
Lemma spectrogram_range_witness :
  let size := Z.to_nat (NUM_MELS * NUM_FRAMES) in
  let out := audioToMelSpectrogram (replicate (Z.to_nat FFT_SIZE) 0)
               (replicate (Z.to_nat NUM_MELS) 0) 0 BUFFER_SIZE IZR in
  (forall i, (i < size)%nat -> 0 <= out (BUFFER_SIZE + Z.of_nat i)%Z <= 1) /\
  ((forall i, (i < size)%nat -> out (BUFFER_SIZE + Z.of_nat i)%Z = 0) \/
   (exists i, (i < size)%nat /\ out (BUFFER_SIZE + Z.of_nat i)%Z = 1)).
Proof.
  apply (spectrogram_range (replicate (Z.to_nat FFT_SIZE) 0)
           (replicate (Z.to_nat NUM_MELS) 0) 0 BUFFER_SIZE IZR).
  - apply length_replicate.
  - apply length_replicate.
  - left. lia.
Defined.

(** Two memories whose samples differ by a factor [c > 0] give the same
    output. *)
Lemma audioToMelSpectrogram_scaled (c : R) (fb fb' me me' : list R)
    (audio spectrogram : Z) (m m' : mem) (i : nat) :
  0 < c ->
  length fb = Z.to_nat FFT_SIZE -> length me = Z.to_nat NUM_MELS ->
  length fb' = Z.to_nat FFT_SIZE -> length me' = Z.to_nat NUM_MELS ->
  separate audio spectrogram ->
  (forall idx, (0 <= idx < 8192)%Z -> m' (audio + idx)%Z = c * m (audio + idx)%Z) ->
  (i < Z.to_nat (NUM_MELS * NUM_FRAMES))%nat ->
  audioToMelSpectrogram fb' me' audio spectrogram m' (spectrogram + Z.of_nat i)%Z =
  audioToMelSpectrogram fb me audio spectrogram m (spectrogram + Z.of_nat i)%Z.
Proof.
  intros Hc Hfb Hme Hfb' Hme' Hsep Hm Hi.
  destruct (audioToMelSpectrogram_spec fb me audio spectrogram m Hfb Hme Hsep)
    as [_ Hin].
  destruct (audioToMelSpectrogram_spec fb' me' audio spectrogram m' Hfb' Hme' Hsep)
    as [_ Hin'].
  rewrite (Hin i Hi), (Hin' i Hi).
  rewrite <- (raw_spectrogram_length m audio).
  rewrite (normalizeSpectrogram_scaled c (raw_spectrogram m audio)
             (raw_spectrogram m' audio)); [reflexivity|exact Hc| |].
  - intros k. apply raw_spectrogram_nonneg.
  - apply raw_spectrogram_scaled; [lra|exact Hm].
Qed.

(** X11.  The output of [audioToMelSpectrogram] is a function of the first
    8192 samples of the audio buffer only: two memories that agree on
    [audio[0..8191]] give the same output, whatever the last 160 samples of
    the buffer, the rest of the memory, the former contents of the output
    array and the local arrays hold.  (The last frame starts at sample
    [48*160] and ends at sample 8191.) *)
Theorem spectrogram_depends_on_samples (fb fb' me me' : list R)
    (audio spectrogram : Z) (m m' : mem) (i : nat) :
  length fb = Z.to_nat FFT_SIZE -> length me = Z.to_nat NUM_MELS ->
  length fb' = Z.to_nat FFT_SIZE -> length me' = Z.to_nat NUM_MELS ->
  separate audio spectrogram ->
  (forall idx, (0 <= idx < 8192)%Z -> m' (audio + idx)%Z = m (audio + idx)%Z) ->
  (i < Z.to_nat (NUM_MELS * NUM_FRAMES))%nat ->
  audioToMelSpectrogram fb' me' audio spectrogram m' (spectrogram + Z.of_nat i)%Z =
  audioToMelSpectrogram fb me audio spectrogram m (spectrogram + Z.of_nat i)%Z.
Proof.
  intros Hfb Hme Hfb' Hme' Hsep Hm Hi.
  apply (audioToMelSpectrogram_scaled 1); try assumption; [lra|].
  intros idx Hidx. rewrite (Hm idx Hidx). ring.
Qed.

(** The statement for two memories that differ from sample 8192 on (and
    everywhere else outside the first 8192 samples), with different local
    arrays. *)
Lemma spectrogram_depends_on_samples_witness :
  let m : mem := IZR in
  let m' : mem := fun a => if (a <? 8192)%Z then IZR a else 7 in
  audioToMelSpectrogram (replicate (Z.to_nat FFT_SIZE) 1) (replicate (Z.to_nat NUM_MELS) 2)
    0 BUFFER_SIZE m' (BUFFER_SIZE + Z.of_nat 5)%Z =
  audioToMelSpectrogram (replicate (Z.to_nat FFT_SIZE) 0) (replicate (Z.to_nat NUM_MELS) 0)
    0 BUFFER_SIZE m (BUFFER_SIZE + Z.of_nat 5)%Z.
Proof.
  apply (spectrogram_depends_on_samples
           (replicate (Z.to_nat FFT_SIZE) 0) (replicate (Z.to_nat FFT_SIZE) 1)
           (replicate (Z.to_nat NUM_MELS) 0) (replicate (Z.to_nat NUM_MELS) 2)
           0 BUFFER_SIZE IZR (fun a => if (a <? 8192)%Z then IZR a else 7) 5).
  - apply length_replicate.
  - apply length_replicate.
  - apply length_replicate.
  - apply length_replicate.
  - left. lia.
  - intros idx Hidx. destruct (Z.ltb_spec (0 + idx) 8192); [reflexivity|lia].
  - unfold NUM_MELS, NUM_FRAMES. lia.
Defined.

(** X12.  The output of [audioToMelSpectrogram] does not depend on the
    volume: when every sample is multiplied by the same factor [c > 0],
    the output is the same. *)
Theorem spectrogram_gain_invariant (c : R) (fft_buffer mel_energies : list R)
    (audio spectrogram : Z) (m m' : mem) (i : nat) :
  0 < c ->
  length fft_buffer = Z.to_nat FFT_SIZE -> length mel_energies = Z.to_nat NUM_MELS ->
  separate audio spectrogram ->
  (forall idx, (0 <= idx < BUFFER_SIZE)%Z -> m' (audio + idx)%Z = c * m (audio + idx)%Z) ->
  (i < Z.to_nat (NUM_MELS * NUM_FRAMES))%nat ->
  audioToMelSpectrogram fft_buffer mel_energies audio spectrogram m'
    (spectrogram + Z.of_nat i)%Z =
  audioToMelSpectrogram fft_buffer mel_energies audio spectrogram m
    (spectrogram + Z.of_nat i)%Z.
Proof.
  intros Hc Hfb Hme Hsep Hm Hi.
  apply (audioToMelSpectrogram_scaled c); try assumption.
  intros idx Hidx. apply Hm. unfold BUFFER_SIZE, NUM_FRAMES, HOP_LENGTH, FFT_SIZE. lia.
Qed.

(** The statement for a memory and the same memory three times louder. *)
Lemma spectrogram_gain_invariant_witness :
  audioToMelSpectrogram (replicate (Z.to_nat FFT_SIZE) 0) (replicate (Z.to_nat NUM_MELS) 0)
    0 BUFFER_SIZE (fun a => 3 * IZR a) (BUFFER_SIZE + Z.of_nat 5)%Z =
  audioToMelSpectrogram (replicate (Z.to_nat FFT_SIZE) 0) (replicate (Z.to_nat NUM_MELS) 0)
    0 BUFFER_SIZE IZR (BUFFER_SIZE + Z.of_nat 5)%Z.
Proof.
  apply (spectrogram_gain_invariant 3
           (replicate (Z.to_nat FFT_SIZE) 0) (replicate (Z.to_nat NUM_MELS) 0)
           0 BUFFER_SIZE IZR (fun a => 3 * IZR a) 5).
  - lra.
  - apply length_replicate.
  - apply length_replicate.
  - left. lia.
  - intros idx Hidx. reflexivity.
  - unfold NUM_MELS, NUM_FRAMES. lia.
Defined.

(** X13.  Silence gives the zero vector: when the samples that the frames
    read are all 0, every value of the output is 0 (the maximum is 0 and
    nothing is divided). *)
Theorem spectrogram_of_silence (fft_buffer mel_energies : list R)
    (audio spectrogram : Z) (m : mem) (i : nat) :
  length fft_buffer = Z.to_nat FFT_SIZE -> length mel_energies = Z.to_nat NUM_MELS ->
  separate audio spectrogram ->
  (forall idx, (0 <= idx < 8192)%Z -> m (audio + idx)%Z = 0) ->
  (i < Z.to_nat (NUM_MELS * NUM_FRAMES))%nat ->
  max_scan (raw_spectrogram m audio) (Z.to_nat (NUM_MELS * NUM_FRAMES)) = 0 /\
  audioToMelSpectrogram fft_buffer mel_energies audio spectrogram m
    (spectrogram + Z.of_nat i)%Z = 0.
Proof.
  intros Hfb Hme Hsep Hm Hi.
  destruct (audioToMelSpectrogram_spec fft_buffer mel_energies audio spectrogram m
              Hfb Hme Hsep) as [_ Hin].
  assert (Hraw : forall k, raw_spectrogram m audio !!! k = 0).
  { intros k.
    destruct (raw_spectrogram_scaled 0 m m audio) as [_ Hv]; [lra| |].
    - intros idx Hidx. rewrite (Hm idx Hidx). ring.
    - rewrite Hv. ring. }
  assert (Hz : max_scan (raw_spectrogram m audio) (Z.to_nat (NUM_MELS * NUM_FRAMES)) = 0).
  { destruct (max_scan_spec (raw_spectrogram m audio) (Z.to_nat (NUM_MELS * NUM_FRAMES)))
      as [_ [_ [Hz|[k [_ Hk]]]]]; [exact Hz|]. rewrite <- Hk. apply Hraw. }
  split; [exact Hz|].
  rewrite (Hin i Hi), (normalizeSpectrogram_zero _ _ Hz). apply Hraw.
Qed.

(** The statement for a memory that is silent in the audio buffer only. *)
Lemma spectrogram_of_silence_witness :
  let m : mem := fun a => if (a <? 8192)%Z then 0 else 1 in
  max_scan (raw_spectrogram m 0) (Z.to_nat (NUM_MELS * NUM_FRAMES)) = 0 /\
  audioToMelSpectrogram (replicate (Z.to_nat FFT_SIZE) 0) (replicate (Z.to_nat NUM_MELS) 0)
    0 BUFFER_SIZE m (BUFFER_SIZE + Z.of_nat 5)%Z = 0.
Proof.
  apply (spectrogram_of_silence
           (replicate (Z.to_nat FFT_SIZE) 0) (replicate (Z.to_nat NUM_MELS) 0)
           0 BUFFER_SIZE (fun a => if (a <? 8192)%Z then 0 else 1) 5).
  - apply length_replicate.
  - apply length_replicate.
  - left. lia.
  - intros idx Hidx. destruct (Z.ltb_spec (0 + idx) 8192); [reflexivity|lia].
  - unfold NUM_MELS, NUM_FRAMES. lia.
Defined.

(** ** main.cpp: the diagnostics of the sample buffer *)

Lemma wrap32_small (z : Z) : (- 2 ^ 31 <= z < 2 ^ 31)%Z -> wrap32 z = z.
Proof.
  intros H. unfold wrap32. rewrite Z.mod_small by lia. lia.
Qed.

Lemma Zsum_app (l1 l2 : list Z) : Zsum (l1 ++ l2) = (Zsum l1 + Zsum l2)%Z.
Proof.
  induction l1 as [|x l1 IH]; simpl; [reflexivity|]. rewrite IH. lia.
Qed.

Lemma count_nonzero_app (l1 l2 : list Z) :
  count_nonzero (l1 ++ l2) = (count_nonzero l1 + count_nonzero l2)%Z.
Proof.
  unfold count_nonzero. rewrite List.filter_app, length_app. lia.
Qed.

Lemma count_nonzero_pos (l : list Z) :
  (0 < count_nonzero l)%Z -> exists s, In s l /\ s <> 0%Z.
Proof.
  unfold count_nonzero. intros H.
  destruct (List.filter (fun s => negb (s =? 0)%Z) l) as [|s t] eqn:E; [simpl in H; lia|].
  assert (Hs : In s (List.filter (fun s => negb (s =? 0)%Z) l)) by (rewrite E; left; reflexivity).
  apply filter_In in Hs. destruct Hs as [Hin Hnz]. exists s. split; [exact Hin|].
  destruct (Z.eqb_spec s 0); [discriminate|assumption].
Qed.

(** The diagnostics after [c] samples. *)
Lemma audio_diagnostics_inv (buf : list Z) (c : nat) :
  (c <= length buf)%nat -> (Z.of_nat c <= 8352)%Z -> (forall s, In s buf -> int16 s) ->
  let d := for_range 0 c (diag_step buf)
             {| max_sample := 0; min_sample := 0; sample_sum := 0; non_zero_count := 0 |} in
  (min_sample d <= 0 <= max_sample d)%Z /\
  (forall s, In s (take c buf) -> (min_sample d <= s <= max_sample d)%Z) /\
  (max_sample d = 0%Z \/ In (max_sample d) (take c buf)) /\
  (min_sample d = 0%Z \/ In (min_sample d) (take c buf)) /\
  sample_sum d = Zsum (take c buf) /\
  (- 32768 * Z.of_nat c <= sample_sum d <= 32767 * Z.of_nat c)%Z /\
  non_zero_count d = count_nonzero (take c buf) /\
  (0 <= non_zero_count d <= Z.of_nat c)%Z.
Proof.
  intros Hc Hmax Hint. induction c as [|c IH]; cbv zeta.
  - rewrite for_range_0. cbn [max_sample min_sample sample_sum non_zero_count take].
    repeat split; try lia; try (left; reflexivity);
      match goal with H : In _ (take 0 _) |- _ => destruct H end.
  - rewrite for_range_S, Nat.add_0_l.
    destruct IH as [H0 [Hb [Hmx [Hmn [Hsum [Hsb [Hnz Hnzb]]]]]]]; [lia|lia|].
    set (d := for_range 0 c (diag_step buf) _) in *.
    assert (Hlk : buf !! c = Some (buf !!! c)) by (apply list_lookup_lookup_total_lt; lia).
    assert (Hin : In (buf !!! c) buf).
    { apply list_elem_of_In. apply list_elem_of_lookup. exists c. exact Hlk. }
    pose proof (Hint _ Hin) as H16. unfold int16 in H16.
    rewrite (take_S_r buf c _ Hlk).
    unfold diag_step. cbv zeta. cbn [max_sample min_sample sample_sum non_zero_count].
    set (s := buf !!! c) in *.
    assert (Hin_app : forall x, In x (take c buf ++ [s]) <-> In x (take c buf) \/ x = s).
    { intros x. rewrite in_app_iff. simpl. intuition. }
    split; [destruct (Z.gtb_spec s (max_sample d)), (Z.ltb_spec s (min_sample d)); lia|].
    split.
    { intros x Hx. apply Hin_app in Hx. destruct Hx as [Hx| ->].
      - specialize (Hb x Hx).
        destruct (Z.gtb_spec s (max_sample d)), (Z.ltb_spec s (min_sample d)); lia.
      - destruct (Z.gtb_spec s (max_sample d)), (Z.ltb_spec s (min_sample d)); lia. }
    split.
    { destruct (Z.gtb_spec s (max_sample d)).
      - right. apply Hin_app. right. reflexivity.
      - destruct Hmx as [Hz|Hx]; [left; exact Hz|right; apply Hin_app; left; exact Hx]. }
    split.
    { destruct (Z.ltb_spec s (min_sample d)).
      - right. apply Hin_app. right. reflexivity.
      - destruct Hmn as [Hz|Hx]; [left; exact Hz|right; apply Hin_app; left; exact Hx]. }
    assert (Hs' : wrap32 (sample_sum d + s) = (sample_sum d + s)%Z)
      by (apply wrap32_small; lia).
    split; [rewrite Hs', Zsum_app, Hsum; simpl; lia|].
    split; [rewrite Hs'; lia|].
    rewrite count_nonzero_app.
    assert (Hn' : wrap32 (non_zero_count d + 1) = (non_zero_count d + 1)%Z)
      by (apply wrap32_small; lia).
    unfold count_nonzero at 2. cbn [List.filter].
    destruct (Z.eqb_spec s 0); cbn [negb length]; rewrite ?Hn'; lia.
Qed.

Lemma audio_diagnostics_full (buf : list Z) :
  length buf = Z.to_nat BUFFER_SIZE -> (forall s, In s buf -> int16 s) ->
  let d := audio_diagnostics buf in
  (min_sample d <= 0 <= max_sample d)%Z /\
  (forall s, In s buf -> (min_sample d <= s <= max_sample d)%Z) /\
  (max_sample d = 0%Z \/ In (max_sample d) buf) /\
  (min_sample d = 0%Z \/ In (min_sample d) buf) /\
  sample_sum d = Zsum buf /\
  (- 32768 * BUFFER_SIZE <= sample_sum d <= 32767 * BUFFER_SIZE)%Z /\
  non_zero_count d = count_nonzero buf /\
  (0 <= non_zero_count d <= BUFFER_SIZE)%Z.
Proof.
  intros Hlen Hint. cbv zeta. unfold audio_diagnostics.
  pose proof (audio_diagnostics_inv buf (Z.to_nat BUFFER_SIZE)) as H.
  cbv zeta in H. rewrite take_ge in H by lia.
  replace (Z.of_nat (Z.to_nat BUFFER_SIZE)) with BUFFER_SIZE in H by (vm_compute; reflexivity).
  apply H; [lia|unfold BUFFER_SIZE, NUM_FRAMES, HOP_LENGTH, FFT_SIZE; lia|exact Hint].
Qed.

(** X14.  The diagnostics of a buffer of [BUFFER_SIZE] 16-bit samples:
    [min_sample <= 0 <= max_sample] and every sample lies between them;
    each of the two is 0 or one of the samples; the 32-bit sum never wraps
    and is the sum of the samples; the count is the number of samples that
    are not zero; the average lies between [min_sample] and
    [max_sample]. *)
Theorem audio_diagnostics_spec (sampleBuffer : list Z) :
  length sampleBuffer = Z.to_nat BUFFER_SIZE ->
  (forall s, In s sampleBuffer -> int16 s) ->
  let d := audio_diagnostics sampleBuffer in
  (min_sample d <= 0 <= max_sample d)%Z /\
  (forall s, In s sampleBuffer -> (min_sample d <= s <= max_sample d)%Z) /\
  (max_sample d = 0%Z \/ In (max_sample d) sampleBuffer) /\
  (min_sample d = 0%Z \/ In (min_sample d) sampleBuffer) /\
  sample_sum d = Zsum sampleBuffer /\
  (- 2 ^ 31 < sample_sum d < 2 ^ 31)%Z /\
  non_zero_count d = count_nonzero sampleBuffer /\
  IZR (min_sample d) <= average d <= IZR (max_sample d).
Proof.
  intros Hlen Hint. cbv zeta.
  destruct (audio_diagnostics_full sampleBuffer Hlen Hint)
    as [H0 [Hb [Hmx [Hmn [Hsum [Hsb [Hnz Hnzb]]]]]]].
  repeat (split; [first [assumption | lia | unfold BUFFER_SIZE, NUM_FRAMES, HOP_LENGTH, FFT_SIZE in Hsb; lia]|]).
  (* the average: the sum lies between n * min and n * max *)
  assert (Hlo : (Z.of_nat (length sampleBuffer) * min_sample (audio_diagnostics sampleBuffer)
                 <= Zsum sampleBuffer)%Z /\
                (Zsum sampleBuffer
                 <= Z.of_nat (length sampleBuffer) * max_sample (audio_diagnostics sampleBuffer))%Z).
  { clear Hlen Hsum Hsb Hnz Hnzb Hmx Hmn Hint.
    set (lo := min_sample _) in *. set (hi := max_sample _) in *.
    clearbody lo hi. induction sampleBuffer as [|s l IH]; [simpl; lia|].
    assert (Hs : (lo <= s <= hi)%Z) by (apply Hb; left; reflexivity).
    destruct IH as [IH1 IH2]; [intros x Hx; apply Hb; right; exact Hx|].
    cbn [Zsum fold_right length]. fold (Zsum l). lia. }
  rewrite Hlen in Hlo.
  replace (Z.of_nat (Z.to_nat BUFFER_SIZE)) with 8352%Z in Hlo by reflexivity.
  unfold average. rewrite Hsum. change (IZR BUFFER_SIZE) with 8352.
  destruct Hlo as [Hlo Hhi]. apply IZR_le in Hlo, Hhi. rewrite mult_IZR in Hlo, Hhi.
  split.
  - apply (Rmult_le_reg_r 8352); [lra|]. unfold Rdiv.
    rewrite Rmult_assoc, Rinv_l by lra. lra.
  - apply (Rmult_le_reg_r 8352); [lra|]. unfold Rdiv.
    rewrite Rmult_assoc, Rinv_l by lra. lra.
Qed.

(** The statement on a buffer that holds 100 everywhere. *)
Lemma audio_diagnostics_spec_witness :
  let sampleBuffer := replicate (Z.to_nat BUFFER_SIZE) 100%Z in
  let d := audio_diagnostics sampleBuffer in
  (min_sample d <= 0 <= max_sample d)%Z /\
  (forall s, In s sampleBuffer -> (min_sample d <= s <= max_sample d)%Z) /\
  (max_sample d = 0%Z \/ In (max_sample d) sampleBuffer) /\
  (min_sample d = 0%Z \/ In (min_sample d) sampleBuffer) /\
  sample_sum d = Zsum sampleBuffer /\
  (- 2 ^ 31 < sample_sum d < 2 ^ 31)%Z /\
  non_zero_count d = count_nonzero sampleBuffer /\
  IZR (min_sample d) <= average d <= IZR (max_sample d).
Proof.
  apply (audio_diagnostics_spec (replicate (Z.to_nat BUFFER_SIZE) 100%Z)).
  - apply length_replicate.
  - intros s Hs. apply list_elem_of_In, elem_of_replicate in Hs.
    destruct Hs as [-> _]. unfold int16. lia.
Defined.

(** X15.  The check of line 256 passes exactly when more than 835 samples
    are not zero: [max_sample] and [min_sample] start from 0, so they
    differ as soon as one sample is not zero, and the comparison of the two
    adds nothing to the count.  A constant signal that is not zero passes
    the check. *)
Theorem data_varies_spec (sampleBuffer : list Z) :
  length sampleBuffer = Z.to_nat BUFFER_SIZE ->
  (forall s, In s sampleBuffer -> int16 s) ->
  data_varies (audio_diagnostics sampleBuffer) = (835 <? count_nonzero sampleBuffer)%Z.
Proof.
  intros Hlen Hint.
  destruct (audio_diagnostics_full sampleBuffer Hlen Hint)
    as [H0 [Hb [_ [_ [_ [_ [Hnz _]]]]]]].
  unfold data_varies. rewrite Hnz. change (BUFFER_SIZE / 10)%Z with 835%Z.
  rewrite Z.gtb_ltb.
  destruct (Z.ltb_spec 835 (count_nonzero sampleBuffer)) as [Hgt|Hle];
    [|apply andb_false_r].
  rewrite andb_true_r.
  destruct (count_nonzero_pos sampleBuffer) as [s [Hs Hne]]; [lia|].
  specialize (Hb s Hs).
  destruct (Z.eqb_spec (max_sample (audio_diagnostics sampleBuffer))
              (min_sample (audio_diagnostics sampleBuffer))); [lia|reflexivity].
Qed.

(** The statement on the constant signal 100: it passes. *)
Lemma data_varies_spec_witness :
  data_varies (audio_diagnostics (replicate (Z.to_nat BUFFER_SIZE) 100%Z)) =
  (835 <? count_nonzero (replicate (Z.to_nat BUFFER_SIZE) 100%Z))%Z.
Proof.
  apply (data_varies_spec (replicate (Z.to_nat BUFFER_SIZE) 100%Z)).
  - apply length_replicate.
  - intros s Hs. apply list_elem_of_In, elem_of_replicate in Hs.
    destruct Hs as [-> _]. unfold int16. lia.
Defined.

(** ** main.cpp: from the samples to the scores *)

Lemma to_audio_buffer_lookup (sampleBuffer : list Z) (audioBuffer : list R) (i : nat) :
  (Z.to_nat BUFFER_SIZE <= length audioBuffer)%nat ->
  to_audio_buffer sampleBuffer audioBuffer !!! i =
  if decide (i < Z.to_nat BUFFER_SIZE)%nat
  then IZR (sampleBuffer !!! i) / 32768 else audioBuffer !!! i.
Proof.
  intros H. unfold to_audio_buffer.
  apply (for_range_fill (fun i _ => IZR (sampleBuffer !!! i) / 32768));
    [reflexivity|exact H].
Qed.

Lemma to_audio_buffer_length (sampleBuffer : list Z) (audioBuffer : list R) :
  (Z.to_nat BUFFER_SIZE <= length audioBuffer)%nat ->
  length (to_audio_buffer sampleBuffer audioBuffer) = length audioBuffer.
Proof.
  intros H. unfold to_audio_buffer.
  apply (for_range_fill (fun i _ => IZR (sampleBuffer !!! i) / 32768));
    [reflexivity|exact H].
Qed.

(** X16.  The conversion of the samples: every 16-bit sample [s] becomes
    [s / 32768], a value in [-1, 1) that is 0 only for [s = 0]; the former
    contents of [audioBuffer] do not matter. *)
Theorem to_audio_buffer_range (sampleBuffer : list Z) (audioBuffer : list R) (i : nat) :
  length sampleBuffer = Z.to_nat BUFFER_SIZE ->
  length audioBuffer = Z.to_nat BUFFER_SIZE ->
  (forall s, In s sampleBuffer -> int16 s) ->
  (i < Z.to_nat BUFFER_SIZE)%nat ->
  let x := to_audio_buffer sampleBuffer audioBuffer !!! i in
  x = IZR (sampleBuffer !!! i) / 32768 /\ -1 <= x < 1 /\
  (x = 0 <-> sampleBuffer !!! i = 0%Z).
Proof.
  intros Hs Ha Hint Hi. cbv zeta.
  rewrite to_audio_buffer_lookup by lia.
  destruct (decide (i < Z.to_nat BUFFER_SIZE)%nat); [|lia].
  assert (Hin : In (sampleBuffer !!! i) sampleBuffer).
  { apply list_elem_of_In, list_elem_of_lookup_total_2. lia. }
  pose proof (Hint _ Hin) as [Hlo Hhi].
  apply IZR_le in Hlo, Hhi.
  split; [reflexivity|]. split; [lra|]. split.
  - intros Hz. apply eq_IZR. lra.
  - intros ->. lra.
Qed.

(** The statement for sample 3 of a buffer that holds -32768 everywhere. *)
Lemma to_audio_buffer_range_witness :
  let sampleBuffer := replicate (Z.to_nat BUFFER_SIZE) (-32768)%Z in
  let x := to_audio_buffer sampleBuffer (replicate (Z.to_nat BUFFER_SIZE) 0) !!! 3%nat in
  x = IZR (sampleBuffer !!! 3%nat) / 32768 /\ -1 <= x < 1 /\
  (x = 0 <-> sampleBuffer !!! 3%nat = 0%Z).
Proof.
  apply (to_audio_buffer_range (replicate (Z.to_nat BUFFER_SIZE) (-32768)%Z)
           (replicate (Z.to_nat BUFFER_SIZE) 0) 3).
  - apply length_replicate.
  - apply length_replicate.
  - intros s Hs. apply list_elem_of_In, elem_of_replicate in Hs.
    destruct Hs as [-> _]. unfold int16. lia.
  - unfold BUFFER_SIZE, NUM_FRAMES, HOP_LENGTH, FFT_SIZE. lia.
Defined.

(** X17.  The choice of the class.  When one of the three scores is above
    the initial -1000, [max_index] is the first index that holds the
    greatest score and [max_score] is that score.  When no score is above
    -1000, the result is class 0 with the score -1000, which is none of the
    scores unless a score is -1000. *)
Theorem best_score_spec (output : list R) :
  let max_score := fst (best_score output) in
  let max_index := snd (best_score output) in
  (max_index < 3)%nat /\
  ((exists i, (i < 3)%nat /\ -1000 < output !!! i) ->
     max_score = output !!! max_index /\
     (forall i, (i < 3)%nat -> output !!! i <= max_score) /\
     (forall i, (i < max_index)%nat -> output !!! i < max_score)) /\
  ((forall i, (i < 3)%nat -> output !!! i <= -1000) ->
     max_score = -1000 /\ max_index = 0%nat).
Proof.
  cbv zeta. unfold best_score.
  pose (P := fun (c : nat) (st : R * nat) =>
    (fst st = -1000 /\ snd st = 0%nat /\ forall i, (i < c)%nat -> output !!! i <= -1000) \/
    ((snd st < c)%nat /\ fst st = output !!! (snd st) /\ -1000 < fst st /\
     (forall i, (i < c)%nat -> output !!! i <= fst st) /\
     (forall i, (i < snd st)%nat -> output !!! i < fst st))).
  match goal with |- context [for_range 0 3 ?b ?i] => set (body := b); set (init := i) end.
  assert (HP : P 3%nat (for_range 0 3 body init)).
  { apply for_range_inv.
    - left. cbn [fst snd]. split; [reflexivity|]. split; [reflexivity|]. intros i Hi. lia.
    - intros c [ms mi] Hc HPc. rewrite Nat.add_0_l. subst body. cbv beta iota.
      unfold P in *. cbn [fst snd] in *.
      destruct (Rgt_dec (output !!! c) ms) as [Hgt|Hle]; cbn [fst snd].
      + right. split; [lia|]. split; [reflexivity|].
        destruct HPc as [[-> [-> Hall]]|[Hmi [Hms [Hpos [Hub Hfirst]]]]].
        * split; [lra|]. split.
          -- intros i Hi. destruct (decide (i = c)) as [->|]; [lra|].
             assert (output !!! i <= -1000) by (apply Hall; lia). lra.
          -- intros i Hi. assert (output !!! i <= -1000) by (apply Hall; lia). lra.
        * split; [lra|]. split.
          -- intros i Hi. destruct (decide (i = c)) as [->|]; [lra|].
             assert (output !!! i <= ms) by (apply Hub; lia). lra.
          -- intros i Hi. assert (output !!! i <= ms) by (apply Hub; lia). lra.
      + destruct HPc as [[-> [-> Hall]]|[Hmi [Hms [Hpos [Hub Hfirst]]]]].
        * left. split; [reflexivity|]. split; [reflexivity|].
          intros i Hi. destruct (decide (i = c)) as [->|]; [lra|]. apply Hall. lia.
        * right. split; [lia|]. split; [exact Hms|]. split; [exact Hpos|].
          split; [|exact Hfirst].
          intros i Hi. destruct (decide (i = c)) as [->|]; [lra|]. apply Hub. lia. }
  destruct (for_range 0 3 body init) as [ms mi]. unfold P in HP. cbn [fst snd] in *.
  destruct HP as [[-> [-> Hall]]|[Hmi [Hms [Hpos [Hub Hfirst]]]]].
  - split; [lia|]. split.
    + intros [i [Hi Hgt]]. specialize (Hall i Hi). lra.
    + intros _. split; reflexivity.
  - split; [exact Hmi|]. split.
    + intros _. split; [exact Hms|]. split; [exact Hub|exact Hfirst].
    + intros Hall. specialize (Hall mi Hmi). lra.
Qed.

(** The analysis of the spectrogram after [c] values. *)
Lemma spec_analysis_inv (a : list R) (c : nat) :
  (Z.of_nat c <= 1960)%Z ->
  let d := for_range 0 c (spec_step a)
             {| min_spec := 1000; max_spec := -1000; spec_sum := 0; non_zero_spec := 0 |} in
  (min_spec d <= 1000 /\ -1000 <= max_spec d) /\
  (forall i, (i < c)%nat -> min_spec d <= a !!! i <= max_spec d) /\
  (min_spec d = 1000 \/ exists i, (i < c)%nat /\ a !!! i = min_spec d) /\
  (max_spec d = -1000 \/ exists i, (i < c)%nat /\ a !!! i = max_spec d) /\
  (0 <= non_zero_spec d <= Z.of_nat c)%Z.
Proof.
  intros Hc. induction c as [|c IH]; cbv zeta.
  - rewrite for_range_0. cbn [min_spec max_spec non_zero_spec].
    split; [lra|]. split; [intros i Hi; lia|]. split; [left; reflexivity|].
    split; [left; reflexivity|lia].
  - rewrite for_range_S, Nat.add_0_l.
    destruct IH as [[Hmn Hmx] [Hb [Hamin [Hamax Hnz]]]]; [lia|].
    set (d := for_range 0 c (spec_step a) _) in *.
    unfold spec_step. cbv zeta. cbn [min_spec max_spec non_zero_spec].
    assert (Hw : wrap32 (non_zero_spec d + 1) = (non_zero_spec d + 1)%Z)
      by (apply wrap32_small; lia).
    split; [destruct (Rlt_dec (a !!! c) (min_spec d)),
                     (Rgt_dec (a !!! c) (max_spec d)); lra|].
    split.
    { intros i Hi. destruct (decide (i = c)) as [->|Hne].
      - destruct (Rlt_dec (a !!! c) (min_spec d)), (Rgt_dec (a !!! c) (max_spec d)); lra.
      - assert (min_spec d <= a !!! i <= max_spec d) by (apply Hb; lia).
        destruct (Rlt_dec (a !!! c) (min_spec d)), (Rgt_dec (a !!! c) (max_spec d)); lra. }
    split.
    { destruct (Rlt_dec (a !!! c) (min_spec d)).
      - right. exists c. split; [lia|reflexivity].
      - destruct Hamin as [Hz|[i [Hi Hv]]]; [left; exact Hz|].
        right. exists i. split; [lia|exact Hv]. }
    split.
    { destruct (Rgt_dec (a !!! c) (max_spec d)).
      - right. exists c. split; [lia|reflexivity].
      - destruct Hamax as [Hz|[i [Hi Hv]]]; [left; exact Hz|].
        right. exists i. split; [lia|exact Hv]. }
    destruct (Rgt_dec (a !!! c) 0.001); rewrite ?Hw; lia.
Qed.

(** X18.  The analysis of a spectrogram whose [SPECTROGRAM_SIZE] values
    lie in [0, 1], as [audioToMelSpectrogram] leaves them: [min_spec] and
    [max_spec] are the least and the greatest value of the spectrogram
    (the initial 1000 and -1000 do not survive), and the count of the
    values above 0.001 is between 0 and [SPECTROGRAM_SIZE]. *)
Theorem spec_analysis_spec (spectrogram : list R) :
  (forall i, (i < Z.to_nat SPECTROGRAM_SIZE)%nat -> 0 <= spectrogram !!! i <= 1) ->
  let d := spec_analysis spectrogram in
  (forall i, (i < Z.to_nat SPECTROGRAM_SIZE)%nat ->
     min_spec d <= spectrogram !!! i <= max_spec d) /\
  (exists i, (i < Z.to_nat SPECTROGRAM_SIZE)%nat /\ spectrogram !!! i = min_spec d) /\
  (exists i, (i < Z.to_nat SPECTROGRAM_SIZE)%nat /\ spectrogram !!! i = max_spec d) /\
  (0 <= non_zero_spec d <= SPECTROGRAM_SIZE)%Z /\
  SPECTROGRAM_SIZE = (NUM_MELS * NUM_FRAMES)%Z.
Proof.
  intros Hr. cbv zeta. unfold spec_analysis.
  destruct (spec_analysis_inv spectrogram (Z.to_nat SPECTROGRAM_SIZE))
    as [_ [Hb [Hmin [Hmax Hnz]]]]; [unfold SPECTROGRAM_SIZE; lia|].
  assert (H0 : (0 < Z.to_nat SPECTROGRAM_SIZE)%nat) by (unfold SPECTROGRAM_SIZE; lia).
  pose proof (Hb 0%nat H0) as Hb0. pose proof (Hr 0%nat H0) as Hr0.
  split; [exact Hb|]. split; [|split; [|split; [|reflexivity]]].
  - destruct Hmin as [Hz|H]; [|exact H]. rewrite Hz in Hb0. lra.
  - destruct Hmax as [Hz|H]; [|exact H]. rewrite Hz in Hb0. lra.
  - unfold SPECTROGRAM_SIZE in *. lia.
Qed.

(** The statement on the spectrogram that holds 1/2 everywhere. *)
Lemma spec_analysis_spec_witness :
  let spectrogram := replicate (Z.to_nat SPECTROGRAM_SIZE) (1 / 2) in
  let d := spec_analysis spectrogram in
  (forall i, (i < Z.to_nat SPECTROGRAM_SIZE)%nat ->
     min_spec d <= spectrogram !!! i <= max_spec d) /\
  (exists i, (i < Z.to_nat SPECTROGRAM_SIZE)%nat /\ spectrogram !!! i = min_spec d) /\
  (exists i, (i < Z.to_nat SPECTROGRAM_SIZE)%nat /\ spectrogram !!! i = max_spec d) /\
  (0 <= non_zero_spec d <= SPECTROGRAM_SIZE)%Z /\
  SPECTROGRAM_SIZE = (NUM_MELS * NUM_FRAMES)%Z.
Proof.
  apply (spec_analysis_spec (replicate (Z.to_nat SPECTROGRAM_SIZE) (1 / 2))).
  intros i Hi. rewrite lookup_total_replicate_R by exact Hi. lra.
Defined.

(** ** main.cpp: the data path of [loop] *)

Lemma list_scaled_one (a a' : list R) : list_scaled 1 a a' -> a' = a.
Proof.
  intros [Hl Hv]. apply list_total_ext; [exact Hl|]. intros i _. rewrite Hv. ring.
Qed.

Lemma audioToMelSpectrogram_load (fb me : list R) (audio spectrogram : Z) (m : mem) :
  length fb = Z.to_nat FFT_SIZE -> length me = Z.to_nat NUM_MELS ->
  separate audio spectrogram ->
  load_array (audioToMelSpectrogram fb me audio spectrogram m) spectrogram
    (Z.to_nat (NUM_MELS * NUM_FRAMES)) =
  normalizeSpectrogram (raw_spectrogram m audio) (Z.to_nat (NUM_MELS * NUM_FRAMES)).
Proof.
  intros Hfb Hme Hsep.
  destruct (audioToMelSpectrogram_spec fb me audio spectrogram m Hfb Hme Hsep) as [_ Hin].
  apply list_total_ext.
  - rewrite load_array_length, normalizeSpectrogram_length, raw_spectrogram_length
      by (rewrite raw_spectrogram_length; reflexivity).
    reflexivity.
  - intros i Hi. rewrite load_array_length in Hi.
    rewrite load_array_lookup by exact Hi. apply Hin. exact Hi.
Qed.

(** X19.  The data path of [loop].  A buffer with at most 835 samples that
    are not zero (silence in particular) is dropped before any feature is
    computed.  Any other buffer reaches the interpreter as
    [SPECTROGRAM_SIZE] values in [0, 1]: the normalised feature matrix of
    the samples divided by 32768, whatever the memory held before. *)
Theorem loop_features_spec (fft_buffer mel_energies : list R)
    (audioBuffer spectrogram : Z) (sampleBuffer : list Z) (m : mem) :
  length fft_buffer = Z.to_nat FFT_SIZE -> length mel_energies = Z.to_nat NUM_MELS ->
  separate audioBuffer spectrogram ->
  length sampleBuffer = Z.to_nat BUFFER_SIZE ->
  (forall s, In s sampleBuffer -> int16 s) ->
  let result :=
    loop_features fft_buffer mel_energies audioBuffer spectrogram sampleBuffer m in
  ((count_nonzero sampleBuffer <= 835)%Z -> result = None) /\
  ((835 < count_nonzero sampleBuffer)%Z ->
     exists features,
       result = Some features /\
       length features = Z.to_nat SPECTROGRAM_SIZE /\
       (forall x, In x features -> 0 <= x <= 1) /\
       features =
         normalizeSpectrogram
           (raw_spectrogram (samples_mem sampleBuffer audioBuffer) audioBuffer)
           (Z.to_nat SPECTROGRAM_SIZE)).
Proof.
  intros Hfb Hme Hsep Hlen Hint. cbv zeta. unfold loop_features.
  assert (Hgate : data_varies (audio_diagnostics sampleBuffer)
                  = (835 <? count_nonzero sampleBuffer)%Z).
  { destruct (audio_diagnostics_full sampleBuffer Hlen Hint)
      as [H0 [Hb [_ [_ [_ [_ [Hnz _]]]]]]].
    unfold data_varies. rewrite Hnz. change (BUFFER_SIZE / 10)%Z with 835%Z.
    rewrite Z.gtb_ltb.
    destruct (Z.ltb_spec 835 (count_nonzero sampleBuffer)) as [Hgt|Hle];
      [|apply andb_false_r].
    rewrite andb_true_r.
    destruct (count_nonzero_pos sampleBuffer) as [s [Hs Hne]]; [lia|].
    specialize (Hb s Hs).
    destruct (Z.eqb_spec (max_sample (audio_diagnostics sampleBuffer))
                (min_sample (audio_diagnostics sampleBuffer))); [lia|reflexivity]. }
  rewrite Hgate. split.
  - intros Hle. destruct (Z.ltb_spec 835 (count_nonzero sampleBuffer)); [lia|reflexivity].
  - intros Hgt. destruct (Z.ltb_spec 835 (count_nonzero sampleBuffer)); [|lia].
    cbn [negb]. cbv zeta.
    set (n := Z.to_nat BUFFER_SIZE).
    set (converted := to_audio_buffer sampleBuffer (load_array m audioBuffer n)).
    set (m1 := store_array m audioBuffer converted).
    assert (Hcl : length converted = n).
    { unfold converted. rewrite to_audio_buffer_length; rewrite load_array_length; lia. }
    assert (Hm1 : forall idx, (0 <= idx < 8192)%Z ->
              samples_mem sampleBuffer audioBuffer (audioBuffer + idx)%Z
              = 1 * m1 (audioBuffer + idx)%Z).
    { intros idx Hidx.
      destruct (store_array_spec m audioBuffer converted) as [Hin _].
      fold m1 in Hin. rewrite Hcl in Hin.
      assert (Hi : (Z.to_nat idx < n)%nat)
        by (unfold n, BUFFER_SIZE, NUM_FRAMES, HOP_LENGTH, FFT_SIZE; lia).
      specialize (Hin (Z.to_nat idx) Hi).
      replace (Z.of_nat (Z.to_nat idx)) with idx in Hin by lia.
      rewrite Hin. unfold converted.
      rewrite to_audio_buffer_lookup by (rewrite load_array_length; unfold n; lia).
      destruct (decide (Z.to_nat idx < Z.to_nat BUFFER_SIZE)%nat); [|unfold n in *; lia].
      unfold samples_mem.
      replace (audioBuffer + idx - audioBuffer)%Z with idx by lia. ring. }
    assert (Hraw : raw_spectrogram (samples_mem sampleBuffer audioBuffer) audioBuffer
                   = raw_spectrogram m1 audioBuffer).
    { apply list_scaled_one. apply raw_spectrogram_scaled; [lra|exact Hm1]. }
    change (Z.to_nat SPECTROGRAM_SIZE) with (Z.to_nat (NUM_MELS * NUM_FRAMES)).
    rewrite (audioToMelSpectrogram_load fft_buffer mel_energies audioBuffer spectrogram m1
               Hfb Hme Hsep).
    eexists. split; [reflexivity|]. rewrite Hraw.
    set (raw := raw_spectrogram m1 audioBuffer).
    assert (Hrl : length raw = Z.to_nat (NUM_MELS * NUM_FRAMES))
      by apply raw_spectrogram_length.
    split; [rewrite normalizeSpectrogram_length; lia|]. split; [|reflexivity].
    intros x Hx. apply In_lookup_total in Hx. destruct Hx as [i [Hi <-]].
    rewrite normalizeSpectrogram_length in Hi by lia.
    rewrite <- Hrl. apply normalizeSpectrogram_range; [|exact Hi].
    intros k. apply raw_spectrogram_nonneg.
Qed.

(** The statement on the constant signal 100, with [audioBuffer] at address
    0 and [spectrogram] right after it. *)
Lemma loop_features_spec_witness :
  let sampleBuffer := replicate (Z.to_nat BUFFER_SIZE) 100%Z in
  let result :=
    loop_features (replicate (Z.to_nat FFT_SIZE) 0) (replicate (Z.to_nat NUM_MELS) 0)
      0 BUFFER_SIZE sampleBuffer IZR in
  ((count_nonzero sampleBuffer <= 835)%Z -> result = None) /\
  ((835 < count_nonzero sampleBuffer)%Z ->
     exists features,
       result = Some features /\
       length features = Z.to_nat SPECTROGRAM_SIZE /\
       (forall x, In x features -> 0 <= x <= 1) /\
       features =
         normalizeSpectrogram
           (raw_spectrogram (samples_mem sampleBuffer 0) 0)
           (Z.to_nat SPECTROGRAM_SIZE)).
Proof.
  apply (loop_features_spec (replicate (Z.to_nat FFT_SIZE) 0)
           (replicate (Z.to_nat NUM_MELS) 0) 0 BUFFER_SIZE
           (replicate (Z.to_nat BUFFER_SIZE) 100%Z) IZR).
  - apply length_replicate.
  - apply length_replicate.
  - left. lia.
  - apply length_replicate.
  - intros s Hs. apply list_elem_of_In, elem_of_replicate in Hs.
    destruct Hs as [-> _]. unfold int16. lia.
Defined.

(** ** Bounds of the butterflies, overlap of the frames *)

(** X20.  For a size that is a power of two, every position of [real] and
    [imag] that a butterfly of [computeFFT] reads or writes lies inside the
    two arrays of [size] elements. *)
Theorem computeFFT_positions_in_bounds (n i : nat) :
  In i (fft_positions (2 ^ n)) -> (i < 2 ^ n)%nat.
Proof.
  unfold fft_positions. rewrite Nat.log2_pow2 by lia.
  intros H. apply in_flat_map in H. destruct H as [stage [Hstage H]].
  apply in_seq in Hstage. cbv zeta in H.
  apply in_flat_map in H. destruct H as [b [Hb H]].
  apply in_flat_map in H. destruct H as [j [Hj H]].
  apply in_seq in Hb. apply in_seq in Hj.
  destruct stage as [|st]; [lia|].
  rewrite pow2_half in *.
  assert (Hm : (2 ^ S st = 2 * 2 ^ st)%nat) by apply Nat.pow_succ_r'.
  pose proof (pow2_pos st) as Hpos.
  assert (Hn : (2 ^ n = 2 ^ (n - S st) * 2 ^ S st)%nat).
  { rewrite <- Nat.pow_add_r. f_equal. lia. }
  rewrite Hn in Hb. rewrite trip_count in Hb by lia.
  rewrite Hn.
  assert (Hb' : (S b <= 2 ^ (n - S st))%nat) by lia.
  assert (Hlt : (b * 2 ^ S st + j + 2 ^ st < S b * 2 ^ S st)%nat) by lia.
  assert (Hle : (S b * 2 ^ S st <= 2 ^ (n - S st) * 2 ^ S st)%nat)
    by (apply Nat.mul_le_mono_r; exact Hb').
  simpl in H. destruct H as [<-|[<-|[]]]; lia.
Qed.

(** The statement for position 7 of the size 8. *)
Lemma computeFFT_positions_in_bounds_witness : (7 < 2 ^ 3)%nat.
Proof.
  apply (computeFFT_positions_in_bounds 3 7). vm_compute. tauto.
Defined.

(** X21.  Consecutive frames overlap: frame [f + 1] starts [HOP_LENGTH]
    samples after frame [f], so its sample [i] is sample [i + 160] of frame
    [f], for the [FFT_SIZE - HOP_LENGTH = 352] samples that the two frames
    share. *)
Theorem extract_frame_overlap (m : mem) (audio : Z) (f i : nat) (buf buf' : list R) :
  length buf = Z.to_nat FFT_SIZE -> length buf' = Z.to_nat FFT_SIZE ->
  (i + Z.to_nat HOP_LENGTH < Z.to_nat FFT_SIZE)%nat ->
  extract_frame m audio (S f) buf' !!! i =
  extract_frame m audio f buf !!! (i + Z.to_nat HOP_LENGTH)%nat.
Proof.
  intros Hb Hb' Hi. rewrite !extract_frame_lookup by lia.
  destruct (decide (i < Z.to_nat FFT_SIZE)%nat); [|lia].
  destruct (decide (i + Z.to_nat HOP_LENGTH < Z.to_nat FFT_SIZE)%nat); [|lia].
  cbv zeta.
  replace (Z.of_nat f * HOP_LENGTH + Z.of_nat (i + Z.to_nat HOP_LENGTH))%Z
    with (Z.of_nat (S f) * HOP_LENGTH + Z.of_nat i)%Z
    by (unfold HOP_LENGTH; lia).
  reflexivity.
Qed.

(** The statement for frames 0 and 1, sample 351. *)
Lemma extract_frame_overlap_witness :
  extract_frame IZR 0 1 (replicate (Z.to_nat FFT_SIZE) 0) !!! 351%nat =
  extract_frame IZR 0 0 (replicate (Z.to_nat FFT_SIZE) 0)
    !!! (351 + Z.to_nat HOP_LENGTH)%nat.
Proof.
  apply (extract_frame_overlap IZR 0 0 351).
  - apply length_replicate.
  - apply length_replicate.
  - unfold HOP_LENGTH, FFT_SIZE. lia.
Defined.
